(** * GLR pipeline: a shallow embedding of [GLR_Pipeline/app.py]

    The script reads a Word template, detects the placeholder tokens
    [[NAME]] in it, asks a hosted language model for the value of each
    placeholder, merges the answer with a regex fallback, runs one
    best-effort inference pass for the fields still empty, and fills the
    template.

    Python values are embedded as follows.
    - [str] is a list of characters ([pystr]); a character is an 8-bit
      code point.
    - The values [json.loads] produces are the inductive type [pyval].
    - A [dict] is an association list in insertion order with unique keys
      ([dict_set] overwrites in place or appends), because the script
      iterates over [items()].
    - An exception is a [Raise] result; the functions that talk to the
      model thread a [world] that records every request and reply.
    - The paragraphs of a document live in a store and are reached by
      index, because python-docx hands out the same paragraph more than
      once for merged table cells and [fill_docx] mutates it in place.
      A paragraph is the list of its runs; assigning [p.text] replaces
      them by a single run, stores a carriage return as a line break and
      raises [ValueError] for a control character XML cannot hold.
    - Library functions the script calls but does not define ([json.loads],
      [str], the four [re.search] calls of the fallback, the clock) are the
      fields of an [Env] record. *)

From Stdlib Require Import Ascii String.
From Stdlib Require Import List ZArith Bool Arith Lia.
From Stdlib Require Import Sorting.Sorted Permutation DecimalString.
Import ListNotations.

Set Implicit Arguments.
Local Open Scope list_scope.

(** ** Strings *)

Definition pystr := list ascii.

(** A string literal of the script. *)
Definition lit (s : string) : pystr := list_ascii_of_string s.

Definition pystr_eqb (a b : pystr) : bool :=
  if list_eq_dec ascii_dec a b then true else false.

(** [text[a:b]] for [0 <= a]. *)
Definition slice (text : pystr) (a b : nat) : pystr :=
  firstn (b - a) (skipn a text).

(** [text.find(c)] for a one-character needle; [None] stands for [-1]. *)
Fixpoint find_char (c : ascii) (text : pystr) : option nat :=
  match text with
  | [] => None
  | x :: rest =>
      if Ascii.eqb x c then Some 0
      else match find_char c rest with
           | Some i => Some (S i)
           | None => None
           end
  end.

(** [s.startswith(p)]. *)
Fixpoint starts_with (p s : pystr) : bool :=
  match p, s with
  | [], _ => true
  | _ :: _, [] => false
  | a :: p', b :: s' => Ascii.eqb a b && starts_with p' s'
  end.

(** [needle in s]. *)
Fixpoint contains (needle s : pystr) : bool :=
  starts_with needle s ||
  match s with
  | [] => false
  | _ :: rest => contains needle rest
  end.

(** [str.isspace] on one character: the whitespace code points below 256. *)
Definition is_space (c : ascii) : bool :=
  let n := nat_of_ascii c in
  ((9 <=? n) && (n <=? 13)) || ((28 <=? n) && (n <=? 32))
  || (n =? 133) || (n =? 160).

Fixpoint lstrip (s : pystr) : pystr :=
  match s with
  | [] => []
  | c :: rest => if is_space c then lstrip rest else s
  end.

Definition rstrip (s : pystr) : pystr := rev (lstrip (rev s)).

(** [s.strip()]. *)
Definition strip (s : pystr) : pystr := rstrip (lstrip s).

(** [sep.join(parts)]. *)
Fixpoint join (sep : pystr) (parts : list pystr) : pystr :=
  match parts with
  | [] => []
  | [p] => p
  | p :: rest => p ++ sep ++ join sep rest
  end.

(** [s.replace(old, new)]: the occurrences of [old] are found left to
    right and do not overlap.  [skip] counts the characters of a replaced
    occurrence that are still to be passed over. *)
Fixpoint replace_from (old new : pystr) (skip : nat) (s : pystr) : pystr :=
  match s with
  | [] => []
  | c :: rest =>
      match skip with
      | S k => replace_from old new k rest
      | O =>
          if starts_with old s
          then new ++ replace_from old new (length old - 1) rest
          else c :: replace_from old new 0 rest
      end
  end.

Definition py_replace (old new s : pystr) : pystr :=
  match old with
  | [] => new ++ flat_map (fun c => c :: new) s
  | _ :: _ => replace_from old new 0 s
  end.

(** Comparison of two strings by code points, as [<=] on [str]. *)
Fixpoint pystr_leb (a b : pystr) : bool :=
  match a, b with
  | [], _ => true
  | _ :: _, [] => false
  | x :: a', y :: b' =>
      if (nat_of_ascii x <? nat_of_ascii y) then true
      else if (nat_of_ascii y <? nat_of_ascii x) then false
      else pystr_leb a' b'
  end.

Definition pystr_le (a b : pystr) : Prop := pystr_leb a b = true.

Fixpoint insert_sorted (x : pystr) (l : list pystr) : list pystr :=
  match l with
  | [] => [x]
  | y :: rest => if pystr_leb x y then x :: l else y :: insert_sorted x rest
  end.

(** [sorted(xs)] on strings; the result of a stable sort, here by
    insertion from the right. *)
Definition sorted (xs : list pystr) : list pystr :=
  fold_right insert_sorted [] xs.

(** ** [extract_first_json_block] *)

Definition lbrace : ascii := "{"%char.
Definition rbrace : ascii := "}"%char.

(** The [for i in range(start, len(text))] loop: [rest] is [text[i:]] and
    [braces] the counter on entry of iteration [i]. *)
Fixpoint scan_braces (text : pystr) (start : nat) (braces : Z) (i : nat)
         (rest : pystr) : pystr :=
  match rest with
  | [] => []
  | c :: rest' =>
      if Ascii.eqb c lbrace then scan_braces text start (braces + 1) (S i) rest'
      else if Ascii.eqb c rbrace then
        let braces' := (braces - 1)%Z in
        if (braces' =? 0)%Z then slice text start (S i)
        else scan_braces text start braces' (S i) rest'
      else scan_braces text start braces (S i) rest'
  end.

Definition extract_first_json_block (text : pystr) : pystr :=
  match find_char lbrace text with
  | None => []
  | Some start => scan_braces text start 0 start (skipn start text)
  end.

(** Number of opening braces minus number of closing braces. *)
Fixpoint depth (s : pystr) : Z :=
  match s with
  | [] => 0
  | c :: rest =>
      ((if Ascii.eqb c lbrace then 1
        else if Ascii.eqb c rbrace then -1 else 0) + depth rest)%Z
  end.

(** Every non-empty prefix of [s] of length at most [k] has more opening
    than closing braces. *)
Definition open_upto (s : pystr) (k : nat) : Prop :=
  forall n, 0 < n <= k -> (0 < depth (firstn n s))%Z.

(** [blk] opens with a brace and closes at the brace that balances it. *)
Definition balanced_block (blk : pystr) : Prop :=
  hd_error blk = Some lbrace /\
  last blk lbrace = rbrace /\
  depth blk = 0%Z /\
  open_upto blk (length blk - 1).

(** ** Values *)

(** A Python float, as far as the script observes one: whether it is zero
    (truth value) and the literal it was read from. *)
Record pyfloat := { float_is_zero : bool; float_text : pystr }.

(** The values [json.loads] returns. *)
Inductive pyval :=
| VNone
| VBool (b : bool)
| VInt (z : Z)
| VFloat (f : pyfloat)
| VStr (s : pystr)
| VList (l : list pyval)
| VDict (d : list (pystr * pyval)).

Definition dict := list (pystr * pyval).

(** [bool(v)]. *)
Definition truthy (v : pyval) : bool :=
  match v with
  | VNone => false
  | VBool b => b
  | VInt z => negb (z =? 0)%Z
  | VFloat f => negb (float_is_zero f)
  | VStr s => match s with [] => false | _ => true end
  | VList l => match l with [] => false | _ => true end
  | VDict d => match d with [] => false | _ => true end
  end.

(** [v] compared with the empty string, as in the test of [still_empty]. *)
Definition is_empty_str (v : pyval) : bool :=
  match v with
  | VStr [] => true
  | _ => false
  end.

Definition is_str (v : pyval) : bool :=
  match v with
  | VStr _ => true
  | _ => false
  end.

(** The empty string as a value. *)
Definition VEmpty : pyval := VStr [].

Section Dict.
Variable V : Type.

(** [d.get(k)] *)
Fixpoint dict_get (k : pystr) (d : list (pystr * V)) : option V :=
  match d with
  | [] => None
  | (k', v) :: rest => if pystr_eqb k' k then Some v else dict_get k rest
  end.

(** [d[k] = v]: an existing key keeps its position. *)
Fixpoint dict_set (k : pystr) (v : V) (d : list (pystr * V))
  : list (pystr * V) :=
  match d with
  | [] => [(k, v)]
  | (k', v') :: rest =>
      if pystr_eqb k' k then (k', v) :: rest
      else (k', v') :: dict_set k v rest
  end.

(** [d.get(k, dflt)] *)
Definition dict_get_default (k : pystr) (dflt : V) (d : list (pystr * V)) : V :=
  match dict_get k d with
  | Some v => v
  | None => dflt
  end.

(** [d.setdefault(k, dflt)], the dictionary afterwards. *)
Definition dict_setdefault (k : pystr) (dflt : V) (d : list (pystr * V))
  : list (pystr * V) :=
  match dict_get k d with
  | Some _ => d
  | None => dict_set k dflt d
  end.

Definition dict_keys (d : list (pystr * V)) : list pystr := map fst d.

(** [{k: f(k) for k in ks}] *)
Definition dict_comprehension (f : pystr -> V) (ks : list pystr)
  : list (pystr * V) :=
  fold_left (fun d k => dict_set k (f k) d) ks [].
End Dict.

(** Truth value of [d.get(k)]: an absent key gives [None]. *)
Definition truthy_opt (o : option pyval) : bool :=
  match o with
  | Some v => truthy v
  | None => false
  end.

(** ** Exceptions *)

Inductive exn :=
| RuntimeError
| HTTPError          (* anything [requests] or the reply's indexing raises *)
| JSONDecodeError
| AttributeError
| KeyError
| TypeError
| ValueError.

Inductive result (A : Type) :=
| Ok (a : A)
| Raise (e : exn).

Arguments Ok {A} a.
Arguments Raise {A} e.

Definition rbind {A B} (r : result A) (k : A -> result B) : result B :=
  match r with
  | Ok a => k a
  | Raise e => Raise e
  end.

Declare Scope py_scope.
Delimit Scope py_scope with py.
Notation "x <- r ;; k" := (rbind r (fun x => k))
  (at level 61, r at next level, right associativity) : py_scope.
Local Open Scope py_scope.

(** Method calls on a value that need not be a dictionary. *)

Definition as_dict (o : pyval) : result dict :=
  match o with
  | VDict d => Ok d
  | _ => Raise AttributeError
  end.

(** [o.get(k)] *)
Definition py_get (o : pyval) (k : pystr) : result (option pyval) :=
  d <- as_dict o ;; Ok (dict_get k d).

(** [o.get(k, dflt)] *)
Definition py_get_default (o : pyval) (k : pystr) (dflt : pyval) : result pyval :=
  d <- as_dict o ;; Ok (dict_get_default k dflt d).

(** [o.setdefault(k, dflt)]: the object afterwards. *)
Definition py_setdefault (o : pyval) (k : pystr) (dflt : pyval) : result pyval :=
  d <- as_dict o ;; Ok (VDict (dict_setdefault k dflt d)).

(** [o.items()] *)
Definition py_items (o : pyval) : result dict := as_dict o.

(** [o[k]] for a string [k]. *)
Definition py_getitem (o : pyval) (k : pystr) : result pyval :=
  match o with
  | VDict d =>
      match dict_get k d with
      | Some v => Ok v
      | None => Raise KeyError
      end
  | _ => Raise TypeError
  end.

(** [o[k] = v] for a string [k]. *)
Definition py_setitem (o : pyval) (k : pystr) (v : pyval) : result pyval :=
  match o with
  | VDict d => Ok (VDict (dict_set k v d))
  | _ => Raise TypeError
  end.

(** [v.strip()] *)
Definition py_strip (v : pyval) : result pystr :=
  match v with
  | VStr s => Ok (strip s)
  | _ => Raise AttributeError
  end.

(** ** The environment of the script *)

Record Env := {
  (** [json.loads]; [None] when it raises. *)
  json_loads : pystr -> option pyval;
  (** [str(v)]. *)
  py_str : pyval -> pystr;
  (** Group 2 of the insured-name search of [fallback_structured]. *)
  search_insured : pystr -> option pystr;
  (** Groups 1 to 4 of the address search. *)
  search_address : pystr -> option (pystr * pystr * pystr * pystr);
  (** Group 1 of the date search. *)
  search_date : pystr -> option pystr;
  (** Group 2 of the mortgagee search. *)
  search_mortgagee : pystr -> option pystr;
  (** [datetime.datetime.now().strftime("%m/%d/%Y")]. *)
  today : pystr;
  (** [os.getenv("OPENROUTER_API_KEY")]. *)
  OPENROUTER_API_KEY : option pystr
}.

(** ** Requests to the model *)

(** The three sampling temperatures of the script: 0.0, 0.2 and 0.6. *)
Inductive temperature := T00 | T02 | T06.

(** Which pair of prompt templates a request is built from. *)
Inductive prompt_kind :=
| PHighAccuracy
| PStrictValidation
| PFieldAudit
| PVoting
| PNoMissing.

(** A request, with its prompts kept symbolic: the templates and the two
    values interpolated into them. *)
Record request := {
  rq_kind : prompt_kind;
  rq_fields : list pystr;
  rq_text : pystr;
  rq_temperature : temperature;
  rq_max_tokens : Z
}.

(** What comes back: the content of the first choice, or an exception
    ([raise_for_status], a transport error, a reply of another shape). *)
Inductive reply :=
| Failed
| Content (out : pystr).

Inductive event :=
| EvRequest (r : request)
| EvReply (rp : reply).

(** The model answers the [n]-th request of a run with [net n]. *)
Definition network := nat -> reply.

Record world := {
  issued : nat;
  events : list event
}.

Definition world0 : world := {| issued := 0; events := [] |}.

(** Computations that may raise and that talk to the model. *)
Definition M (A : Type) : Type := world -> result A * world.

Definition ret {A} (a : A) : M A := fun w => (Ok a, w).

Definition raise {A} (e : exn) : M A := fun w => (Raise e, w).

Definition bind {A B} (m : M A) (k : A -> M B) : M B :=
  fun w =>
    match m w with
    | (Ok a, w') => k a w'
    | (Raise e, w') => (Raise e, w')
    end.

Definition lift {A} (r : result A) : M A := fun w => (r, w).

Notation "x <-- m ;; k" := (bind m (fun x => k))
  (at level 61, m at next level, right associativity) : py_scope.

(** [requests.post(...)], [raise_for_status()] and the indexing of the
    reply: the request is sent and the reply is in before anything else
    happens. *)
Definition post (net : network) (r : request) : M pystr :=
  fun w =>
    let rp := net (issued w) in
    let w' := {| issued := S (issued w);
                 events := events w ++ [EvRequest r; EvReply rp] |} in
    match rp with
    | Content out => (Ok out, w')
    | Failed => (Raise HTTPError, w')
    end.

Definition key_set (E : Env) : bool :=
  match OPENROUTER_API_KEY E with
  | Some (_ :: _) => true
  | _ => false
  end.

(** The [payload] of [call_openrouter]: temperature 0.0. *)
Definition openrouter_request (kind : prompt_kind) (fields : list pystr)
           (text : pystr) (max_tokens : Z) : request :=
  {| rq_kind := kind; rq_fields := fields; rq_text := text;
     rq_temperature := T00; rq_max_tokens := max_tokens |}.

Definition call_openrouter (E : Env) (net : network) (kind : prompt_kind)
           (fields : list pystr) (text : pystr) (max_tokens : Z) : M pystr :=
  if key_set E
  then post net (openrouter_request kind fields text max_tokens)
  else raise RuntimeError.

(** [block = extract_first_json_block(out)] followed by
    [json.loads(block if block else out)]. *)
Definition loads_block (E : Env) (out : pystr) : result pyval :=
  let block := extract_first_json_block out in
  match json_loads E (match block with [] => out | _ => block end) with
  | Some v => Ok v
  | None => Raise JSONDecodeError
  end.

(** ** Extraction modes *)

(** A [for] loop whose body may raise. *)
Fixpoint for_each {A S} (xs : list A) (body : S -> A -> result S) (s : S)
  : result S :=
  match xs with
  | [] => Ok s
  | x :: rest => s' <- body s x ;; for_each rest body s'
  end.

Definition k_mapping : pystr := lit "mapping".
Definition k_confidences : pystr := lit "confidences".
Definition k_status : pystr := lit "status".
Definition k_reasons : pystr := lit "reasons".
Definition k_field_values : pystr := lit "field_values".
Definition k_evidence : pystr := lit "evidence".
Definition k_votes : pystr := lit "votes".
Definition k_candidates : pystr := lit "candidates".

Definition llm_high_accuracy (E : Env) (net : network)
           (placeholders : list pystr) (pdf_text : pystr) : M pyval :=
  out <-- call_openrouter E net PHighAccuracy placeholders pdf_text 1500 ;;
  lift (parsed <- loads_block E out ;;
        mapping <- py_get_default parsed k_mapping (VDict []) ;;
        confidences <- py_get_default parsed k_confidences (VDict []) ;;
        mc <- for_each placeholders
                (fun '(mapping, confidences) ph =>
                   mapping' <- py_setdefault mapping ph VEmpty ;;
                   confidences' <- py_setdefault confidences ph
                                     (VFloat {| float_is_zero := true;
                                                float_text := lit "0.0" |}) ;;
                   Ok (mapping', confidences'))
                (mapping, confidences) ;;
        Ok (VDict [(k_mapping, fst mc); (k_confidences, snd mc)])).

(** [parsed.setdefault(outer, {}).setdefault(ph, dflt)]: the inner
    dictionary is the one stored in [parsed], so [parsed] sees the
    update. *)
Definition setdefault_in (parsed : pyval) (outer ph : pystr) (dflt : pyval)
  : result pyval :=
  d <- as_dict parsed ;;
  let d1 := dict_setdefault outer (VDict []) d in
  inner <- as_dict (dict_get_default outer (VDict []) d1) ;;
  Ok (VDict (dict_set outer (VDict (dict_setdefault ph dflt inner)) d1)).

Definition llm_strict_validation (E : Env) (net : network)
           (placeholders : list pystr) (pdf_text : pystr) : M pyval :=
  out <-- call_openrouter E net PStrictValidation placeholders pdf_text 1500 ;;
  lift (parsed <- loads_block E out ;;
        for_each placeholders
          (fun parsed ph =>
             p1 <- setdefault_in parsed k_mapping ph VEmpty ;;
             p2 <- setdefault_in p1 k_status ph (VStr (lit "MISSING")) ;;
             setdefault_in p2 k_reasons ph VEmpty)
          parsed).

Definition llm_field_audit (E : Env) (net : network)
           (placeholders : list pystr) (pdf_text : pystr) : M pyval :=
  out <-- call_openrouter E net PFieldAudit placeholders pdf_text 1500 ;;
  lift (parsed <- loads_block E out ;;
        for_each placeholders
          (fun parsed ph =>
             p1 <- setdefault_in parsed k_field_values ph VEmpty ;;
             setdefault_in p1 k_evidence ph VEmpty)
          parsed).

(** [[0.0, 0.2, 0.6][:rounds]] *)
Definition voting_temps (rounds : Z) : list temperature :=
  let all := [T00; T02; T06] in
  if (rounds <? 0)%Z then firstn (Z.to_nat (3 + rounds)) all
  else firstn (Z.to_nat rounds) all.

(** The candidate lists of the voting mode, one per placeholder. *)
Definition candidates_t := list (pystr * list pystr).

(** [candidates[ph].append(s)] *)
Definition cand_append (ph s : pystr) (c : candidates_t) : result candidates_t :=
  match dict_get ph c with
  | Some vals => Ok (dict_set ph (vals ++ [s]) c)
  | None => Raise KeyError
  end.

(** The inner loop of one voting round. *)
Definition collect_round (placeholders : list pystr) (parsed : pyval)
           (c : candidates_t) : result candidates_t :=
  for_each placeholders
    (fun c ph =>
       got <- py_get parsed ph ;;
       if truthy_opt got then
         v <- py_getitem parsed ph ;;
         s <- py_strip v ;;
         cand_append ph s c
       else Ok c)
    c.

(** The [payload] of one voting round. *)
Definition voting_request (placeholders : list pystr) (pdf_text : pystr)
           (t : temperature) : request :=
  {| rq_kind := PVoting; rq_fields := placeholders; rq_text := pdf_text;
     rq_temperature := t; rq_max_tokens := 1200 |}.

(** The loop over the temperatures: an unparsable reply skips to the next
    round, any other exception leaves the function. *)
Fixpoint voting_rounds (E : Env) (net : network) (temps : list temperature)
         (placeholders : list pystr) (pdf_text : pystr) (c : candidates_t)
  : M candidates_t :=
  match temps with
  | [] => ret c
  | t :: rest =>
      out <-- post net (voting_request placeholders pdf_text t) ;;
      match loads_block E out with
      | Raise _ => voting_rounds E net rest placeholders pdf_text c
      | Ok parsed =>
          c' <-- lift (collect_round placeholders parsed c) ;;
          voting_rounds E net rest placeholders pdf_text c'
      end
  end.

(** [collections.Counter(vals)]: the counts, in order of first
    occurrence. *)
Definition counter_add (s : pystr) (cnt : list (pystr * nat)) : list (pystr * nat) :=
  dict_set s (S (dict_get_default s 0 cnt)) cnt.

Definition counter (vals : list pystr) : list (pystr * nat) :=
  fold_left (fun cnt s => counter_add s cnt) vals [].

(** [max(items, key=count)]: the first item with the largest count. *)
Fixpoint max_count (best : pystr * nat) (items : list (pystr * nat))
  : pystr * nat :=
  match items with
  | [] => best
  | x :: rest => max_count (if snd best <? snd x then x else best) rest
  end.

(** [counter.most_common(1)[0][0]], for a non-empty counter; the empty
    string is never returned for a non-empty one. *)
Definition most_common1 (cnt : list (pystr * nat)) : pystr :=
  match cnt with
  | [] => []
  | x :: rest => fst (max_count x rest)
  end.

Definition winner (vals : list pystr) : pystr :=
  match vals with
  | [] => []
  | _ => most_common1 (counter vals)
  end.

Definition votes_of (vals : list pystr) : pyval :=
  match vals with
  | [] => VList []
  | _ => VDict (map (fun '(s, n) => (s, VInt (Z.of_nat n))) (counter vals))
  end.

Definition final_map_of (c : candidates_t) : dict :=
  map (fun '(ph, vals) => (ph, VStr (winner vals))) c.

Definition llm_voting_rounds (E : Env) (net : network)
           (placeholders : list pystr) (pdf_text : pystr) (rounds : Z)
  : M pyval :=
  let candidates := dict_comprehension (fun _ => @nil pystr) placeholders in
  c <-- voting_rounds E net (voting_temps rounds) placeholders pdf_text
          candidates ;;
  ret (VDict [(k_mapping, VDict (final_map_of c));
              (k_votes, VDict (map (fun '(ph, vals) => (ph, votes_of vals)) c));
              (k_candidates,
               VDict (map (fun '(ph, vals) => (ph, VList (map VStr vals))) c))]).

(** [llm_voting(placeholders, pdf_text)] with the default [rounds=3]. *)
Definition llm_voting (E : Env) (net : network)
           (placeholders : list pystr) (pdf_text : pystr) : M pyval :=
  llm_voting_rounds E net placeholders pdf_text 3.

(** ** Fallback heuristics *)

Definition set_if {A} (o : option A) (f : A -> dict -> dict) (d : dict) : dict :=
  match o with
  | Some a => f a d
  | None => d
  end.

Definition fallback_structured (E : Env) (pdf_text : pystr)
           (placeholders : list pystr) : dict :=
  let data := dict_comprehension (fun _ => VEmpty) placeholders in
  let data :=
    set_if (search_insured E pdf_text)
      (fun g2 => dict_set (lit "INSURED_NAME") (VStr (strip g2))) data in
  let data :=
    set_if (search_address E pdf_text)
      (fun '(g1, g2, g3, g4) d =>
         dict_set (lit "INSURED_H_ZIP") (VStr (strip g4))
           (dict_set (lit "INSURED_H_STATE") (VStr (strip g3))
              (dict_set (lit "INSURED_H_CITY") (VStr (strip g2))
                 (dict_set (lit "INSURED_H_STREET") (VStr (strip g1)) d))))
      data in
  let data :=
    set_if (search_date E pdf_text)
      (fun g1 => dict_set (lit "DATE_INSPECTED") (VStr g1)) data in
  let data :=
    set_if (search_mortgagee E pdf_text)
      (fun g2 => dict_set (lit "MORTGAGEE") (VStr (strip g2))) data in
  match dict_get (lit "DATE_RECEIVED") data with
  | Some _ => dict_set (lit "DATE_RECEIVED") (VStr (today E)) data
  | None => data
  end.

(** ** Documents *)

(** A piece of the inline content of a paragraph: a run, or a hyperlink
    or a picture taken as one piece.  [run_text] is what the piece adds to
    [p.text]; [run_look] stands for what it has beyond its text (character
    formatting, the target of a link, a drawing), [0] for a run with
    nothing of its own. *)
Record run := {
  run_look : nat;
  run_text : pystr
}.

Definition paragraph := list run.

(** The paragraph [p.text = txt] leaves: one run, without formatting of
    its own. *)
Definition plain (txt : pystr) : paragraph :=
  [{| run_look := 0; run_text := txt |}].

(** A paragraph is an index into the store of paragraphs. *)
Definition cell := list nat.
Definition row := list cell.
Definition table := list row.

Record section := {
  header_paragraphs : list nat;
  footer_paragraphs : list nat
}.

(** What python-docx lets the script see of a document: [doc.paragraphs],
    [doc.tables] with their rows and cells, and [doc.sections] with their
    header and footer.  A merged cell occurs once per grid column in
    [row.cells], with the same paragraphs. *)
Record document := {
  store : list paragraph;
  paragraphs : list nat;
  tables : list table;
  sections : list section
}.

(** The text of a paragraph: the texts of its pieces, in order. *)
Definition text_of (par : paragraph) : pystr := flat_map run_text par.

(** [p.text] *)
Definition para_text (doc : document) (p : nat) : pystr :=
  text_of (nth p (store doc) []).

Definition tab : ascii := ascii_of_nat 9.
Definition line_feed : ascii := ascii_of_nat 10.
Definition carriage_return : ascii := ascii_of_nat 13.

(** The characters the setter of [p.text] accepts: a tab, a line feed and
    a carriage return, which it stores as elements of their own, and the
    characters [lxml] takes into the text of an element, that is all but
    the other control characters below the blank; for those [lxml] raises
    [ValueError]. *)
Definition xml_char (c : ascii) : bool :=
  let n := nat_of_ascii c in
  (32 <=? n) || (n =? 9) || (n =? 10) || (n =? 13).

(** A character as [p.text] gives it back once stored: a line feed and a
    carriage return are both stored as a line break, which reads as a
    line feed. *)
Definition stored_char (c : ascii) : ascii :=
  if Ascii.eqb c carriage_return then line_feed else c.

Definition stored_text (txt : pystr) : pystr := map stored_char txt.

(** The store with the paragraph at [p] replaced by [par]. *)
Fixpoint write (p : nat) (par : paragraph) (st : list paragraph)
  : list paragraph :=
  match st, p with
  | [], _ => []
  | _ :: rest, O => par :: rest
  | t :: rest, S p' => t :: write p' par rest
  end.

(** [p.text = txt]: the content of the paragraph, whatever runs, links
    and pictures it had, is replaced by a single run that holds the
    text. *)
Definition set_text (p : nat) (txt : pystr) (st : list paragraph)
  : result (list paragraph) :=
  if forallb xml_char txt
  then Ok (write p (plain (stored_text txt)) st)
  else Raise ValueError.

(** The paragraphs of the cells of the tables, in the order of the nested
    loops over tables, rows and cells. *)
Definition table_paragraphs (doc : document) : list nat :=
  flat_map (fun t => flat_map (fun r => flat_map (fun c => c) r) t) (tables doc).

(** The header and footer paragraphs, section by section. *)
Definition section_paragraphs (doc : document) : list nat :=
  flat_map (fun s => header_paragraphs s ++ footer_paragraphs s) (sections doc).

(** ** [find_placeholders] *)

Definition lbracket : ascii := "["%char.
Definition rbracket : ascii := "]"%char.

(** The class [[A-Za-z0-9_]]. *)
Definition is_word_char (c : ascii) : bool :=
  let n := nat_of_ascii c in
  ((65 <=? n) && (n <=? 90)) || ((97 <=? n) && (n <=? 122))
  || ((48 <=? n) && (n <=? 57)) || (n =? 95).

(** The longest run of word characters at the head of [s], and the rest. *)
Fixpoint span_word (s : pystr) : pystr * pystr :=
  match s with
  | [] => ([], [])
  | c :: rest =>
      if is_word_char c
      then let (w, r) := span_word rest in (c :: w, r)
      else ([], s)
  end.

(** [PLACEHOLDER_RE.match(s)]: the group, when the pattern
    [\[([A-Za-z0-9_]+)\]] matches at the head of [s]. *)
Definition match_placeholder (s : pystr) : option pystr :=
  match s with
  | [] => None
  | c :: s1 =>
      if Ascii.eqb c lbracket then
        match span_word s1 with
        | ((_ :: _) as w, c' :: _) => if Ascii.eqb c' rbracket then Some w else None
        | _ => None
        end
      else None
  end.

(** [PLACEHOLDER_RE.findall(s)]: the matches from left to right, the search
    resuming after each match.  [skip] counts the characters of the last
    match still to be passed over. *)
Fixpoint findall_from (skip : nat) (s : pystr) : list pystr :=
  match s with
  | [] => []
  | _ :: rest =>
      match skip with
      | S k => findall_from k rest
      | O =>
          match match_placeholder s with
          | Some w => w :: findall_from (length w + 1) rest
          | None => findall_from 0 rest
          end
      end
  end.

Definition findall (s : pystr) : list pystr := findall_from 0 s.

(** [found.add(k)] on a set kept as a duplicate-free list. *)
Definition set_add (k : pystr) (found : list pystr) : list pystr :=
  if existsb (pystr_eqb k) found then found else found ++ [k].

(** The inner function [scan]. *)
Definition scan (doc : document) (ps : list nat) (found : list pystr)
  : list pystr :=
  fold_left
    (fun found p => fold_left (fun f k => set_add k f) (findall (para_text doc p)) found)
    ps found.

(** The accessors of a loaded document do not raise, so the [try] around
    the loop over the sections is embedded as its body. *)
Definition find_placeholders (doc : document) : list pystr :=
  let found := scan doc (paragraphs doc) [] in
  let found :=
    fold_left
      (fun found t =>
         fold_left
           (fun found r => fold_left (fun found c => scan doc c found) r found)
           t found)
      (tables doc) found in
  let found :=
    fold_left
      (fun found s =>
         scan doc (footer_paragraphs s) (scan doc (header_paragraphs s) found))
      (sections doc) found in
  sorted found.

(** ** [fill_docx] *)

(** [f"[{k}]"] *)
Definition token (k : pystr) : pystr := lbracket :: k ++ [rbracket].

(** The body of the loop of [repl] for one item of the mapping. *)
Definition repl_item (E : Env) (txt : pystr) (kv : pystr * pyval) : pystr :=
  let tok := token (fst kv) in
  if contains tok txt then py_replace tok (py_str E (snd kv)) txt else txt.

(** The text [repl] assigns to a paragraph whose text is [txt]. *)
Definition repl_text (E : Env) (mapping : dict) (txt : pystr) : pystr :=
  fold_left (repl_item E) mapping txt.

(** The inner function [repl], on the store. *)
Definition repl (E : Env) (mapping : dict) (st : list paragraph) (p : nat)
  : result (list paragraph) :=
  set_text p (repl_text E mapping (text_of (nth p st []))) st.

(** [doc.save] writes the document as the loops left it; the result
    stands for the bytes returned. *)
Definition fill_docx (E : Env) (template : document) (mapping : dict)
  : result document :=
  st <- for_each (paragraphs template) (repl E mapping) (store template) ;;
  st <- for_each (tables template)
          (fun st t =>
             for_each t
               (fun st r =>
                  for_each r (fun st c => for_each c (repl E mapping) st) st)
               st)
          st ;;
  Ok {| store := st;
        paragraphs := paragraphs template;
        tables := tables template;
        sections := sections template |}.

(** ** The extraction run *)

Inductive mode :=
| high_accuracy
| strict_validation
| field_audit
| multi_llm_voting.

(** The four branches on [mode]: the call and the indexing of its
    result. *)
Definition run_mode (E : Env) (net : network) (m : mode)
           (placeholders : list pystr) (combined_text : pystr) : M pyval :=
  match m with
  | high_accuracy =>
      result <-- llm_high_accuracy E net placeholders combined_text ;;
      lift (py_getitem result k_mapping)
  | strict_validation =>
      result <-- llm_strict_validation E net placeholders combined_text ;;
      lift (py_getitem result k_mapping)
  | field_audit =>
      result <-- llm_field_audit E net placeholders combined_text ;;
      lift (py_getitem result k_field_values)
  | multi_llm_voting =>
      result <-- llm_voting E net placeholders combined_text ;;
      lift (py_getitem result k_mapping)
  end.

(** "Fill blanks with fallback". *)
Definition fill_blanks (placeholders : list pystr) (fallback : dict)
           (mapping : pyval) : result pyval :=
  for_each placeholders
    (fun mapping ph =>
       got <- py_get mapping ph ;;
       if truthy_opt got then Ok mapping
       else py_setitem mapping ph (dict_get_default ph VEmpty fallback))
    mapping.

(** The keys of [mapping.items()] whose value is the empty string. *)
Definition still_empty_of (mapping : dict) : list pystr :=
  map fst (filter (fun kv => is_empty_str (snd kv)) mapping).

(** The loop over [nm_map.items()]: the mapping as the loop leaves it, and
    how the loop ended.  [mapping[k]] raises for a key the mapping does not
    have; the assignments made before that stay. *)
Fixpoint nm_update (items : dict) (mapping : dict) : dict * result unit :=
  match items with
  | [] => (mapping, Ok tt)
  | (k, v) :: rest =>
      match dict_get k mapping with
      | None => (mapping, Raise KeyError)
      | Some cur =>
          nm_update rest (if is_empty_str cur then dict_set k v mapping else mapping)
      end
  end.

(** The body of the [try]: the mapping when the body is left, and whether
    it was left by an exception. *)
Definition no_missing_body (E : Env) (net : network) (still_empty : list pystr)
           (combined_text : pystr) (mapping : dict)
  : world -> (dict * result unit) * world :=
  fun w =>
    match call_openrouter E net PNoMissing still_empty combined_text 800 w with
    | (Raise e, w') => ((mapping, Raise e), w')
    | (Ok nm_out, w') =>
        match loads_block E nm_out with
        | Raise e => ((mapping, Raise e), w')
        | Ok nm_map =>
            match py_items nm_map with
            | Raise e => ((mapping, Raise e), w')
            | Ok items => (nm_update items mapping, w')
            end
        end
    end.

(** [try: ... except: pass] *)
Definition no_missing_pass (E : Env) (net : network) (still_empty : list pystr)
           (combined_text : pystr) (mapping : dict) : M dict :=
  fun w =>
    let '((mapping', _), w') :=
      no_missing_body E net still_empty combined_text mapping w in
    (Ok mapping', w').

(** From "Fill blanks with fallback" to the end of the inference pass. *)
Definition merge_block (E : Env) (net : network) (placeholders : list pystr)
           (fallback : dict) (combined_text : pystr) (mapping : pyval)
  : M dict :=
  mapping1 <-- lift (fill_blanks placeholders fallback mapping) ;;
  items <-- lift (py_items mapping1) ;;
  match still_empty_of items with
  | [] => ret items
  | (_ :: _) as still_empty =>
      no_missing_pass E net still_empty combined_text items
  end.

(** The body of [if st.button("Run Extraction")]: the final mapping and
    the bytes handed to [st.download_button]. *)
Definition run_extraction (E : Env) (net : network) (m : mode)
           (template : document) (combined_text : pystr)
  : M (dict * document) :=
  let placeholders := find_placeholders template in
  let fallback := fallback_structured E combined_text placeholders in
  mapping <-- run_mode E net m placeholders combined_text ;;
  final <-- merge_block E net placeholders fallback combined_text mapping ;;
  out_bytes <-- lift (fill_docx E template final) ;;
  ret (final, out_bytes).

(** [combined_text]: the texts [extract_text_from_pdf_bytes] returned for
    the uploaded PDFs (the empty string when extraction raised), the blank
    ones dropped, joined by an empty line. *)
Definition combine_texts (pdf_texts : list pystr) : pystr :=
  join (lit (String "010" (String "010" EmptyString)))
       (filter (fun txt => match strip txt with [] => false | _ => true end)
               pdf_texts).

(** The script from top to bottom: [None] when it stops for want of a
    template or of PDFs, or when the button is not pressed. *)
Definition app (E : Env) (net : network) (m : mode)
           (uploaded_template : option document) (pdf_texts : list pystr)
           (button : bool) : option (result (dict * document) * world) :=
  match uploaded_template, pdf_texts with
  | None, _ => None
  | Some _, [] => None
  | Some template, _ :: _ =>
      if button
      then Some (run_extraction E net m template (combine_texts pdf_texts) world0)
      else None
  end.

(** ** A concrete environment

    To run the script on concrete replies, [json.loads] is given for a
    fragment of JSON: objects, arrays, strings without escapes, integers
    and the three literals.  On a text of the fragment it returns what
    Python returns; it is used on such texts only. *)

Definition dquote : ascii := ascii_of_nat 34.
Definition backslash : ascii := ascii_of_nat 92.

Definition is_json_ws (c : ascii) : bool :=
  let n := nat_of_ascii c in
  (n =? 32) || (n =? 9) || (n =? 10) || (n =? 13).

Fixpoint skip_ws (s : pystr) : pystr :=
  match s with
  | [] => []
  | c :: rest => if is_json_ws c then skip_ws rest else s
  end.

Definition is_digit (c : ascii) : bool :=
  let n := nat_of_ascii c in (48 <=? n) && (n <=? 57).

Fixpoint span_digits (s : pystr) : pystr * pystr :=
  match s with
  | [] => ([], [])
  | c :: rest =>
      if is_digit c
      then let (ds, r) := span_digits rest in (c :: ds, r)
      else ([], s)
  end.

Definition digits_value (ds : pystr) : Z :=
  fold_left (fun acc c => (10 * acc + Z.of_nat (nat_of_ascii c - 48))%Z) ds 0%Z.

(** The characters up to the closing quote; a backslash or a control
    character is outside the fragment. *)
Fixpoint take_string (s : pystr) : option (pystr * pystr) :=
  match s with
  | [] => None
  | c :: rest =>
      if Ascii.eqb c dquote then Some ([], rest)
      else if Ascii.eqb c backslash || (nat_of_ascii c <? 32) then None
      else match take_string rest with
           | Some (str, r) => Some (c :: str, r)
           | None => None
           end
  end.

(** An integer: an optional sign, then [0] or digits that do not start
    with [0]; a fraction or an exponent is outside the fragment. *)
Definition parse_int (s : pystr) : option (pyval * pystr) :=
  let (neg, s1) :=
    match s with
    | c :: r => if Ascii.eqb c "-"%char then (true, r) else (false, s)
    | [] => (false, s)
    end in
  match span_digits s1 with
  | ([], _) => None
  | (d :: ds, r) =>
      if Ascii.eqb d "0"%char && negb (match ds with [] => true | _ => false end)
      then None
      else
        match r with
        | c :: _ =>
            if Ascii.eqb c "."%char || Ascii.eqb c "e"%char || Ascii.eqb c "E"%char
            then None
            else Some (VInt (if neg then - digits_value (d :: ds)
                             else digits_value (d :: ds))%Z, r)
        | [] => Some (VInt (if neg then - digits_value (d :: ds)
                            else digits_value (d :: ds))%Z, r)
        end
  end.

Definition strip_prefix (p s : pystr) : option pystr :=
  if starts_with p s then Some (skipn (length p) s) else None.

Fixpoint parse_value (fuel : nat) (s : pystr) {struct fuel}
  : option (pyval * pystr) :=
  match fuel with
  | O => None
  | S fuel' =>
      match skip_ws s with
      | [] => None
      | c :: r =>
          if Ascii.eqb c lbrace then
            match skip_ws r with
            | c' :: r' =>
                if Ascii.eqb c' rbrace then Some (VDict [], r')
                else parse_members fuel' (c' :: r') []
            | [] => None
            end
          else if Ascii.eqb c lbracket then
            match skip_ws r with
            | c' :: r' =>
                if Ascii.eqb c' rbracket then Some (VList [], r')
                else parse_elements fuel' (c' :: r') []
            | [] => None
            end
          else if Ascii.eqb c dquote then
            match take_string r with
            | Some (str, r') => Some (VStr str, r')
            | None => None
            end
          else
            match strip_prefix (lit "true") (c :: r),
                  strip_prefix (lit "false") (c :: r),
                  strip_prefix (lit "null") (c :: r) with
            | Some r', _, _ => Some (VBool true, r')
            | _, Some r', _ => Some (VBool false, r')
            | _, _, Some r' => Some (VNone, r')
            | _, _, _ => parse_int (c :: r)
            end
      end
  end

with parse_members (fuel : nat) (s : pystr) (acc : dict) {struct fuel}
  : option (pyval * pystr) :=
  match fuel with
  | O => None
  | S fuel' =>
      match skip_ws s with
      | c :: r =>
          if Ascii.eqb c dquote then
            match take_string r with
            | Some (k, r1) =>
                match skip_ws r1 with
                | c1 :: r2 =>
                    if Ascii.eqb c1 ":"%char then
                      match parse_value fuel' r2 with
                      | Some (v, r3) =>
                          match skip_ws r3 with
                          | c3 :: r4 =>
                              if Ascii.eqb c3 ","%char
                              then parse_members fuel' r4 (dict_set k v acc)
                              else if Ascii.eqb c3 rbrace
                              then Some (VDict (dict_set k v acc), r4)
                              else None
                          | [] => None
                          end
                      | None => None
                      end
                    else None
                | [] => None
                end
            | None => None
            end
          else None
      | [] => None
      end
  end

with parse_elements (fuel : nat) (s : pystr) (acc : list pyval) {struct fuel}
  : option (pyval * pystr) :=
  match fuel with
  | O => None
  | S fuel' =>
      match parse_value fuel' s with
      | Some (v, r) =>
          match skip_ws r with
          | c :: r' =>
              if Ascii.eqb c ","%char
              then parse_elements fuel' r' (acc ++ [v])
              else if Ascii.eqb c rbracket
              then Some (VList (acc ++ [v]), r')
              else None
          | [] => None
          end
      | None => None
      end
  end.

Definition json_loads_fragment (s : pystr) : option pyval :=
  match parse_value (2 * length s + 2) s with
  | Some (v, r) => match skip_ws r with [] => Some v | _ => None end
  | None => None
  end.

(** [str] on the values that are not containers: a string is itself, an
    integer is written in decimal, a float as its text.  Lists and
    dictionaries are not rendered; no example fills a template with
    one. *)
Definition py_str_basic (v : pyval) : pystr :=
  match v with
  | VStr s => s
  | VInt z => list_ascii_of_string (NilZero.string_of_int (Z.to_int z))
  | VFloat f => float_text f
  | VBool true => lit "True"
  | VBool false => lit "False"
  | VNone => lit "None"
  | VList _ | VDict _ => []
  end.

(** An environment in which the fallback searches find nothing (as on a
    text that names no insured and no lender and has no digit) and the
    API key is set. *)
Definition env0 : Env := {|
  json_loads := json_loads_fragment;
  py_str := py_str_basic;
  search_insured := fun _ => None;
  search_address := fun _ => None;
  search_date := fun _ => None;
  search_mortgagee := fun _ => None;
  today := lit "11/04/2026";
  OPENROUTER_API_KEY := Some (lit "sk-test")
|}.

(** JSON text is written with [q] for the double quote. *)
Definition q (s : string) : pystr := dquote :: lit s ++ [dquote].

(** ** Vocabulary of the statements *)

(** A name: one or more characters of the class [[A-Za-z0-9_]]. *)
Definition is_name (k : pystr) : Prop :=
  k <> [] /\ forallb is_word_char k = true.

(** [tok] occurs in [s]. *)
Definition occurs (tok s : pystr) : Prop :=
  exists pre post, s = pre ++ tok ++ post.

(** The paragraphs [find_placeholders] scans. *)
Definition scanned_paragraphs (doc : document) : list nat :=
  paragraphs doc ++ table_paragraphs doc ++ section_paragraphs doc.

(** The paragraphs [fill_docx] passes to [repl], in order; a paragraph
    occurs as often as it is passed. *)
Definition filled_paragraphs (doc : document) : list nat :=
  paragraphs doc ++ table_paragraphs doc.

(** The text [p.text] gives after [repl] has run on a paragraph whose text
    was [txt]. *)
Definition written (E : Env) (mapping : dict) (txt : pystr) : pystr :=
  stored_text (repl_text E mapping txt).

(** [pre ++ tok ++ rest] has its first occurrence of [tok] right after
    [pre]. *)
Definition leftmost (tok pre rest : pystr) : Prop :=
  forall pre' post', pre ++ tok ++ rest = pre' ++ tok ++ post' ->
                     length pre <= length pre'.

(** [s'] is [s] with every occurrence of [tok] replaced by [new], the
    occurrences being taken from left to right. *)
Inductive replaced (tok new : pystr) : pystr -> pystr -> Prop :=
| replaced_none s :
    ~ occurs tok s -> replaced tok new s s
| replaced_occ pre rest rest' :
    leftmost tok pre rest ->
    replaced tok new rest rest' ->
    replaced tok new (pre ++ tok ++ rest) (pre ++ new ++ rest').

(** [s'] is [s] after the tokens of the keys of [mapping] have been
    replaced by their values, key after key in the order of the
    mapping. *)
Inductive filled (E : Env) : dict -> pystr -> pystr -> Prop :=
| filled_nil s : filled E [] s s
| filled_cons k v mapping s s1 s2 :
    replaced (token k) (py_str E v) s s1 ->
    filled E mapping s1 s2 ->
    filled E ((k, v) :: mapping) s s2.

(** The ways the body of the [try] can be left before its loop starts. *)
Definition fails_before_loop (E : Env) (net : network) (still_empty : list pystr)
           (combined_text : pystr) (w : world) : Prop :=
  match call_openrouter E net PNoMissing still_empty combined_text 800 w with
  | (Raise _, _) => True
  | (Ok nm_out, _) =>
      match loads_block E nm_out with
      | Raise _ => True
      | Ok nm_map =>
          match py_items nm_map with
          | Raise _ => True
          | Ok _ => False
          end
      end
  end.

(** The events of sending [reqs] one after the other, the first being
    request number [start] of the run: each request is followed by its
    reply before the next request appears. *)
Fixpoint exchanges (net : network) (start : nat) (reqs : list request)
  : list event :=
  match reqs with
  | [] => []
  | r :: rest => EvRequest r :: EvReply (net start) :: exchanges net (S start) rest
  end.

(** Every value of the dictionary is a string. *)
Definition all_strings (d : dict) : Prop :=
  Forall (fun kv => is_str (snd kv) = true) d.

(** Between [w] and [w'] exactly the requests [reqs] were sent, one after
    the other. *)
Definition sends (net : network) (w w' : world) (reqs : list request) : Prop :=
  events w' = events w ++ exchanges net (issued w) reqs /\
  issued w' = issued w + length reqs.

(** [parsed] is a dictionary whose value under [outer] is a dictionary
    with an entry for [ph]. *)
Definition has_entry (outer : pystr) (parsed : pyval) (ph : pystr) : Prop :=
  exists d inner,
    parsed = VDict d /\ dict_get outer d = Some (VDict inner) /\
    dict_get ph inner <> None.

(** ** Concrete runs *)

(** A PDF text in which none of the four fallback searches matches. *)
Definition text_no_data : pystr := lit "No data.".

(** A template whose only paragraph is [Claim: [CLAIM_NUMBER]]. *)
Definition doc_claim : document := {|
  store := [plain (lit "Claim: [CLAIM_NUMBER]")];
  paragraphs := [0];
  tables := [];
  sections := []
|}.

(** The model answers the extraction request with [{}] and the request of
    the inference pass fails. *)
Definition net_empty_then_failed : network :=
  fun n => match n with
           | 0 => Content (lit "{}")
           | _ => Failed
           end.

(** A template with the placeholders [A] and [B]. *)
Definition doc_ab : document := {|
  store := [plain (lit "[A] and [B]")];
  paragraphs := [0];
  tables := [];
  sections := []
|}.

(** [{"A": "x", "C": "y", "B": "z"}] *)
Definition reply_axcybz : pystr :=
  lit "{" ++ q "A" ++ lit ": " ++ q "x" ++ lit ", " ++ q "C" ++ lit ": " ++ q "y"
      ++ lit ", " ++ q "B" ++ lit ": " ++ q "z" ++ lit "}".

(** The inference pass is answered with an object that names a key the
    mapping does not have. *)
Definition net_unknown_key : network := fun _ => Content reply_axcybz.

(** [{"A": "x"}] *)
Definition reply_ax : pystr := lit "{" ++ q "A" ++ lit ": " ++ q "x" ++ lit "}".

(** Every request is answered with [{"A": "x"}]. *)
Definition net_ax : network := fun _ => Content reply_ax.

(** A template whose only paragraph is [ZIP: [ZIP]]. *)
Definition doc_zip : document := {|
  store := [plain (lit "ZIP: [ZIP]")];
  paragraphs := [0];
  tables := [];
  sections := []
|}.

(** [{"mapping": {"ZIP": 12345}}] *)
Definition reply_mapping_zip : pystr :=
  lit "{" ++ q "mapping" ++ lit ": {" ++ q "ZIP" ++ lit ": 12345}}".

(** [{"ZIP": 12345}] *)
Definition reply_zip : pystr := lit "{" ++ q "ZIP" ++ lit ": 12345}".

(** [{"ZIP": "12345"}] *)
Definition reply_zip_str : pystr :=
  lit "{" ++ q "ZIP" ++ lit ": " ++ q "12345" ++ lit "}".

Definition net_mapping_zip : network := fun _ => Content reply_mapping_zip.

(** The extraction request is answered with [{}], the inference pass with
    [{"ZIP": 12345}]. *)
Definition net_empty_then_zip : network :=
  fun n => match n with
           | 0 => Content (lit "{}")
           | _ => Content reply_zip
           end.

Definition net_zip_str : network := fun _ => Content reply_zip_str.

(** A template with a body paragraph of two runs, the first one
    formatted, a table of one row whose merged cell is listed twice, and a
    section with a formatted header and a footer. *)
Definition doc_header : document := {|
  store := [[{| run_look := 1; run_text := lit "Insured: " |};
             {| run_look := 0; run_text := lit "[NAME]" |}];
            [{| run_look := 2; run_text := lit "Page header [NAME] [REF]" |}];
            plain (lit "Footer"); plain (lit "Cell [NAME]")];
  paragraphs := [0];
  tables := [[[[3]; [3]]]];
  sections := [{| header_paragraphs := [1]; footer_paragraphs := [2] |}]
|}.

Definition mapping_name_ref : dict :=
  [(lit "NAME", VStr (lit "Ada")); (lit "REF", VStr (lit "R-1"))].

(** [{"mapping": {"NAME": "Ada", "REF": "R-1"}}] *)
Definition reply_name_ref : pystr :=
  lit "{" ++ q "mapping" ++ lit ": {" ++ q "NAME" ++ lit ": " ++ q "Ada"
      ++ lit ", " ++ q "REF" ++ lit ": " ++ q "R-1" ++ lit "}}".

Definition net_name_ref : network := fun _ => Content reply_name_ref.

(** [doc_header] filled with [mapping_name_ref]: the body paragraph and
    the cell are single runs, the header has its formatted run. *)
Definition doc_header_filled : document := {|
  store := [plain (lit "Insured: Ada");
            [{| run_look := 2; run_text := lit "Page header [NAME] [REF]" |}];
            plain (lit "Footer"); plain (lit "Cell Ada")];
  paragraphs := [0];
  tables := [[[[3]; [3]]]];
  sections := [{| header_paragraphs := [1]; footer_paragraphs := [2] |}]
|}.

(** ** Vocabulary and runs of the further properties *)

(** A text [txt.strip()] leaves nothing of. *)
Definition blank (txt : pystr) : Prop := strip txt = [].

(** [m] after [m.setdefault] has given the empty string to every
    placeholder it lacks. *)
Definition with_defaults (placeholders : list pystr) (m : dict) : dict :=
  fold_left (fun m ph => dict_setdefault ph VEmpty m) placeholders m.

(** The keys [fallback_structured] assigns from a regex match. *)
Definition regex_keys : list pystr :=
  [lit "INSURED_NAME"; lit "INSURED_H_STREET"; lit "INSURED_H_CITY";
   lit "INSURED_H_STATE"; lit "INSURED_H_ZIP"; lit "DATE_INSPECTED";
   lit "MORTGAGEE"].

Definition k_date_received : pystr := lit "DATE_RECEIVED".

(** The environment [env0] without an API key. *)
Definition env_no_key : Env := {|
  json_loads := json_loads_fragment;
  py_str := py_str_basic;
  search_insured := fun _ => None;
  search_address := fun _ => None;
  search_date := fun _ => None;
  search_mortgagee := fun _ => None;
  today := lit "11/04/2026";
  OPENROUTER_API_KEY := None
|}.

(** A template with a paragraph that holds no token. *)
Definition doc_plain : document := {|
  store := [plain (lit "No tokens here"); plain (lit "Total: [AMOUNT]")];
  paragraphs := [0; 1];
  tables := [];
  sections := []
|}.

Definition mapping_amount : dict := [(lit "AMOUNT", VStr (lit "5"))].

(** The template [doc_ab] with its placeholders in the other order. *)
Definition doc_ba : document := {|
  store := [plain (lit "[B] then [A]")];
  paragraphs := [0];
  tables := [];
  sections := []
|}.

(** [{"A": 7}] *)
Definition reply_a7 : pystr := lit "{" ++ q "A" ++ lit ": 7}".

Definition net_a7 : network := fun _ => Content reply_a7.

(** Every request is answered with a text that is not JSON. *)
Definition net_prose : network := fun _ => Content (lit "I cannot help.").

(** [{"A": "x", "B": "z"}] *)
Definition reply_axbz : pystr :=
  lit "{" ++ q "A" ++ lit ": " ++ q "x" ++ lit ", " ++ q "B" ++ lit ": "
      ++ q "z" ++ lit "}".

Definition net_axbz : network := fun _ => Content reply_axbz.

(** Every key of [items] is a key of [mapping]. *)
Definition known_keys (items mapping : dict) : bool :=
  forallb (fun k => existsb (pystr_eqb k) (dict_keys mapping)) (dict_keys items).

(** [k in ks], decided. *)
Definition pystr_in_dec (k : pystr) (ks : list pystr)
  : {In k ks} + {~ In k ks} :=
  in_dec (list_eq_dec ascii_dec) k ks.

Arguments pystr_in_dec : simpl never.

(** What the four regex assignments keep of the dictionary they start
    from. *)
Definition fallback_inv (placeholders : list pystr) (d0 d : dict) : Prop :=
  all_strings d /\
  (forall k, In k (dict_keys d) -> In k placeholders \/ In k regex_keys) /\
  (forall k, ~ In k regex_keys -> dict_get k d = dict_get k d0) /\
  (forall k, dict_get k d0 <> None -> dict_get k d <> None).

(** Equality of strings, decided. *)
Definition pystr_eq_dec : forall a b : pystr, {a = b} + {a <> b} :=
  list_eq_dec ascii_dec.

(** How often [s] occurs in [vals]. *)
Definition occurrences (vals : list pystr) (s : pystr) : nat :=
  count_occ pystr_eq_dec vals s.

(** Every candidate collected so far is a stripped string. *)
Definition all_stripped (c : candidates_t) : Prop :=
  Forall (fun kv => Forall (fun s => strip s = s) (snd kv)) c.




(** The text as C5 words it: in one pass from left to right every
    occurrence of the token of a key of the mapping gives way to the
    value of the key as a string; what has been put in is not looked at
    again. *)
Fixpoint claimed_from (E : Env) (mapping : dict) (skip : nat) (s : pystr)
  : pystr :=
  match s with
  | [] => []
  | c :: rest =>
      match skip with
      | S k => claimed_from E mapping k rest
      | O =>
          match find (fun kv => starts_with (token (fst kv)) s) mapping with
          | Some (k, v) => py_str E v ++ claimed_from E mapping (length k + 1) rest
          | None => c :: claimed_from E mapping 0 rest
          end
      end
  end.

Definition claimed_text (E : Env) (mapping : dict) (txt : pystr) : pystr :=
  claimed_from E mapping 0 txt.

(** A template with the body paragraph [[A]] and a merged cell, listed
    twice, that holds [Cell [C]]. *)
Definition doc_nested : document := {|
  store := [plain (lit "[A]"); plain (lit "Cell [C]")];
  paragraphs := [0];
  tables := [[[[1]; [1]]]];
  sections := []
|}.

(** The value of [A] is the token of [B], the value of [C] holds the
    token of [C]. *)
Definition mapping_nested : dict :=
  [(lit "A", VStr (lit "[B]")); (lit "B", VStr (lit "z"));
   (lit "C", VStr (lit "x[C]"))].

(** [{"mapping": {"A": "[B]", "B": "z", "C": "x[C]"}}] *)
Definition reply_nested : pystr :=
  lit "{" ++ q "mapping" ++ lit ": {" ++ q "A" ++ lit ": " ++ q "[B]"
      ++ lit ", " ++ q "B" ++ lit ": " ++ q "z" ++ lit ", " ++ q "C"
      ++ lit ": " ++ q "x[C]" ++ lit "}}".

Definition net_nested : network := fun _ => Content reply_nested.

Definition doc_nested_filled : document := {|
  store := [plain (lit "z"); plain (lit "Cell xx[C]")];
  paragraphs := [0];
  tables := [[[[1]; [1]]]];
  sections := []
|}.


(** A value whose string holds the control character [U+0001]. *)
Definition mapping_control : dict :=
  [(lit "CLAIM_NUMBER", VStr [ascii_of_nat 1])].

(** * Properties *)

Unset Implicit Arguments.

(** ** Strings and dictionaries *)

Lemma pystr_eqb_eq (a b : pystr) : pystr_eqb a b = true <-> a = b.
Proof.
  unfold pystr_eqb. destruct (list_eq_dec ascii_dec a b); split; congruence.
Qed.

Lemma pystr_eqb_refl (a : pystr) : pystr_eqb a a = true.
Proof. now apply pystr_eqb_eq. Qed.

Lemma pystr_eqb_neq (a b : pystr) : pystr_eqb a b = false <-> a <> b.
Proof.
  unfold pystr_eqb. destruct (list_eq_dec ascii_dec a b); split; congruence.
Qed.

Lemma pystr_eqb_sym (a b : pystr) : pystr_eqb a b = pystr_eqb b a.
Proof.
  destruct (pystr_eqb b a) eqn:H.
  - apply pystr_eqb_eq in H. subst. apply pystr_eqb_refl.
  - apply pystr_eqb_neq in H. apply pystr_eqb_neq. congruence.
Qed.

Ltac case_key k1 k2 :=
  let H := fresh "Hk" in
  destruct (pystr_eqb k1 k2) eqn:H;
  [apply pystr_eqb_eq in H | apply pystr_eqb_neq in H].

(** ** [extract_first_json_block] *)

Lemma find_char_none c s : find_char c s = None -> ~ In c s.
Proof.
  induction s as [|x s IH]; simpl; [tauto|].
  destruct (Ascii.eqb x c) eqn:Hx; [discriminate|].
  destruct (find_char c s); [discriminate|].
  intros _ [->|H]; [|now apply IH].
  now rewrite Ascii.eqb_refl in Hx.
Qed.

Lemma find_char_some c s n :
  find_char c s = Some n ->
  exists pre suf, s = pre ++ c :: suf /\ ~ In c pre /\ length pre = n.
Proof.
  revert n. induction s as [|x s IH]; simpl; intros n H; [discriminate|].
  destruct (Ascii.eqb x c) eqn:Hx.
  - apply Ascii.eqb_eq in Hx. subst x. injection H as <-.
    exists [], s. simpl. tauto.
  - destruct (find_char c s) as [i|] eqn:Hf; [|discriminate].
    injection H as <-.
    destruct (IH i eq_refl) as (pre & suf & -> & Hn & Hl).
    exists (x :: pre), suf. simpl. repeat split; [|congruence].
    intros [->|Hin]; [|tauto].
    now rewrite Ascii.eqb_refl in Hx.
Qed.

Lemma firstn_app_le {A} (a b : list A) n :
  n <= length a -> firstn n (a ++ b) = firstn n a.
Proof.
  intros H. rewrite firstn_app. replace (n - length a) with 0 by lia.
  simpl. apply app_nil_r.
Qed.

Lemma depth_app a b : depth (a ++ b) = (depth a + depth b)%Z.
Proof. induction a as [|c a IH]; simpl; [reflexivity|]. rewrite IH. lia. Qed.

Lemma slice_app pre done c rest :
  slice (pre ++ done ++ c :: rest) (length pre) (S (length pre + length done))
  = done ++ [c].
Proof.
  unfold slice. rewrite skipn_app, skipn_all, Nat.sub_diag, skipn_O, app_nil_l.
  replace (S (length pre + length done) - length pre) with (length (done ++ [c]))
    by (rewrite length_app; cbn [length]; lia).
  change (c :: rest) with ([c] ++ rest). rewrite app_assoc.
  rewrite firstn_app, firstn_all, Nat.sub_diag. simpl. now rewrite app_nil_r.
Qed.

Lemma open_upto_snoc body k :
  open_upto body k -> (0 < depth (firstn (S k) body))%Z -> open_upto body (S k).
Proof.
  intros H Hk n Hn. destruct (Nat.eq_dec n (S k)) as [->|]; [assumption|].
  apply H. lia.
Qed.

Lemma depth_done_nonneg body k :
  open_upto body k -> (0 <= depth (firstn k body))%Z.
Proof.
  intros H. destruct k; [simpl; lia|].
  specialize (H (S k)). lia.
Qed.

(** The loop of [extract_first_json_block], entered with [done] already
    passed over. *)
Lemma scan_braces_spec pre rest : forall done,
  hd_error (done ++ rest) = Some lbrace ->
  open_upto (done ++ rest) (length done) ->
  let body := done ++ rest in
  let out := scan_braces (pre ++ body) (length pre) (depth done)
               (length pre + length done) rest in
  (exists blk post, body = blk ++ post /\ balanced_block blk /\ out = blk) \/
  (open_upto body (length body) /\ out = []).
Proof.
  induction rest as [|c rest IH]; intros done Hhd Hopen; cbn zeta.
  - right. simpl. rewrite app_nil_r in *. split; [assumption|reflexivity].
  - assert (Hsplit : done ++ c :: rest = (done ++ [c]) ++ rest)
      by now rewrite <- app_assoc.
    assert (Hfirst : firstn (S (length done)) (done ++ c :: rest) = done ++ [c]).
    { rewrite Hsplit.
      replace (S (length done)) with (length (done ++ [c]))
        by (rewrite length_app; cbn [length]; lia).
      rewrite firstn_app, firstn_all, Nat.sub_diag. simpl. now rewrite app_nil_r. }
    assert (Hd0 : (0 <= depth done)%Z).
    { pose proof (depth_done_nonneg _ _ Hopen) as H.
      rewrite firstn_app, firstn_all, Nat.sub_diag in H. simpl in H.
      now rewrite app_nil_r in H. }
    assert (Hdone : done <> [] -> (0 < depth done)%Z).
    { intros Hne. specialize (Hopen (length done)).
      rewrite firstn_app, firstn_all, Nat.sub_diag in Hopen. simpl in Hopen.
      rewrite app_nil_r in Hopen. apply Hopen.
      destruct done; [congruence|simpl; lia]. }
    assert (Hlen : length (done ++ [c]) = S (length done))
      by (rewrite length_app; cbn [length]; lia).
    assert (Hnext : forall b, b = depth (done ++ [c]) -> (0 < b)%Z ->
              let out := scan_braces (pre ++ done ++ c :: rest) (length pre) b
                           (S (length pre + length done)) rest in
              (exists blk post, done ++ c :: rest = blk ++ post /\
                                balanced_block blk /\ out = blk) \/
              (open_upto (done ++ c :: rest) (length (done ++ c :: rest)) /\
               out = [])).
    { intros b -> Hb. cbn zeta.
      specialize (IH (done ++ [c])). rewrite <- Hsplit in IH.
      rewrite Hlen in IH.
      replace (length pre + S (length done)) with (S (length pre + length done))
        in IH by lia.
      apply IH; [assumption|].
      apply open_upto_snoc; [assumption|]. now rewrite Hfirst. }
    simpl scan_braces.
    destruct (Ascii.eqb c lbrace) eqn:Hl.
    + apply Hnext.
      * rewrite depth_app. simpl. rewrite Hl. lia.
      * lia.
    + destruct (Ascii.eqb c rbrace) eqn:Hr.
      * assert (Hne : done <> []).
        { intros ->. simpl in Hhd. injection Hhd as ->. discriminate. }
        specialize (Hdone Hne).
        destruct (depth done - 1 =? 0)%Z eqn:Hz.
        -- left. exists (done ++ [c]), rest. split; [assumption|].
           split; [|apply slice_app].
           apply Z.eqb_eq in Hz. apply Ascii.eqb_eq in Hr. subst c.
           repeat split.
           ++ destruct done; [congruence|]. exact Hhd.
           ++ apply last_last.
           ++ rewrite depth_app. simpl. lia.
           ++ rewrite Hlen. simpl. rewrite Nat.sub_0_r.
              intros n Hn. specialize (Hopen n Hn).
              rewrite firstn_app_le in Hopen |- * by lia. exact Hopen.
        -- apply Z.eqb_neq in Hz. apply Hnext.
           ++ rewrite depth_app. simpl. rewrite Hl, Hr. lia.
           ++ lia.
      * assert (Hne : done <> []).
        { intros ->. simpl in Hhd. injection Hhd as ->. discriminate. }
        specialize (Hdone Hne).
        apply Hnext.
        -- rewrite depth_app. simpl. rewrite Hl, Hr. lia.
        -- lia.
Qed.

(** C9. For every input string, [extract_first_json_block] returns the
    empty string when the input has no opening brace; otherwise it looks
    at the text from the first opening brace on and returns the block that
    ends at the brace balancing it (nested braces counted), or the empty
    string when the count never returns to zero before the end. *)
Theorem extract_first_json_block_spec (text : pystr) :
  (~ In lbrace text /\ extract_first_json_block text = []) \/
  (exists pre blk post,
      text = pre ++ blk ++ post /\ ~ In lbrace pre /\ balanced_block blk /\
      extract_first_json_block text = blk) \/
  (exists pre suf,
      text = pre ++ suf /\ ~ In lbrace pre /\ hd_error suf = Some lbrace /\
      open_upto suf (length suf) /\
      extract_first_json_block text = []).
Proof.
  unfold extract_first_json_block.
  destruct (find_char lbrace text) as [start|] eqn:Hf.
  - right.
    destruct (find_char_some _ _ _ Hf) as (pre & suf & -> & Hpre & Hlen).
    subst start.
    rewrite skipn_app, skipn_all, Nat.sub_diag. simpl skipn.
    pose proof (@scan_braces_spec pre (lbrace :: suf) [] eq_refl) as H.
    simpl in H. rewrite Nat.add_0_r in H.
    destruct H as [(blk & post & Hb & Hbal & Hout)|[Hopen Hout]].
    + intros n Hn. lia.
    + left. exists pre, blk, post. rewrite <- Hb. auto.
    + right. exists pre, (lbrace :: suf). auto.
  - left. split; [now apply find_char_none|reflexivity].
Qed.

(** ** [sorted] *)

Lemma pystr_leb_total a : forall b, pystr_leb a b = false -> pystr_leb b a = true.
Proof.
  induction a as [|x a IH]; intros [|y b]; simpl; try congruence.
  destruct (nat_of_ascii x <? nat_of_ascii y) eqn:H1; [discriminate|].
  destruct (nat_of_ascii y <? nat_of_ascii x) eqn:H2; [reflexivity|].
  apply IH.
Qed.

Lemma pystr_leb_refl a : pystr_leb a a = true.
Proof.
  induction a as [|x a IH]; simpl; [reflexivity|].
  now rewrite Nat.ltb_irrefl.
Qed.

Lemma pystr_leb_trans a : forall b c,
  pystr_leb a b = true -> pystr_leb b c = true -> pystr_leb a c = true.
Proof.
  induction a as [|x a IH]; intros [|y b] [|z c]; simpl; try congruence.
  destruct (nat_of_ascii x <? nat_of_ascii y) eqn:Hxy;
  destruct (nat_of_ascii y <? nat_of_ascii x) eqn:Hyx;
  destruct (nat_of_ascii y <? nat_of_ascii z) eqn:Hyz;
  destruct (nat_of_ascii z <? nat_of_ascii y) eqn:Hzy;
  destruct (nat_of_ascii x <? nat_of_ascii z) eqn:Hxz;
  destruct (nat_of_ascii z <? nat_of_ascii x) eqn:Hzx;
  try congruence;
  repeat match goal with
         | H : (_ <? _) = true |- _ => apply Nat.ltb_lt in H
         | H : (_ <? _) = false |- _ => apply Nat.ltb_ge in H
         end; try lia.
  apply IH.
Qed.

Lemma pystr_leb_antisym a : forall b,
  pystr_leb a b = true -> pystr_leb b a = true -> a = b.
Proof.
  induction a as [|x a IH]; intros [|y b]; simpl; try congruence.
  destruct (nat_of_ascii x <? nat_of_ascii y) eqn:Hxy;
  destruct (nat_of_ascii y <? nat_of_ascii x) eqn:Hyx; try congruence.
  - apply Nat.ltb_lt in Hxy, Hyx. lia.
  - intros H1 H2. apply Nat.ltb_ge in Hxy, Hyx.
    assert (nat_of_ascii x = nat_of_ascii y) as Hc by lia.
    apply (f_equal ascii_of_nat) in Hc. rewrite !ascii_nat_embedding in Hc.
    subst y. f_equal. now apply IH.
Qed.

Lemma insert_sorted_perm x l : Permutation (insert_sorted x l) (x :: l).
Proof.
  induction l as [|y l IH]; simpl; [reflexivity|].
  destruct (pystr_leb x y); [reflexivity|].
  rewrite IH. apply perm_swap.
Qed.

Lemma sorted_perm l : Permutation (sorted l) l.
Proof.
  induction l as [|x l IH]; simpl; [reflexivity|].
  rewrite insert_sorted_perm. now constructor.
Qed.

Lemma insert_sorted_strongly x l :
  StronglySorted pystr_le l -> StronglySorted pystr_le (insert_sorted x l).
Proof.
  induction 1 as [|y l Hs IH Hall]; simpl.
  - repeat constructor.
  - destruct (pystr_leb x y) eqn:Hxy.
    + constructor; [now constructor|].
      constructor; [exact Hxy|].
      eapply Forall_impl; [|exact Hall].
      intros z Hz. eapply pystr_leb_trans; eassumption.
    + constructor; [assumption|].
      apply pystr_leb_total in Hxy.
      eapply Permutation_Forall; [symmetry; apply insert_sorted_perm|].
      now constructor.
Qed.

Lemma sorted_strongly l : StronglySorted pystr_le (sorted l).
Proof.
  induction l as [|x l IH]; simpl; [constructor|].
  now apply insert_sorted_strongly.
Qed.

Lemma sorted_in k l : In k (sorted l) <-> In k l.
Proof.
  split; apply Permutation_in; [|symmetry]; apply sorted_perm.
Qed.

Lemma sorted_nodup l : NoDup l -> NoDup (sorted l).
Proof.
  intros H. eapply Permutation_NoDup; [symmetry; apply sorted_perm|assumption].
Qed.

(** ** [PLACEHOLDER_RE.findall] *)

Lemma span_word_spec s w r :
  span_word s = (w, r) ->
  s = w ++ r /\ forallb is_word_char w = true /\
  match r with [] => True | c :: _ => is_word_char c = false end.
Proof.
  revert w r. induction s as [|c s IH]; simpl; intros w r H.
  - injection H as <- <-. auto.
  - destruct (is_word_char c) eqn:Hc.
    + destruct (span_word s) as [w' r'] eqn:Hs. injection H as <- <-.
      destruct (IH _ _ eq_refl) as (-> & Hw & Hr).
      simpl. rewrite Hc. auto.
    + injection H as <- <-. simpl. auto.
Qed.

Lemma span_word_app k c post :
  forallb is_word_char k = true -> is_word_char c = false ->
  span_word (k ++ c :: post) = (k, c :: post).
Proof.
  induction k as [|x k IH]; simpl; intros Hk Hc.
  - now rewrite Hc.
  - apply andb_prop in Hk as [Hx Hk]. rewrite Hx, IH; auto.
Qed.

Lemma match_placeholder_some s w :
  match_placeholder s = Some w ->
  is_name w /\ exists r, s = token w ++ r.
Proof.
  unfold match_placeholder. destruct s as [|c s1]; [discriminate|].
  destruct (Ascii.eqb c lbracket) eqn:Hc; [|discriminate].
  apply Ascii.eqb_eq in Hc. subst c.
  destruct (span_word s1) as [w' r] eqn:Hs.
  destruct w' as [|x w']; [discriminate|].
  destruct r as [|c' r]; [discriminate|].
  destruct (Ascii.eqb c' rbracket) eqn:Hc'; [|discriminate].
  apply Ascii.eqb_eq in Hc'. subst c'.
  intros H. injection H as <-.
  destruct (span_word_spec _ _ _ Hs) as (-> & Hw & _).
  split; [split; [discriminate|assumption]|].
  exists r. unfold token. simpl. now rewrite <- app_assoc.
Qed.

Lemma match_placeholder_token k post :
  is_name k -> match_placeholder (token k ++ post) = Some k.
Proof.
  intros [Hne Hk]. unfold match_placeholder, token. simpl.
  rewrite <- app_assoc. simpl.
  rewrite span_word_app by (assumption || reflexivity).
  destruct k; [congruence|]. reflexivity.
Qed.

Lemma findall_from_skip k : forall s,
  findall_from k s = findall_from 0 (skipn k s).
Proof.
  induction k as [|k IH]; intros [|c s]; simpl; try reflexivity.
  rewrite IH. now destruct (skipn k s).
Qed.

Lemma findall_match s w r :
  match_placeholder s = Some w -> s = token w ++ r ->
  findall s = w :: findall r.
Proof.
  intros Hm ->. unfold findall. unfold token in *. simpl in *.
  change (match_placeholder (lbracket :: (w ++ [rbracket]) ++ r))
    with (match_placeholder (token w ++ r)).
  change (lbracket :: (w ++ [rbracket]) ++ r) with (token w ++ r) in Hm.
  rewrite Hm. f_equal. rewrite findall_from_skip. f_equal.
  rewrite skipn_app.
  replace (length w + 1) with (length (w ++ [rbracket]))
    by (rewrite length_app; simpl; lia).
  now rewrite skipn_all, Nat.sub_diag.
Qed.

Lemma findall_nomatch c s :
  match_placeholder (c :: s) = None -> findall (c :: s) = findall s.
Proof. intros H. unfold findall. cbn [findall_from]. now rewrite H. Qed.

Lemma word_char_not_bracket c :
  is_word_char c = true -> c <> lbracket /\ c <> rbracket.
Proof. intros H. split; intros ->; discriminate. Qed.

Lemma name_eq_of_app k w post r :
  forallb is_word_char k = true -> forallb is_word_char w = true ->
  k ++ rbracket :: post = w ++ rbracket :: r -> k = w.
Proof.
  revert w. induction k as [|x k IH]; intros [|y w] Hk Hw H; simpl in *.
  - reflexivity.
  - injection H as <- _. apply andb_prop in Hw as [Hy _]. discriminate.
  - injection H as -> _. apply andb_prop in Hk as [Hx _]. discriminate.
  - injection H as <- H. apply andb_prop in Hk as [_ Hk].
    apply andb_prop in Hw as [_ Hw]. f_equal. eauto.
Qed.

(** An occurrence of a token that starts after the first character of a
    matched token starts after the whole of it. *)
Lemma occurrence_after_match w r pre x k post :
  forallb is_word_char w = true ->
  token w ++ r = (x :: pre) ++ token k ++ post ->
  exists pre', r = pre' ++ token k ++ post.
Proof.
  intros Hw H. unfold token in H. simpl in H. injection H as _ H.
  rewrite <- !app_assoc in H. simpl in H.
  (* w ++ ] :: r = pre ++ [ :: k ++ ] :: post *)
  revert pre H. induction w as [|y w IH]; intros pre H; simpl in *.
  - destruct pre as [|z pre]; simpl in H; [discriminate|].
    injection H as _ ->. exists pre. unfold token. simpl.
    now rewrite <- app_assoc.
  - apply andb_prop in Hw as [Hy Hw].
    destruct pre as [|z pre]; simpl in H.
    + injection H as -> _. discriminate.
    + injection H as _ H. eauto.
Qed.

Lemma findall_sound s : forall k,
  In k (findall s) -> is_name k /\ occurs (token k) s.
Proof.
  induction s as [s IH] using (induction_ltof1 _ (@length ascii)).
  unfold ltof in IH. intros k Hin.
  destruct s as [|c s]; [contradiction|].
  destruct (match_placeholder (c :: s)) as [w|] eqn:Hm.
  - destruct (match_placeholder_some _ _ Hm) as (Hw & r & Hs).
    rewrite (findall_match _ _ _ Hm Hs) in Hin. destruct Hin as [<-|Hin].
    + split; [assumption|]. exists [], r. exact Hs.
    + destruct (IH r) with (k := k) as (Hk & pre & post & ->); [|assumption|].
      * rewrite Hs. unfold token. simpl. rewrite !length_app. simpl. lia.
      * split; [assumption|]. exists (token w ++ pre), post.
        rewrite Hs. now rewrite <- app_assoc.
  - rewrite (findall_nomatch _ _ Hm) in Hin.
    destruct (IH s) with (k := k) as (Hk & pre & post & ->);
      [simpl; lia|assumption|].
    split; [assumption|]. now exists (c :: pre), post.
Qed.

Lemma findall_complete s : forall k,
  is_name k -> occurs (token k) s -> In k (findall s).
Proof.
  induction s as [s IH] using (induction_ltof1 _ (@length ascii)).
  unfold ltof in IH. intros k Hk (pre & post & Hs).
  destruct s as [|c s].
  { destruct pre; discriminate. }
  destruct (match_placeholder (c :: s)) as [w|] eqn:Hm.
  - destruct (match_placeholder_some _ _ Hm) as ((_ & Hw) & r & Hr).
    rewrite (findall_match _ _ _ Hm Hr).
    destruct pre as [|x pre].
    + left. simpl in Hs. rewrite Hs in Hr. unfold token in Hr. simpl in Hr.
      injection Hr as Hr. rewrite <- !app_assoc in Hr. simpl in Hr.
      symmetry. eapply name_eq_of_app; [apply Hk|exact Hw|exact Hr].
    + right. rewrite Hs in Hr. symmetry in Hr.
      destruct (occurrence_after_match _ _ _ _ _ _ Hw Hr) as (pre' & Hr').
      apply IH; [|assumption|now exists pre', post].
      rewrite Hs, <- Hr, Hr'. unfold token. simpl. rewrite !length_app.
      simpl. lia.
  - rewrite (findall_nomatch _ _ Hm).
    destruct pre as [|x pre].
    + change ([] ++ token k ++ post) with (token k ++ post) in Hs.
      rewrite Hs, match_placeholder_token in Hm by assumption.
      discriminate.
    + injection Hs as -> ->. apply IH; [simpl; lia|assumption|].
      now exists pre, post.
Qed.

(** [findall] returns exactly the names that occur between brackets. *)
Lemma findall_spec s k :
  In k (findall s) <-> is_name k /\ occurs (token k) s.
Proof.
  split; [apply findall_sound|intros [? ?]; now apply findall_complete].
Qed.

(** ** [find_placeholders] *)

Lemma set_add_in x found k : In k (set_add x found) <-> k = x \/ In k found.
Proof.
  unfold set_add. destruct (existsb (pystr_eqb x) found) eqn:He.
  - split; [auto|]. intros [->|H]; [|assumption].
    apply existsb_exists in He as (y & Hy & Hxy).
    apply pystr_eqb_eq in Hxy. now subst.
  - rewrite in_app_iff. simpl. intuition.
Qed.

Lemma set_add_nodup x found : NoDup found -> NoDup (set_add x found).
Proof.
  intros H. unfold set_add. destruct (existsb (pystr_eqb x) found) eqn:He.
  - assumption.
  - apply NoDup_app; [assumption|repeat constructor; simpl; tauto|].
    intros y Hy [<-|[]].
    assert (existsb (pystr_eqb x) found = true); [|congruence].
    apply existsb_exists. exists x. split; [assumption|apply pystr_eqb_refl].
Qed.

Lemma add_all_in ks : forall found k,
  In k (fold_left (fun f x => set_add x f) ks found) <-> In k found \/ In k ks.
Proof.
  induction ks as [|x ks IH]; intros found k; simpl; [tauto|].
  rewrite IH, set_add_in. intuition.
Qed.

Lemma add_all_nodup ks : forall found,
  NoDup found -> NoDup (fold_left (fun f x => set_add x f) ks found).
Proof.
  induction ks as [|x ks IH]; intros found H; simpl; [assumption|].
  apply IH. now apply set_add_nodup.
Qed.

Lemma scan_in doc ps : forall found k,
  In k (scan doc ps found) <->
  In k found \/ exists p, In p ps /\ In k (findall (para_text doc p)).
Proof.
  unfold scan. induction ps as [|p ps IH]; intros found k; simpl.
  - split; [auto|]. intros [H|(p & [] & _)]. assumption.
  - rewrite IH, add_all_in. split.
    + intros [[H|H]|(p' & Hp & H)]; eauto.
    + intros [H|(p' & [<-|Hp] & H)]; eauto.
Qed.

Lemma scan_nodup doc ps : forall found,
  NoDup found -> NoDup (scan doc ps found).
Proof.
  unfold scan. induction ps as [|p ps IH]; intros found H; simpl; [assumption|].
  apply IH. now apply add_all_nodup.
Qed.

Lemma scan_app doc a b found :
  scan doc (a ++ b) found = scan doc b (scan doc a found).
Proof. unfold scan. apply fold_left_app. Qed.

Lemma fold_left_flat_map {A B C} (g : A -> C -> A) (h : B -> list C) xs :
  forall acc,
    fold_left (fun acc x => fold_left g (h x) acc) xs acc
    = fold_left g (flat_map h xs) acc.
Proof.
  induction xs as [|x xs IH]; intros acc; simpl; [reflexivity|].
  now rewrite fold_left_app, IH.
Qed.

Lemma fold_left_ext {A B} (f g : A -> B -> A) xs :
  (forall a b, f a b = g a b) ->
  forall acc, fold_left f xs acc = fold_left g xs acc.
Proof.
  intros H. induction xs as [|x xs IH]; intros acc; simpl; [reflexivity|].
  now rewrite H, IH.
Qed.

(** The nested loops over tables, rows and cells scan the table
    paragraphs in order. *)
Lemma scan_tables doc found :
  fold_left
    (fun found t =>
       fold_left
         (fun found r => fold_left (fun found c => scan doc c found) r found)
         t found)
    (tables doc) found
  = scan doc (table_paragraphs doc) found.
Proof.
  unfold table_paragraphs, scan.
  rewrite <- fold_left_flat_map. apply fold_left_ext. intros a t.
  rewrite <- fold_left_flat_map. apply fold_left_ext. intros a' r.
  rewrite <- fold_left_flat_map. reflexivity.
Qed.

Lemma scan_sections doc found :
  fold_left
    (fun found s =>
       scan doc (footer_paragraphs s) (scan doc (header_paragraphs s) found))
    (sections doc) found
  = scan doc (section_paragraphs doc) found.
Proof.
  unfold section_paragraphs. unfold scan at 3.
  rewrite <- fold_left_flat_map. apply fold_left_ext. intros a s.
  rewrite <- scan_app. reflexivity.
Qed.

Lemma find_placeholders_unfold doc :
  find_placeholders doc = sorted (scan doc (scanned_paragraphs doc) []).
Proof.
  unfold find_placeholders, scanned_paragraphs.
  now rewrite scan_tables, scan_sections, !scan_app.
Qed.

Lemma find_placeholders_members doc k :
  In k (find_placeholders doc) <->
  is_name k /\
  exists p, In p (scanned_paragraphs doc) /\ occurs (token k) (para_text doc p).
Proof.
  rewrite find_placeholders_unfold, sorted_in, scan_in. split.
  - intros [[]|(p & Hp & H)]. apply findall_spec in H as [Hk Ho]. eauto.
  - intros (Hk & p & Hp & Ho). right.
    exists p. split; [assumption|]. apply findall_spec. auto.
Qed.

(** C10. For every document, [find_placeholders] returns a list without
    duplicates, sorted in the order of [str], whose members are exactly
    the names of the class [[A-Za-z0-9_]+] that occur between square
    brackets in a body paragraph, a table cell paragraph, or a header or
    footer paragraph of a section. *)
Theorem find_placeholders_spec (doc : document) :
  NoDup (find_placeholders doc) /\
  StronglySorted pystr_le (find_placeholders doc) /\
  forall k,
    In k (find_placeholders doc) <->
    is_name k /\
    exists p, In p (scanned_paragraphs doc) /\ occurs (token k) (para_text doc p).
Proof.
  split; [|split].
  - rewrite find_placeholders_unfold. apply sorted_nodup, scan_nodup. constructor.
  - rewrite find_placeholders_unfold. apply sorted_strongly.
  - apply find_placeholders_members.
Qed.

(** ** [str.replace] and [fill_docx] *)

Lemma starts_with_spec p : forall s,
  starts_with p s = true <-> exists r, s = p ++ r.
Proof.
  induction p as [|a p IH]; intros s; simpl.
  - split; [intros _; now exists s|reflexivity].
  - destruct s as [|b s].
    + split; [discriminate|]. intros (r & H). discriminate.
    + rewrite andb_true_iff, Ascii.eqb_eq, IH. split.
      * intros (-> & r & ->). now exists r.
      * intros (r & H). injection H as -> ->. eauto.
Qed.

Lemma contains_spec tok : forall s, contains tok s = true <-> occurs tok s.
Proof.
  induction s as [|c s IH]; simpl.
  - rewrite orb_false_r, starts_with_spec. split.
    + intros (r & H). now exists [], r.
    + intros (pre & post & H). destruct pre; [now exists post|discriminate].
  - rewrite orb_true_iff, starts_with_spec, IH. split.
    + intros [(r & H)|(pre & post & ->)].
      * now exists [], r.
      * now exists (c :: pre), post.
    + intros (pre & post & H). destruct pre as [|x pre].
      * left. now exists post.
      * right. injection H as -> ->. now exists pre, post.
Qed.

Lemma replace_from_skip old new k : forall s,
  replace_from old new k s = replace_from old new 0 (skipn k s).
Proof.
  induction k as [|k IH]; intros [|c s]; simpl; try reflexivity.
  rewrite IH. now destruct (skipn k s).
Qed.

Lemma replace_from_cons old new c rest :
  replace_from old new 0 (c :: rest)
  = if starts_with old (c :: rest)
    then new ++ replace_from old new (length old - 1) rest
    else c :: replace_from old new 0 rest.
Proof. reflexivity. Qed.

Lemma replace_from_match old new r :
  old <> [] ->
  replace_from old new 0 (old ++ r) = new ++ replace_from old new 0 r.
Proof.
  intros Hne. destruct old as [|a old]; [congruence|].
  assert (H : starts_with (a :: old) ((a :: old) ++ r) = true).
  { apply starts_with_spec. now exists r. }
  change ((a :: old) ++ r) with (a :: old ++ r) in *.
  rewrite replace_from_cons, H. f_equal. rewrite replace_from_skip. f_equal.
  replace (length (a :: old) - 1) with (length old) by (cbn [length]; lia).
  now rewrite skipn_app, skipn_all, Nat.sub_diag.
Qed.

Lemma replace_from_nomatch old new c s :
  starts_with old (c :: s) = false ->
  replace_from old new 0 (c :: s) = c :: replace_from old new 0 s.
Proof. intros H. now rewrite replace_from_cons, H. Qed.

Lemma replaced_cons tok new c s s' :
  starts_with tok (c :: s) = false ->
  replaced tok new s s' -> replaced tok new (c :: s) (c :: s').
Proof.
  intros Hs H. destruct H as [s Hno|pre rest rest' Hleft Hrest].
  - apply replaced_none. intros (pre & post & H).
    destruct pre as [|x pre].
    + assert (starts_with tok (c :: s) = true); [|congruence].
      apply starts_with_spec. now exists post.
    + injection H as -> ->. apply Hno. now exists pre, post.
  - change (c :: pre ++ tok ++ rest) with ((c :: pre) ++ tok ++ rest).
    change (c :: pre ++ new ++ rest') with ((c :: pre) ++ new ++ rest').
    apply replaced_occ; [|assumption].
    intros pre' post' H. destruct pre' as [|x pre'].
    + assert (starts_with tok (c :: pre ++ tok ++ rest) = true); [|congruence].
      apply starts_with_spec. now exists post'.
    + injection H as _ H. simpl. apply Hleft in H. lia.
Qed.

Lemma replace_from_replaced tok new :
  tok <> [] ->
  forall n s, length s <= n -> replaced tok new s (replace_from tok new 0 s).
Proof.
  intros Hne. induction n as [|n IH]; intros s Hn.
  - destruct s; [|simpl in Hn; lia]. apply replaced_none.
    intros (pre & post & H). destruct pre, tok; try discriminate. congruence.
  - destruct s as [|c s].
    + apply replaced_none.
      intros (pre & post & H). destruct pre, tok; try discriminate. congruence.
    + destruct (starts_with tok (c :: s)) eqn:Hs.
      * apply starts_with_spec in Hs as (r & Hr). rewrite Hr.
        rewrite replace_from_match by assumption.
        apply (@replaced_occ tok new [] r).
        -- intros pre' post' _. simpl. lia.
        -- apply IH. apply (f_equal (@length ascii)) in Hr.
           rewrite length_app in Hr. simpl in Hr, Hn.
           destruct tok; [congruence|]. simpl in Hr. lia.
      * rewrite replace_from_nomatch by assumption.
        apply replaced_cons; [assumption|]. apply IH. simpl in Hn. lia.
Qed.

(** [s.replace(tok, new)] replaces every occurrence of a non-empty
    [tok]. *)
Lemma py_replace_replaced tok new s :
  tok <> [] -> replaced tok new s (py_replace tok new s).
Proof.
  intros Hne. destruct tok as [|a tok]; [congruence|].
  unfold py_replace. now apply replace_from_replaced with (n := length s).
Qed.

Lemma token_not_nil k : token k <> [].
Proof. discriminate. Qed.

Lemma repl_item_replaced E txt k v :
  replaced (token k) (py_str E v) txt (repl_item E txt (k, v)).
Proof.
  unfold repl_item. cbn [fst snd].
  destruct (contains (token k) txt) eqn:Hc.
  - apply py_replace_replaced, token_not_nil.
  - apply replaced_none. intros H. apply contains_spec in H. congruence.
Qed.

Lemma repl_text_filled E mapping : forall txt,
  filled E mapping txt (repl_text E mapping txt).
Proof.
  unfold repl_text. induction mapping as [|[k v] mapping IH]; intros txt; simpl.
  - constructor.
  - econstructor; [apply repl_item_replaced|apply IH].
Qed.

Lemma app_eq_same_length {A} (a a' b b' : list A) :
  length a = length a' -> a ++ b = a' ++ b' -> a = a' /\ b = b'.
Proof.
  revert a'. induction a as [|x a IH]; intros [|y a'] Hl H; simpl in *;
    try discriminate; [auto|].
  injection H as -> H. injection Hl as Hl.
  destruct (IH _ Hl H) as [-> ->]. auto.
Qed.

(** [replaced] determines its result. *)
Lemma leftmost_unique tok pre rest pre' rest' :
  leftmost tok pre rest -> leftmost tok pre' rest' ->
  pre ++ tok ++ rest = pre' ++ tok ++ rest' -> pre = pre' /\ rest = rest'.
Proof.
  intros H1 H2 He.
  assert (Hlen : length pre = length pre').
  { pose proof (H1 _ _ He). symmetry in He. pose proof (H2 _ _ He). lia. }
  destruct (app_eq_same_length _ _ _ _ Hlen He) as [-> He'].
  split; [reflexivity|]. now apply app_inv_head in He'.
Qed.

Lemma replaced_functional tok new s s1 :
  replaced tok new s s1 -> forall s2, replaced tok new s s2 -> s1 = s2.
Proof.
  induction 1 as [s Hno|pre rest rest' Hleft Hrest IH]; intros s2 H2.
  - inversion H2 as [|pre rest rest' Hl Hr He]; subst; [reflexivity|].
    exfalso. apply Hno. now exists pre, rest.
  - inversion H2 as [s Hno He|pre2 rest2 rest2' Hl Hr He]; subst.
    + exfalso. apply Hno. now exists pre, rest.
    + destruct (leftmost_unique _ _ _ _ _ Hl Hleft He) as [-> ->].
      f_equal. f_equal. now apply IH.
Qed.

Lemma write_length p par : forall st, length (write p par st) = length st.
Proof.
  induction p as [|p IH]; intros [|t st]; simpl; auto.
Qed.

Lemma nth_write_same p par : forall st,
  p < length st -> nth p (write p par st) [] = par.
Proof.
  induction p as [|p IH]; intros [|t st] H; simpl in *; try lia; auto.
  apply IH. lia.
Qed.

Lemma nth_write_other p par : forall st q,
  q <> p -> nth q (write p par st) [] = nth q st [].
Proof.
  induction p as [|p IH]; intros [|t st] [|q] H; simpl; try congruence; auto.
Qed.

Lemma write_out_of_range p par : forall st,
  length st <= p -> write p par st = st.
Proof.
  induction p as [|p IH]; intros [|t st] H; simpl in *; try lia; auto.
  f_equal. apply IH. lia.
Qed.

Lemma repl_text_nil E mapping : repl_text E mapping [] = [].
Proof.
  unfold repl_text. induction mapping as [|[k v] mapping IH]; simpl; auto.
Qed.

Lemma written_nil E mapping : written E mapping [] = [].
Proof. unfold written. now rewrite repl_text_nil. Qed.

Lemma text_of_plain txt : text_of (plain txt) = txt.
Proof. unfold text_of, plain. cbn. apply app_nil_r. Qed.

(** [repl] raises nothing but the [ValueError] of the setter. *)
Lemma repl_cases E mapping st p :
  (forallb xml_char (repl_text E mapping (text_of (nth p st []))) = true /\
   repl E mapping st p
   = Ok (write p
           (plain (stored_text (repl_text E mapping (text_of (nth p st [])))))
           st)) \/
  (forallb xml_char (repl_text E mapping (text_of (nth p st []))) = false /\
   repl E mapping st p = Raise ValueError).
Proof.
  unfold repl, set_text.
  destruct (forallb xml_char _); [left|right]; auto.
Qed.

(** After [repl] a paragraph is a single run with the text written, the
    others are as they were. *)
Lemma repl_ok E mapping st p st' :
  repl E mapping st p = Ok st' ->
  length st' = length st /\
  (forall q, q <> p -> nth q st' [] = nth q st []) /\
  (p < length st ->
   nth p st' [] = plain (written E mapping (text_of (nth p st [])))) /\
  (forall q,
     text_of (nth q st' [])
     = if Nat.eq_dec p q then written E mapping (text_of (nth q st []))
       else text_of (nth q st [])).
Proof.
  intros H. destruct (repl_cases E mapping st p) as [[_ Hr]|[_ Hr]];
    rewrite Hr in H; [|discriminate].
  injection H as <-. split; [apply write_length|].
  split; [intros q Hq; now apply nth_write_other|].
  split; [intros Hp; now apply nth_write_same|].
  intros q. destruct (Nat.eq_dec p q) as [->|Hne].
  - destruct (Nat.lt_ge_cases q (length st)) as [Hq|Hq].
    + rewrite nth_write_same by assumption. apply text_of_plain.
    + rewrite write_out_of_range by assumption.
      rewrite nth_overflow by assumption. cbn. now rewrite written_nil.
  - rewrite nth_write_other by congruence. reflexivity.
Qed.

Lemma for_each_repl E mapping ps : forall st st',
  for_each ps (repl E mapping) st = Ok st' ->
  length st' = length st /\
  forall q,
    text_of (nth q st' [])
    = Nat.iter (count_occ Nat.eq_dec ps q) (written E mapping)
        (text_of (nth q st [])) /\
    (~ In q ps -> nth q st' [] = nth q st []) /\
    (In q ps -> q < length st -> nth q st' [] = plain (text_of (nth q st' []))).
Proof.
  induction ps as [|p ps IH]; intros st st' H; cbn [for_each] in H.
  - injection H as <-. split; [reflexivity|]. intros q. cbn.
    repeat split; tauto.
  - destruct (repl E mapping st p) as [st1|e] eqn:Hr; cbn [rbind] in H;
      [|discriminate].
    destruct (repl_ok _ _ _ _ _ Hr) as (Hlen1 & Hother & Hsame & Htext).
    destruct (IH _ _ H) as (Hlen & Hq).
    split; [congruence|]. intros q. destruct (Hq q) as (Ht & Hout & Hin).
    split; [|split].
    + rewrite Ht, Htext. cbn [count_occ].
      destruct (Nat.eq_dec p q); [|reflexivity].
      now rewrite Nat.iter_succ_r.
    + intros Hn. rewrite Hout by (intros Hc; apply Hn; now right).
      apply Hother. intros ->. apply Hn. now left.
    + intros Hi Hlt. destruct (in_dec Nat.eq_dec q ps) as [Hps|Hps].
      * apply Hin; [assumption|lia].
      * destruct Hi as [->|Hi]; [|contradiction].
        rewrite Hout by assumption. rewrite Hsame by assumption.
        now rewrite text_of_plain.
Qed.

Lemma for_each_app {A S} (body : S -> A -> result S) xs ys : forall s,
  for_each (xs ++ ys) body s
  = (s' <- for_each xs body s ;; for_each ys body s').
Proof.
  induction xs as [|x xs IH]; intros s; simpl; [now destruct (for_each ys body s)|].
  destruct (body s x) as [s1|e]; simpl; [apply IH|reflexivity].
Qed.

Lemma for_each_flat_map {A B S} (body : S -> B -> result S) (h : A -> list B) xs :
  forall s,
  for_each (flat_map h xs) body s
  = for_each xs (fun s x => for_each (h x) body s) s.
Proof.
  induction xs as [|x xs IH]; intros s; cbn [for_each flat_map]; [reflexivity|].
  rewrite for_each_app. destruct (for_each (h x) body s); cbn [rbind];
    [apply IH|reflexivity].
Qed.

Lemma for_each_ext {A S} (f g : S -> A -> result S) xs :
  (forall s x, f s x = g s x) -> forall s, for_each xs f s = for_each xs g s.
Proof.
  intros H. induction xs as [|x xs IH]; intros s; cbn [for_each]; [reflexivity|].
  rewrite H. destruct (g s x); cbn [rbind]; [apply IH|reflexivity].
Qed.

(** The two loops of [fill_docx] are one loop over the paragraphs it
    fills. *)
Lemma fill_docx_run E template mapping :
  fill_docx E template mapping
  = (st <- for_each (filled_paragraphs template) (repl E mapping)
             (store template) ;;
     Ok {| store := st;
           paragraphs := paragraphs template;
           tables := tables template;
           sections := sections template |}).
Proof.
  unfold fill_docx, filled_paragraphs, table_paragraphs.
  rewrite for_each_app.
  destruct (for_each (paragraphs template) _ _) as [st|e]; cbn [rbind];
    [|reflexivity].
  f_equal. rewrite for_each_flat_map. apply for_each_ext. intros s t.
  rewrite for_each_flat_map. apply for_each_ext. intros s' r.
  rewrite for_each_flat_map. reflexivity.
Qed.

Lemma fill_docx_ok E template mapping out :
  fill_docx E template mapping = Ok out ->
  for_each (filled_paragraphs template) (repl E mapping) (store template)
  = Ok (store out) /\
  paragraphs out = paragraphs template /\
  tables out = tables template /\
  sections out = sections template.
Proof.
  rewrite fill_docx_run.
  destruct (for_each _ _ _) as [st|e]; cbn [rbind]; [|discriminate].
  intros H. injection H as <-. cbn. auto.
Qed.

(** What [fill_docx] does to the text of each paragraph of the store. *)
Lemma fill_docx_text E template mapping out p :
  fill_docx E template mapping = Ok out ->
  para_text out p
  = Nat.iter (count_occ Nat.eq_dec (filled_paragraphs template) p)
      (written E mapping) (para_text template p).
Proof.
  intros H. apply fill_docx_ok in H as (H & _). unfold para_text.
  apply for_each_repl in H as (_ & H). apply H.
Qed.

(** A paragraph [fill_docx] does not pass to [repl] keeps its runs; one it
    passes is left as a single run. *)
Lemma fill_docx_runs E template mapping out p :
  fill_docx E template mapping = Ok out ->
  length (store out) = length (store template) /\
  (~ In p (filled_paragraphs template) ->
   nth p (store out) [] = nth p (store template) []) /\
  (In p (filled_paragraphs template) -> p < length (store template) ->
   nth p (store out) [] = plain (para_text out p)).
Proof.
  intros H. apply fill_docx_ok in H as (H & _).
  apply for_each_repl in H as (Hlen & H). split; [assumption|].
  destruct (H p) as (_ & H1 & H2). split; assumption.
Qed.

(** ** Dictionaries *)

Section DictFacts.
Context {V : Type}.
Implicit Types (d : list (pystr * V)) (k : pystr) (v : V).

Lemma dict_get_set_same k v d : dict_get k (dict_set k v d) = Some v.
Proof.
  induction d as [|[k' v'] d IH]; simpl.
  - now rewrite pystr_eqb_refl.
  - case_key k' k; simpl.
    + subst. now rewrite pystr_eqb_refl.
    + apply pystr_eqb_neq in Hk. now rewrite Hk.
Qed.

Lemma dict_get_set_other k k' v d :
  k' <> k -> dict_get k' (dict_set k v d) = dict_get k' d.
Proof.
  intros Hne. induction d as [|[k0 v0] d IH]; simpl.
  - apply not_eq_sym in Hne. apply pystr_eqb_neq in Hne. now rewrite Hne.
  - case_key k0 k; simpl.
    + subst k0. apply not_eq_sym in Hne. apply pystr_eqb_neq in Hne.
      now rewrite Hne.
    + now rewrite IH.
Qed.

Lemma dict_get_in k v d : dict_get k d = Some v -> In (k, v) d.
Proof.
  induction d as [|[k' v'] d IH]; simpl; [discriminate|].
  case_key k' k.
  - intros H. injection H as ->. subst. now left.
  - auto.
Qed.

Lemma dict_get_keys k d : dict_get k d <> None <-> In k (dict_keys d).
Proof.
  induction d as [|[k' v'] d IH]; simpl; [tauto|].
  case_key k' k.
  - split; [auto|discriminate].
  - rewrite IH. tauto.
Qed.

Lemma dict_keys_set_present k v d :
  dict_get k d <> None -> dict_keys (dict_set k v d) = dict_keys d.
Proof.
  induction d as [|[k' v'] d IH]; simpl; [congruence|].
  case_key k' k; simpl; [reflexivity|].
  intros H. now rewrite IH.
Qed.

Lemma dict_set_values (P : V -> Prop) k v d :
  P v -> Forall (fun kv => P (snd kv)) d ->
  Forall (fun kv => P (snd kv)) (dict_set k v d).
Proof.
  intros Hv. induction 1 as [|[k' v'] d Hx Hd IH]; simpl.
  - repeat constructor. assumption.
  - destruct (pystr_eqb k' k); constructor; auto.
Qed.

End DictFacts.

(** ** The merge block *)

(** The loop "Fill blanks with fallback" on a dictionary. *)
Lemma fill_blanks_dict placeholders fallback : forall d,
  exists d1,
    fill_blanks placeholders fallback (VDict d) = Ok (VDict d1) /\
    (forall k, truthy_opt (dict_get k d) = true -> dict_get k d1 = dict_get k d) /\
    (forall k, In k placeholders -> truthy_opt (dict_get k d) = false ->
               dict_get k d1 = Some (dict_get_default k VEmpty fallback)) /\
    (forall k, ~ In k placeholders -> dict_get k d1 = dict_get k d).
Proof.
  unfold fill_blanks.
  induction placeholders as [|ph rest IH]; intros d; cbn [for_each].
  - exists d. repeat split; auto. intros k [].
  - cbn [py_get as_dict rbind].
    set (fb := dict_get_default ph VEmpty fallback).
    set (d0 := if truthy_opt (dict_get ph d) then d else dict_set ph fb d).
    assert (Hstep :
      (if truthy_opt (dict_get ph d) then Ok (VDict d)
       else py_setitem (VDict d) ph fb) = Ok (VDict d0)).
    { unfold d0. now destruct (truthy_opt (dict_get ph d)). }
    rewrite Hstep. cbn [rbind].
    destruct (IH d0) as (d1 & Hrun & Hkeep & Hfill & Hframe).
    exists d1. split; [exact Hrun|].
    assert (Hother : forall k, k <> ph -> dict_get k d0 = dict_get k d).
    { intros k Hk. unfold d0. destruct (truthy_opt (dict_get ph d));
        [reflexivity|now apply dict_get_set_other]. }
    split; [|split].
    + intros k Hk. destruct (list_eq_dec ascii_dec k ph) as [->|Hne].
      * unfold d0 in *. rewrite Hk in *. now apply Hkeep.
      * rewrite <- (Hother k Hne). apply Hkeep. now rewrite Hother.
    + intros k Hin Hk. destruct (list_eq_dec ascii_dec k ph) as [->|Hne].
      * assert (Hd0 : dict_get ph d0 = Some fb).
        { unfold d0. rewrite Hk. apply dict_get_set_same. }
        destruct (truthy fb) eqn:Hfb.
        -- rewrite Hkeep; rewrite Hd0; auto.
        -- destruct (in_dec (list_eq_dec ascii_dec) ph rest) as [Hr|Hr].
           ++ apply Hfill; [assumption|]. now rewrite Hd0.
           ++ now rewrite Hframe.
      * destruct Hin as [Heq|Hin]; [congruence|].
        apply Hfill; [assumption|]. now rewrite Hother.
    + intros k Hk. rewrite Hframe by (simpl in Hk; tauto).
      apply Hother. simpl in Hk. intros ->. tauto.
Qed.

(** The update loop of the inference pass never adds or removes a key and
    only ever assigns to an entry that holds the empty string. *)
Lemma nm_update_spec items : forall mapping,
  let out := fst (nm_update items mapping) in
  dict_keys out = dict_keys mapping /\
  (forall k v, dict_get k mapping = Some v -> is_empty_str v = false ->
               dict_get k out = Some v) /\
  (forall k, dict_get k out = dict_get k mapping \/
             (dict_get k mapping = Some VEmpty /\
              exists v, In (k, v) items /\ dict_get k out = Some v)).
Proof.
  induction items as [|[k0 v0] items IH]; intros mapping; cbn zeta.
  - simpl. auto.
  - cbn [nm_update]. destruct (dict_get k0 mapping) as [cur|] eqn:Hcur.
    + cbn [fst].
      assert (Hcur_e : is_empty_str cur = true -> cur = VEmpty).
      { unfold VEmpty. destruct cur as [| | | |[|]| |]; simpl; congruence. }
      match goal with
      | |- context [nm_update items ?m] => remember m as m1 eqn:Hm1
      end.
      pose proof (IH m1) as IH1. cbn zeta in IH1.
      destruct IH1 as (Hkeys & Hkeep & Hnew).
      assert (Hkeys1 : dict_keys m1 = dict_keys mapping).
      { subst m1. destruct (is_empty_str cur); [|reflexivity].
        apply dict_keys_set_present. congruence. }
      assert (Hget1 : forall k, k <> k0 -> dict_get k m1 = dict_get k mapping).
      { intros k Hk. subst m1. destruct (is_empty_str cur); [|reflexivity].
        now apply dict_get_set_other. }
      assert (Hget0 : is_empty_str cur = true -> dict_get k0 m1 = Some v0).
      { intros He. subst m1. rewrite He. apply dict_get_set_same. }
      assert (Hsame0 : is_empty_str cur = false -> m1 = mapping).
      { intros He. subst m1. now rewrite He. }
      split; [rewrite Hkeys; exact Hkeys1|]. split.
      * intros k v Hk Hv. apply Hkeep; [|assumption].
        destruct (list_eq_dec ascii_dec k k0) as [->|Hne].
        -- rewrite Hsame0; [assumption|]. congruence.
        -- now rewrite Hget1.
      * intros k. destruct (is_empty_str cur) eqn:He.
        -- destruct (list_eq_dec ascii_dec k k0) as [->|Hne].
           ++ right. rewrite Hcur, (Hcur_e eq_refl). split; [reflexivity|].
              destruct (Hnew k0) as [Hsame|(_ & v & Hin & Hout)].
              ** exists v0. split; [now left|]. rewrite Hsame. now apply Hget0.
              ** exists v. split; [now right|assumption].
           ++ destruct (Hnew k) as [Hsame|(Hempty & v & Hin & Hout)].
              ** left. rewrite Hsame. now apply Hget1.
              ** right. rewrite <- (Hget1 k Hne). split; [assumption|].
                 exists v. split; [now right|assumption].
        -- rewrite (Hsame0 eq_refl) in *.
           destruct (Hnew k) as [Hsame|(Hempty & v & Hin & Hout)].
           ++ now left.
           ++ right. split; [assumption|]. exists v. split; [now right|assumption].
    + simpl. auto.
Qed.

(** The loop keeps a mapping of strings a mapping of strings when the
    object of the model holds strings only. *)
Lemma nm_update_strings items : forall mapping,
  Forall (fun kv => is_str (snd kv) = true) items ->
  Forall (fun kv => is_str (snd kv) = true) mapping ->
  Forall (fun kv => is_str (snd kv) = true) (fst (nm_update items mapping)).
Proof.
  induction items as [|[k0 v0] items IH]; intros mapping Hi Hm; [exact Hm|].
  cbn [nm_update]. inversion Hi as [|? ? Hv0 Hi']; subst.
  destruct (dict_get k0 mapping) as [cur|]; [|exact Hm].
  apply IH; [assumption|].
  destruct (is_empty_str cur); [|assumption].
  now apply (dict_set_values (fun v => is_str v = true)).
Qed.


Lemma is_empty_str_iff v : is_empty_str v = true <-> v = VEmpty.
Proof.
  unfold VEmpty. destruct v as [| | | |[|]| |]; simpl; split; congruence.
Qed.

Lemma is_empty_str_false v : v <> VEmpty -> is_empty_str v = false.
Proof.
  intros H. destruct (is_empty_str v) eqn:He; [|reflexivity].
  now apply is_empty_str_iff in He.
Qed.

Lemma truthy_not_empty v : truthy v = true -> v <> VEmpty.
Proof. intros H ->. discriminate. Qed.

(** The body of the [try]: whatever happens inside, the keys and the
    entries that are not the empty string stay; leaving the body before
    the loop leaves the whole mapping. *)
Lemma no_missing_body_spec E net still text mapping w :
  let out := fst (fst (no_missing_body E net still text mapping w)) in
  dict_keys out = dict_keys mapping /\
  (forall k v, dict_get k mapping = Some v -> v <> VEmpty ->
               dict_get k out = Some v) /\
  (fails_before_loop E net still text w ->
   out = mapping /\
   exists e, snd (fst (no_missing_body E net still text mapping w)) = Raise e).
Proof.
  unfold no_missing_body, fails_before_loop. cbn zeta.
  destruct (call_openrouter E net PNoMissing still text 800 w) as [[nm_out|e] w'].
  2:{ simpl. repeat split; eauto. }
  destruct (loads_block E nm_out) as [nm_map|e].
  2:{ simpl. repeat split; eauto. }
  destruct (py_items nm_map) as [items|e].
  2:{ simpl. repeat split; eauto. }
  cbn [fst snd].
  destruct (nm_update_spec items mapping) as (Hkeys & Hkeep & _).
  split; [exact Hkeys|]. split; [|intros []].
  intros k v Hk Hv. apply Hkeep; [assumption|now apply is_empty_str_false].
Qed.

Lemma no_missing_pass_body E net still text mapping w :
  no_missing_pass E net still text mapping w
  = (Ok (fst (fst (no_missing_body E net still text mapping w))),
     snd (no_missing_body E net still text mapping w)).
Proof.
  unfold no_missing_pass.
  now destruct (no_missing_body E net still text mapping w) as [[m r] w'].
Qed.

(** The merge block on a dictionary: the blanks are filled, then the
    inference pass runs when an entry is still the empty string. *)
Lemma merge_block_dict E net placeholders fallback text d d1 w :
  fill_blanks placeholders fallback (VDict d) = Ok (VDict d1) ->
  merge_block E net placeholders fallback text (VDict d) w
  = match still_empty_of d1 with
    | [] => (Ok d1, w)
    | _ :: _ => no_missing_pass E net (still_empty_of d1) text d1 w
    end.
Proof.
  intros H. unfold merge_block, bind, lift. rewrite H. cbn [py_items as_dict].
  now destruct (still_empty_of d1).
Qed.

(** The merge block never raises on a dictionary; it keeps the keys of
    the mapping with the blanks filled, and every entry of it that is not
    the empty string. *)
Lemma merge_block_total E net placeholders fallback text d d1 w :
  fill_blanks placeholders fallback (VDict d) = Ok (VDict d1) ->
  exists final w',
    merge_block E net placeholders fallback text (VDict d) w = (Ok final, w') /\
    dict_keys final = dict_keys d1 /\
    (forall k v, dict_get k d1 = Some v -> v <> VEmpty ->
                 dict_get k final = Some v).
Proof.
  intros H. rewrite (merge_block_dict E net _ _ text _ _ w H).
  destruct (still_empty_of d1) as [|k0 ks] eqn:Hs.
  - exists d1, w. auto.
  - rewrite <- Hs. rewrite no_missing_pass_body.
    destruct (no_missing_body_spec E net (still_empty_of d1) text d1 w)
      as (Hkeys & Hkeep & _).
    eexists _, _. split; [reflexivity|]. split; assumption.
Qed.

Lemma dict_get_some_of_keys (d d' : dict) k :
  dict_keys d' = dict_keys d -> dict_get k d <> None -> dict_get k d' <> None.
Proof. intros Hk. rewrite !dict_get_keys. now rewrite Hk. Qed.

(** C1 (amended). For every list of placeholders, every fallback, every
    PDF text and every LLM mapping, the merge and default-filling logic
    completes, and in the final mapping every placeholder has an entry:
    the LLM value when that is truthy, otherwise the fallback value when
    that is not the empty string.  (When both are empty the entry is what
    the inference pass assigned, and it stays the empty string when the
    pass assigned nothing.) *)
Theorem merge_block_fills_placeholders
        (E : Env) (net : network) (placeholders : list pystr)
        (fallback : dict) (combined_text : pystr) (llm : dict) (w : world) :
  exists final w',
    merge_block E net placeholders fallback combined_text (VDict llm) w
    = (Ok final, w') /\
    forall ph, In ph placeholders ->
      exists v,
        dict_get ph final = Some v /\
        (truthy_opt (dict_get ph llm) = true ->
         dict_get ph llm = Some v /\ v <> VEmpty) /\
        (truthy_opt (dict_get ph llm) = false ->
         dict_get_default ph VEmpty fallback <> VEmpty ->
         v = dict_get_default ph VEmpty fallback).
Proof.
  destruct (fill_blanks_dict placeholders fallback llm)
    as (d1 & Hrun & Hkeep & Hfill & _).
  destruct (merge_block_total E net _ _ combined_text _ _ w Hrun)
    as (final & w' & Hm & Hkeys & Hstay).
  exists final, w'. split; [exact Hm|].
  intros ph Hin.
  destruct (truthy_opt (dict_get ph llm)) eqn:Ht.
  - destruct (dict_get ph llm) as [v|] eqn:Hv; [|discriminate].
    simpl in Ht. exists v.
    assert (Hne : v <> VEmpty) by now apply truthy_not_empty.
    split; [|split; [auto|discriminate]].
    apply Hstay; [|assumption]. rewrite Hkeep; [assumption|].
    now rewrite Hv.
  - specialize (Hfill ph Hin Ht).
    destruct (dict_get ph final) as [v|] eqn:Hv.
    + exists v. split; [reflexivity|]. split; [discriminate|].
      intros _ Hfb. specialize (Hstay _ _ Hfill Hfb). congruence.
    + exfalso. apply (dict_get_some_of_keys d1 final ph Hkeys); congruence.
Qed.

(** C2. In the merge step, a placeholder whose LLM value is a non-empty
    string keeps that value, in the mapping with the blanks filled and in
    the final mapping; the merge step changes an entry only for a
    placeholder whose LLM value is absent or falsy, and then to the
    fallback value. *)
Theorem merge_keeps_llm_values
        (E : Env) (net : network) (placeholders : list pystr)
        (fallback : dict) (combined_text : pystr) (llm : dict) (w : world) :
  exists merged final w',
    fill_blanks placeholders fallback (VDict llm) = Ok (VDict merged) /\
    merge_block E net placeholders fallback combined_text (VDict llm) w
    = (Ok final, w') /\
    (forall ph s,
        In ph placeholders -> dict_get ph llm = Some (VStr s) -> s <> [] ->
        dict_get ph merged = Some (VStr s) /\
        dict_get ph final = Some (VStr s)) /\
    (forall k,
        dict_get k merged <> dict_get k llm ->
        In k placeholders /\ truthy_opt (dict_get k llm) = false /\
        dict_get k merged = Some (dict_get_default k VEmpty fallback)).
Proof.
  destruct (fill_blanks_dict placeholders fallback llm)
    as (d1 & Hrun & Hkeep & Hfill & Hframe).
  destruct (merge_block_total E net _ _ combined_text _ _ w Hrun)
    as (final & w' & Hm & Hkeys & Hstay).
  exists d1, final, w'. repeat split; try assumption.
  - rewrite Hkeep; [assumption|]. rewrite H0. now destruct s.
  - apply Hstay.
    + rewrite Hkeep; [assumption|]. rewrite H0. now destruct s.
    + unfold VEmpty. congruence.
  - destruct (in_dec (list_eq_dec ascii_dec) k placeholders) as [Hin|Hin];
      [assumption|].
    exfalso. apply H. now apply Hframe.
  - destruct (truthy_opt (dict_get k llm)) eqn:Ht; [|reflexivity].
    exfalso. apply H. now apply Hkeep.
  - destruct (in_dec (list_eq_dec ascii_dec) k placeholders) as [Hin|Hin].
    + destruct (truthy_opt (dict_get k llm)) eqn:Ht.
      * exfalso. apply H. now apply Hkeep.
      * now apply Hfill.
    + exfalso. apply H. now apply Hframe.
Qed.

(** C4 (amended). The secondary inference pass never raises: whatever
    exception its body raises is caught and ignored.  It never adds or
    removes a key, and it leaves every entry that is not the empty string
    as it was after the fallback merge.  When the body is left before its
    update loop starts (the request fails, the reply does not parse, the
    parsed value is not an object), the mapping is left exactly as it
    was. *)
Theorem no_missing_pass_spec
        (E : Env) (net : network) (still_empty : list pystr)
        (combined_text : pystr) (mapping : dict) (w : world) :
  exists final w',
    no_missing_pass E net still_empty combined_text mapping w = (Ok final, w') /\
    dict_keys final = dict_keys mapping /\
    (forall k v, dict_get k mapping = Some v -> v <> VEmpty ->
                 dict_get k final = Some v) /\
    (fails_before_loop E net still_empty combined_text w -> final = mapping).
Proof.
  rewrite no_missing_pass_body.
  destruct (no_missing_body_spec E net still_empty combined_text mapping w)
    as (Hkeys & Hkeep & Hfail).
  eexists _, _. split; [reflexivity|]. repeat split; try assumption.
  intros H. now apply Hfail.
Qed.

(** ** Strings in the final mapping *)

Lemma all_strings_get (d : dict) k v :
  all_strings d -> dict_get k d = Some v -> is_str v = true.
Proof.
  intros Hd Hk. apply dict_get_in in Hk.
  unfold all_strings in Hd. rewrite Forall_forall in Hd. now apply (Hd (k, v)).
Qed.

Lemma all_strings_set (d : dict) k s :
  all_strings d -> all_strings (dict_set k (VStr s) d).
Proof. intros H. now apply (dict_set_values (fun v => is_str v = true)). Qed.

Lemma all_strings_comprehension ks :
  all_strings (dict_comprehension (fun _ => VEmpty) ks).
Proof.
  unfold dict_comprehension.
  assert (H : forall d, all_strings d ->
            all_strings (fold_left (fun d k => dict_set k VEmpty d) ks d)).
  { induction ks as [|k ks IH]; intros d Hd; simpl; [assumption|].
    apply IH. now apply all_strings_set. }
  apply H. constructor.
Qed.

(** Every value of the fallback is a string. *)
Lemma fallback_structured_strings E pdf_text placeholders :
  all_strings (fallback_structured E pdf_text placeholders).
Proof.
  unfold fallback_structured, set_if.
  pose proof (all_strings_comprehension placeholders) as H0.
  set (d0 := dict_comprehension _ placeholders) in *. clearbody d0.
  destruct (search_insured E pdf_text);
  destruct (search_address E pdf_text) as [[[[g1 g2] g3] g4]|];
  destruct (search_date E pdf_text);
  destruct (search_mortgagee E pdf_text);
  match goal with
  | |- all_strings (match dict_get _ ?d with _ => _ end) =>
      assert (Hd : all_strings d) by (repeat apply all_strings_set; exact H0);
      destruct (dict_get (lit "DATE_RECEIVED") d);
      [now apply all_strings_set|exact Hd]
  end.
Qed.

Lemma fill_blanks_strings placeholders fallback :
  all_strings fallback ->
  forall d d1, all_strings d ->
    fill_blanks placeholders fallback (VDict d) = Ok (VDict d1) ->
    all_strings d1.
Proof.
  intros Hfb. unfold fill_blanks.
  induction placeholders as [|ph rest IH]; intros d d1 Hd; cbn [for_each].
  - intros H. injection H as <-. assumption.
  - cbn [py_get as_dict rbind].
    destruct (truthy_opt (dict_get ph d)); cbn [py_setitem rbind].
    + now apply IH.
    + apply IH. unfold dict_get_default.
      destruct (dict_get ph fallback) as [v|] eqn:Hv.
      * pose proof (all_strings_get _ _ _ Hfb Hv) as Hs.
        destruct v; try discriminate. now apply all_strings_set.
      * now apply all_strings_set.
Qed.

(** C6 (amended). The final mapping is a flat mapping from placeholder
    names to the values the sources supplied.  The fallback supplies
    strings only; so when every value of the LLM mapping is a string and
    every value of the object returned by the secondary inference pass is
    a string, every value of the final mapping is a string. *)
Theorem merge_block_strings
        (E : Env) (net : network) (placeholders : list pystr)
        (combined_text : pystr) (llm : dict) (w : world) :
  all_strings llm ->
  (forall out items,
      net (issued w) = Content out ->
      loads_block E out = Ok (VDict items) -> all_strings items) ->
  exists final w',
    merge_block E net placeholders
      (fallback_structured E combined_text placeholders) combined_text
      (VDict llm) w = (Ok final, w') /\
    all_strings final.
Proof.
  intros Hllm Hnm.
  set (fallback := fallback_structured E combined_text placeholders).
  destruct (fill_blanks_dict placeholders fallback llm) as (d1 & Hrun & _).
  assert (Hd1 : all_strings d1).
  { eapply fill_blanks_strings; [|exact Hllm|exact Hrun].
    apply fallback_structured_strings. }
  rewrite (merge_block_dict E net _ _ combined_text _ _ w Hrun).
  destruct (still_empty_of d1) as [|k0 ks] eqn:Hs.
  - exists d1, w. auto.
  - rewrite <- Hs. rewrite no_missing_pass_body.
    eexists _, _. split; [reflexivity|].
    unfold no_missing_body, call_openrouter.
    destruct (key_set E); [|exact Hd1].
    unfold post. destruct (net (issued w)) as [|out] eqn:Hnet; [exact Hd1|].
    destruct (loads_block E out) as [nm_map|e] eqn:Hl; [|exact Hd1].
    destruct nm_map as [| | | | | |items]; try exact Hd1.
    cbn [py_items as_dict fst].
    apply nm_update_strings; [|exact Hd1].
    now apply (Hnm out items).
Qed.

(** ** The extraction modes *)

Section DictMore.
Context {V : Type}.
Implicit Types (d : list (pystr * V)) (k : pystr) (v : V).

Lemma dict_keys_set_in k k' v d :
  In k (dict_keys (dict_set k' v d)) <-> k = k' \/ In k (dict_keys d).
Proof.
  induction d as [|[k0 v0] d IH]; simpl.
  - intuition.
  - case_key k0 k'; simpl.
    + subst. intuition.
    + rewrite IH. intuition.
Qed.

Lemma dict_setdefault_present k dflt d :
  dict_get k (dict_setdefault k dflt d) <> None.
Proof.
  unfold dict_setdefault. destruct (dict_get k d) eqn:H.
  - congruence.
  - rewrite dict_get_set_same. discriminate.
Qed.

Lemma dict_setdefault_keeps k k' dflt d :
  dict_get k' d <> None ->
  dict_get k' (dict_setdefault k dflt d) = dict_get k' d.
Proof.
  intros H. unfold dict_setdefault. destruct (dict_get k d) eqn:Hk; [reflexivity|].
  apply dict_get_set_other. congruence.
Qed.

Lemma dict_setdefault_other k k' dflt d :
  k' <> k -> dict_get k' (dict_setdefault k dflt d) = dict_get k' d.
Proof.
  intros H. unfold dict_setdefault. destruct (dict_get k d) eqn:Hk; [reflexivity|].
  now apply dict_get_set_other.
Qed.

Lemma dict_comprehension_keys (f : pystr -> V) ks k :
  In k ks -> In k (dict_keys (dict_comprehension f ks)).
Proof.
  unfold dict_comprehension.
  assert (H : forall d, In k ks \/ In k (dict_keys d) ->
            In k (dict_keys (fold_left (fun d k => dict_set k (f k) d) ks d))).
  { induction ks as [|k0 ks IH]; intros d; simpl.
    - tauto.
    - intros Hin. apply IH. rewrite dict_keys_set_in.
      destruct Hin as [[->|Hin]|Hin]; auto. }
  auto.
Qed.

End DictMore.

Lemma setdefault_in_spec parsed outer ph dflt parsed' :
  setdefault_in parsed outer ph dflt = Ok parsed' ->
  has_entry outer parsed' ph /\
  (forall ph0, has_entry outer parsed ph0 -> has_entry outer parsed' ph0) /\
  (forall outer0 ph0, outer0 <> outer ->
      has_entry outer0 parsed ph0 -> has_entry outer0 parsed' ph0).
Proof.
  unfold setdefault_in. destruct parsed as [| | | | | |d]; try discriminate.
  cbn [as_dict rbind].
  set (d1 := dict_setdefault outer (VDict []) d).
  assert (Hd1 : dict_get outer d1 <> None) by apply dict_setdefault_present.
  unfold dict_get_default.
  destruct (dict_get outer d1) as [inner|] eqn:Hinner; [|congruence].
  destruct inner as [| | | | | |m]; try discriminate.
  cbn [as_dict rbind]. intros H. injection H as <-.
  split; [|split].
  - exists (dict_set outer (VDict (dict_setdefault ph dflt m)) d1), (dict_setdefault ph dflt m).
    split; [reflexivity|]. split; [apply dict_get_set_same|].
    apply dict_setdefault_present.
  - intros ph0 (d0 & inner0 & Hd & Hget & Hph). injection Hd as <-.
    exists (dict_set outer (VDict (dict_setdefault ph dflt m)) d1), (dict_setdefault ph dflt m).
    split; [reflexivity|]. split; [apply dict_get_set_same|].
    assert (m = inner0) as ->.
    { unfold d1 in Hinner. rewrite dict_setdefault_keeps in Hinner; congruence. }
    rewrite dict_setdefault_keeps; assumption.
  - intros outer0 ph0 Hne (d0 & inner0 & Hd & Hget & Hph). injection Hd as <-.
    exists (dict_set outer (VDict (dict_setdefault ph dflt m)) d1), inner0.
    split; [reflexivity|]. split; [|assumption].
    rewrite dict_get_set_other by assumption.
    unfold d1. now rewrite dict_setdefault_other.
Qed.

Lemma k_mapping_status : k_status <> k_mapping.
Proof. discriminate. Qed.

Lemma k_mapping_reasons : k_reasons <> k_mapping.
Proof. discriminate. Qed.

(** The loop of [llm_strict_validation] leaves an entry for every
    placeholder in the dictionary under ["mapping"]. *)
Lemma strict_loop_entries placeholders : forall parsed parsed',
  for_each placeholders
    (fun parsed ph =>
       p1 <- setdefault_in parsed k_mapping ph VEmpty ;;
       p2 <- setdefault_in p1 k_status ph (VStr (lit "MISSING")) ;;
       setdefault_in p2 k_reasons ph VEmpty)
    parsed = Ok parsed' ->
  (forall ph, has_entry k_mapping parsed ph -> has_entry k_mapping parsed' ph) /\
  (forall ph, In ph placeholders -> has_entry k_mapping parsed' ph).
Proof.
  induction placeholders as [|ph0 rest IH]; intros parsed parsed'; cbn [for_each].
  - intros H. injection H as <-. split; [auto|intros ph []].
  - destruct (setdefault_in parsed k_mapping ph0 VEmpty) as [p1|] eqn:H1;
      [|discriminate].
    cbn [rbind].
    destruct (setdefault_in p1 k_status ph0 (VStr (lit "MISSING"))) as [p2|] eqn:H2;
      [|discriminate].
    cbn [rbind].
    destruct (setdefault_in p2 k_reasons ph0 VEmpty) as [p3|] eqn:H3;
      [|discriminate].
    cbn [rbind]. intros Hrest.
    destruct (IH _ _ Hrest) as (Hkeep & Hall).
    destruct (setdefault_in_spec _ _ _ _ _ H1) as (Hnew1 & Hkeep1 & _).
    destruct (setdefault_in_spec _ _ _ _ _ H2) as (_ & _ & Hother2).
    destruct (setdefault_in_spec _ _ _ _ _ H3) as (_ & _ & Hother3).
    assert (Hstep : forall ph, has_entry k_mapping p1 ph -> has_entry k_mapping p3 ph).
    { intros ph Hp. apply Hother3; [apply not_eq_sym, k_mapping_reasons|].
      apply Hother2; [apply not_eq_sym, k_mapping_status|]. assumption. }
    split.
    + intros ph Hp. apply Hkeep, Hstep, Hkeep1, Hp.
    + intros ph [<-|Hin]; [|now apply Hall].
      apply Hkeep, Hstep, Hnew1.
Qed.

Lemma sends_nil net w : sends net w w [].
Proof. unfold sends. simpl. now rewrite app_nil_r, Nat.add_0_r. Qed.

Lemma exchanges_app net start a b :
  exchanges net start (a ++ b)
  = exchanges net start a ++ exchanges net (start + length a) b.
Proof.
  revert start. induction a as [|r a IH]; intros start; simpl.
  - now rewrite Nat.add_0_r.
  - rewrite IH. now replace (S start + length a) with (start + S (length a)) by lia.
Qed.

Lemma sends_trans net w1 w2 w3 a b :
  sends net w1 w2 a -> sends net w2 w3 b -> sends net w1 w3 (a ++ b).
Proof.
  unfold sends. intros [He1 Hi1] [He2 Hi2].
  rewrite exchanges_app, length_app, He2, He1, Hi2, Hi1, <- app_assoc.
  split; [reflexivity|lia].
Qed.

Lemma post_sends net r w : sends net w (snd (post net r w)) [r].
Proof.
  unfold post, sends.
  destruct (net (issued w)) eqn:Hn; cbn [snd events issued exchanges length];
    rewrite Hn; split; try reflexivity; lia.
Qed.

Lemma post_ok net r w out w' :
  post net r w = (Ok out, w') -> net (issued w) = Content out.
Proof.
  unfold post. destruct (net (issued w)); intros H; inversion H. reflexivity.
Qed.

(** [call_openrouter] sends one request, or none when the key is not
    set; it returns only after a request. *)
Lemma call_openrouter_sends E net kind fields text max_tokens w :
  let r := call_openrouter E net kind fields text max_tokens w in
  (sends net w (snd r) [] /\ fst r = Raise RuntimeError) \/
  sends net w (snd r) [openrouter_request kind fields text max_tokens].
Proof.
  unfold call_openrouter. cbn zeta. destruct (key_set E).
  - right. apply post_sends.
  - left. split; [apply sends_nil|reflexivity].
Qed.

Lemma call_openrouter_ok E net kind fields text max_tokens w out w' :
  call_openrouter E net kind fields text max_tokens w = (Ok out, w') ->
  sends net w w' [openrouter_request kind fields text max_tokens].
Proof.
  intros H.
  destruct (call_openrouter_sends E net kind fields text max_tokens w)
    as [[_ Hr]|Hs]; rewrite H in *; [discriminate|exact Hs].
Qed.

(** The strict-validation branch: one request, and a mapping with an
    entry for every placeholder. *)
Lemma run_mode_strict E net placeholders text w mapping w' :
  run_mode E net strict_validation placeholders text w = (Ok mapping, w') ->
  sends net w w' [openrouter_request PStrictValidation placeholders text 1500] /\
  forall ph, In ph placeholders ->
    exists d, mapping = VDict d /\ dict_get ph d <> None.
Proof.
  unfold run_mode, llm_strict_validation, bind, lift.
  destruct (call_openrouter E net PStrictValidation placeholders text 1500 w)
    as [[out|e] w1] eqn:Hc; [|discriminate].
  destruct (loads_block E out) as [parsed|e]; [|discriminate].
  cbn [rbind].
  match goal with
  | |- context [for_each placeholders ?body parsed] =>
      destruct (for_each placeholders body parsed) as [parsed'|e] eqn:Hloop
  end; [|discriminate].
  intros H. inversion H as [[Hget Hw]]. subst w1.
  split; [now apply call_openrouter_ok in Hc|].
  intros ph Hin.
  destruct (strict_loop_entries _ _ _ Hloop) as (_ & Hall).
  destruct (Hall ph Hin) as (d & inner & -> & Hm & Hph).
  cbn [py_getitem] in Hget. rewrite Hm in Hget. injection Hget as <-.
  eauto.
Qed.

Lemma cand_append_keys ph s (c c' : candidates_t) :
  cand_append ph s c = Ok c' -> dict_keys c' = dict_keys c.
Proof.
  unfold cand_append. destruct (dict_get ph c) eqn:H; [|discriminate].
  intros He. injection He as <-. apply dict_keys_set_present. congruence.
Qed.

Lemma collect_round_keys placeholders parsed : forall c c',
  collect_round placeholders parsed c = Ok c' -> dict_keys c' = dict_keys c.
Proof.
  unfold collect_round.
  induction placeholders as [|ph rest IH]; intros c c'; cbn [for_each].
  - intros H. now injection H as <-.
  - destruct (py_get parsed ph) as [got|]; [|discriminate]. cbn [rbind].
    destruct (truthy_opt got).
    + destruct (py_getitem parsed ph) as [v|]; [|discriminate]. cbn [rbind].
      destruct (py_strip v) as [s|]; [|discriminate]. cbn [rbind].
      destruct (cand_append ph s c) as [c1|] eqn:Ha; [|discriminate].
      cbn [rbind]. intros H. rewrite (IH _ _ H). now apply cand_append_keys in Ha.
    + cbn [rbind]. apply IH.
Qed.

Lemma bind_ok {A B} (m : M A) (k : A -> M B) w a w1 :
  m w = (Ok a, w1) -> bind m k w = k a w1.
Proof. intros H. unfold bind. now rewrite H. Qed.

Lemma bind_raise {A B} (m : M A) (k : A -> M B) w e w1 :
  m w = (Raise e, w1) -> bind m k w = (Raise e, w1).
Proof. intros H. unfold bind. now rewrite H. Qed.

Lemma lift_run {A} (r : result A) w : lift r w = (r, w).
Proof. reflexivity. Qed.

(** The loop over the temperatures sends the voting requests in order,
    one per round, and goes on to the next round only when the reply to
    the last one is in; it returns only after all rounds. *)
Lemma voting_rounds_spec E net placeholders text temps : forall c w,
  let r := voting_rounds E net temps placeholders text c w in
  exists n,
    n <= length temps /\
    sends net w (snd r) (map (voting_request placeholders text) (firstn n temps)) /\
    (forall i, S i < n -> exists out, net (issued w + i) = Content out) /\
    (forall c', fst r = Ok c' -> n = length temps /\ dict_keys c' = dict_keys c).
Proof.
  induction temps as [|t rest IH]; intros c w; cbn zeta.
  - exists 0. cbn [voting_rounds ret fst snd length firstn map].
    split; [lia|]. split; [apply sends_nil|].
    split; [intros i Hi; lia|]. intros c' H. injection H as <-. auto.
  - cbn [voting_rounds].
    pose proof (post_sends net (voting_request placeholders text t) w) as Hsend.
    destruct (post net (voting_request placeholders text t) w)
      as [[out|e] w1] eqn:Hp; cbn [snd] in Hsend.
    2:{ rewrite (bind_raise _ _ _ _ _ Hp).
        exists 1. cbn [fst snd length firstn map].
        split; [lia|]. split; [exact Hsend|].
        split; [intros i Hi; lia|]. intros c' H. discriminate. }
    rewrite (bind_ok _ _ _ _ _ Hp).
    pose proof (post_ok _ _ _ _ _ Hp) as Hout.
    assert (Hnext : forall c1,
      let r := voting_rounds E net rest placeholders text c1 w1 in
      dict_keys c1 = dict_keys c ->
      exists n,
        n <= length (t :: rest) /\
        sends net w (snd r)
          (map (voting_request placeholders text) (firstn n (t :: rest))) /\
        (forall i, S i < n -> exists out, net (issued w + i) = Content out) /\
        (forall c', fst r = Ok c' ->
                    n = length (t :: rest) /\ dict_keys c' = dict_keys c)).
    { intros c1 r Hk. destruct (IH c1 w1) as (n & Hn & Hs & Hrep & Hok).
      exists (S n). split; [simpl; lia|]. split; [|split].
      - change (map (voting_request placeholders text) (firstn (S n) (t :: rest)))
          with ([voting_request placeholders text t] ++
                map (voting_request placeholders text) (firstn n rest)).
        eapply sends_trans; eassumption.
      - intros [|i] Hi.
        + exists out. now rewrite Nat.add_0_r.
        + destruct (Hrep i) as (out' & Ho); [lia|]. exists out'.
          destruct Hsend as [_ Hi1]. simpl in Hi1. rewrite <- Ho. f_equal. lia.
      - intros c' Hc'. destruct (Hok c' Hc') as [-> Hk']. split; [reflexivity|].
        congruence. }
    destruct (loads_block E out) as [parsed|e].
    + destruct (collect_round placeholders parsed c) as [c1|e] eqn:Hc.
      * rewrite (bind_ok _ _ _ _ _ (lift_run (Ok c1) w1)).
        apply Hnext. now apply collect_round_keys in Hc.
      * rewrite (bind_raise _ _ _ _ _ (lift_run (Raise e) w1)).
        exists 1. cbn [fst snd length firstn map].
        split; [lia|]. split; [exact Hsend|].
        split; [intros i Hi; lia|]. intros c' H. discriminate.
    + now apply Hnext.
Qed.

Lemma final_map_get (c : candidates_t) ph :
  In ph (dict_keys c) -> exists s, dict_get ph (final_map_of c) = Some (VStr s).
Proof.
  unfold final_map_of. induction c as [|[k vals] c IH]; simpl; [tauto|].
  intros Hin. case_key k ph; [eauto|].
  destruct Hin as [Heq|Hin]; [congruence|auto].
Qed.

Lemma final_map_strings (c : candidates_t) : all_strings (final_map_of c).
Proof.
  unfold final_map_of, all_strings. induction c as [|[k vals] c IH]; simpl;
    constructor; auto.
Qed.

(** The voting branch: three requests, and a mapping of strings with an
    entry for every placeholder. *)
Lemma run_mode_voting E net placeholders text w mapping w' :
  run_mode E net multi_llm_voting placeholders text w = (Ok mapping, w') ->
  sends net w w' (map (voting_request placeholders text) [T00; T02; T06]) /\
  exists d, mapping = VDict d /\ all_strings d /\
            forall ph, In ph placeholders ->
                       exists s, dict_get ph d = Some (VStr s).
Proof.
  unfold run_mode, llm_voting, llm_voting_rounds.
  change (voting_temps 3) with [T00; T02; T06].
  set (c0 := dict_comprehension (fun _ => @nil pystr) placeholders).
  destruct (voting_rounds_spec E net placeholders text [T00; T02; T06] c0 w)
    as (n & Hn & Hs & _ & Hok).
  unfold bind at 1. unfold bind at 1.
  destruct (voting_rounds E net [T00; T02; T06] placeholders text c0 w)
    as [[c|e] w1]; [|discriminate].
  destruct (Hok c eq_refl) as [-> Hkeys].
  unfold ret, lift. cbn [py_getitem dict_get].
  unfold k_mapping at 1 2. rewrite pystr_eqb_refl.
  intros H. inversion H. subst.
  split; [exact Hs|].
  eexists. split; [reflexivity|]. split; [apply final_map_strings|].
  intros ph Hin. apply final_map_get. rewrite Hkeys.
  now apply dict_comprehension_keys.
Qed.

(** ** The requests of a run *)

Lemma snd_bind_pure {A B} (m : M A) (k : A -> M B) w :
  (forall a w1, snd (k a w1) = w1) -> snd (bind m k w) = snd (m w).
Proof.
  intros Hk. unfold bind. destruct (m w) as [[a|e] w1]; [apply Hk|reflexivity].
Qed.

Lemma call_openrouter_length E net kind fields text max_tokens w :
  exists reqs,
    sends net w (snd (call_openrouter E net kind fields text max_tokens w)) reqs /\
    length reqs <= 1.
Proof.
  destruct (call_openrouter_sends E net kind fields text max_tokens w)
    as [[H _]|H]; eexists; (split; [exact H|simpl; lia]).
Qed.

(** The world after a mode other than voting is the world after its one
    call of [call_openrouter]. *)
Lemma run_mode_world E net m placeholders text w :
  m <> multi_llm_voting ->
  exists kind,
    snd (run_mode E net m placeholders text w)
    = snd (call_openrouter E net kind placeholders text 1500 w).
Proof.
  intros Hm. destruct m; [| | |congruence].
  - exists PHighAccuracy. unfold run_mode, llm_high_accuracy.
    rewrite snd_bind_pure by reflexivity. now rewrite snd_bind_pure by reflexivity.
  - exists PStrictValidation. unfold run_mode, llm_strict_validation.
    rewrite snd_bind_pure by reflexivity. now rewrite snd_bind_pure by reflexivity.
  - exists PFieldAudit. unfold run_mode, llm_field_audit.
    rewrite snd_bind_pure by reflexivity. now rewrite snd_bind_pure by reflexivity.
Qed.

Lemma run_mode_voting_world E net placeholders text w :
  snd (run_mode E net multi_llm_voting placeholders text w)
  = snd (voting_rounds E net [T00; T02; T06] placeholders text
           (dict_comprehension (fun _ => @nil pystr) placeholders) w).
Proof.
  unfold run_mode, llm_voting, llm_voting_rounds.
  rewrite snd_bind_pure by reflexivity. now rewrite snd_bind_pure by reflexivity.
Qed.

Lemma no_missing_body_world E net still text mapping w :
  snd (no_missing_body E net still text mapping w)
  = snd (call_openrouter E net PNoMissing still text 800 w).
Proof.
  unfold no_missing_body.
  destruct (call_openrouter E net PNoMissing still text 800 w) as [[out|e] w1];
    [|reflexivity].
  destruct (loads_block E out) as [nm_map|e]; [|reflexivity].
  now destruct (py_items nm_map).
Qed.

Lemma merge_block_sends E net placeholders fallback text mapping w :
  exists reqs,
    sends net w (snd (merge_block E net placeholders fallback text mapping w)) reqs /\
    length reqs <= 1.
Proof.
  assert (Hnil : exists reqs, sends net w w reqs /\ length reqs <= 1).
  { exists []. split; [apply sends_nil|simpl; lia]. }
  unfold merge_block, bind, lift.
  destruct (fill_blanks placeholders fallback mapping) as [m1|e]; [|exact Hnil].
  destruct (py_items m1) as [items|e]; [|exact Hnil].
  destruct (still_empty_of items) as [|k ks]; [exact Hnil|].
  rewrite no_missing_pass_body. cbn [snd]. rewrite no_missing_body_world.
  apply call_openrouter_length.
Qed.

(** C7. The requests of a run are sent one at a time: the trace of a run
    is a sequence of exchanges, each request followed by its reply before
    the next request appears.  A mode other than voting sends at most one
    request; voting sends its rounds in the order of the temperatures, at
    most three, and a round is only started after the reply to the round
    before has come in; the inference pass adds at most one request.  A
    reply of a voting round that does not parse skips that round only:
    the loop goes on with the next round and the candidates it had. *)
Theorem requests_are_sequential
        (E : Env) (net : network) (m : mode) (template : document)
        (combined_text : pystr) (w : world) :
  let placeholders := find_placeholders template in
  let w' := snd (run_extraction E net m template combined_text w) in
  (exists mode_reqs nm_reqs,
      events w' = events w ++ exchanges net (issued w) (mode_reqs ++ nm_reqs) /\
      issued w' = issued w + length (mode_reqs ++ nm_reqs) /\
      length nm_reqs <= 1 /\
      match m with
      | multi_llm_voting =>
          exists n,
            n <= 3 /\
            mode_reqs = map (voting_request placeholders combined_text)
                          (firstn n [T00; T02; T06]) /\
            forall i, S i < n -> exists out, net (issued w + i) = Content out
      | _ => length mode_reqs <= 1
      end) /\
  (forall t rest c out w0,
      net (issued w0) = Content out ->
      loads_block E out = Raise JSONDecodeError ->
      voting_rounds E net (t :: rest) placeholders combined_text c w0
      = voting_rounds E net rest placeholders combined_text c
          (snd (post net (voting_request placeholders combined_text t) w0))).
Proof.
  cbn zeta. split.
  - unfold run_extraction.
    set (placeholders := find_placeholders template).
    set (fallback := fallback_structured E combined_text placeholders).
    assert (Hmode : exists mode_reqs,
      sends net w (snd (run_mode E net m placeholders combined_text w)) mode_reqs /\
      match m with
      | multi_llm_voting =>
          exists n,
            n <= 3 /\
            mode_reqs = map (voting_request placeholders combined_text)
                          (firstn n [T00; T02; T06]) /\
            forall i, S i < n -> exists out, net (issued w + i) = Content out
      | _ => length mode_reqs <= 1
      end).
    { assert (Hone : forall m0, m0 <> multi_llm_voting ->
        exists mode_reqs,
          sends net w (snd (run_mode E net m0 placeholders combined_text w))
            mode_reqs /\ length mode_reqs <= 1).
      { intros m0 Hm0.
        destruct (run_mode_world E net m0 placeholders combined_text w Hm0)
          as (kind & ->).
        apply call_openrouter_length. }
      destruct m; try (apply Hone; discriminate).
      rewrite run_mode_voting_world.
      destruct (voting_rounds_spec E net placeholders combined_text
                  [T00; T02; T06]
                  (dict_comprehension (fun _ => @nil pystr) placeholders) w)
        as (n & Hn & Hs & Hrep & _).
      eexists. split; [exact Hs|]. exists n. auto. }
    destruct Hmode as (mode_reqs & Hs1 & Hshape).
    exists mode_reqs.
    destruct (run_mode E net m placeholders combined_text w)
      as [[mapping|e] w1] eqn:Hrun.
    + rewrite (bind_ok _ _ _ _ _ Hrun).
      cbn [snd] in Hs1.
      rewrite snd_bind_pure
        by (intros final w0; unfold bind, lift;
            destruct (fill_docx E template final); reflexivity).
      destruct (merge_block_sends E net placeholders fallback combined_text
                  mapping w1) as (nm_reqs & Hs2 & Hlen).
      exists nm_reqs.
      destruct (sends_trans _ _ _ _ _ _ Hs1 Hs2) as [He Hi].
      split; [exact He|]. split; [exact Hi|]. split; [exact Hlen|exact Hshape].
    + rewrite (bind_raise _ _ _ _ _ Hrun).
      cbn [snd] in *. exists []. rewrite app_nil_r.
      destruct Hs1 as [He Hi].
      split; [exact He|]. split; [exact Hi|]. split; [simpl; lia|exact Hshape].
  - intros t rest c out w0 Hnet Hparse. cbn [voting_rounds].
    assert (Hp : post net (voting_request (find_placeholders template)
                             combined_text t) w0
                 = (Ok out, snd (post net (voting_request
                                             (find_placeholders template)
                                             combined_text t) w0))).
    { unfold post. now rewrite Hnet. }
    rewrite (bind_ok _ _ _ _ _ Hp). now rewrite Hparse.
Qed.

(** ** The filled document *)

Lemma run_extraction_ok E net m template text w final out w' :
  run_extraction E net m template text w = (Ok (final, out), w') ->
  fill_docx E template final = Ok out.
Proof.
  unfold run_extraction.
  set (placeholders := find_placeholders template).
  destruct (run_mode E net m placeholders text w) as [[mapping|e] w1] eqn:Hrun.
  - rewrite (bind_ok _ _ _ _ _ Hrun).
    destruct (merge_block E net placeholders
                (fallback_structured E text placeholders) text mapping w1)
      as [[final'|e] w2] eqn:Hmerge.
    + rewrite (bind_ok _ _ _ _ _ Hmerge).
      destruct (fill_docx E template final') as [out'|e] eqn:Hfill.
      * rewrite (bind_ok _ _ _ _ _ (lift_run (Ok out') w2)). unfold ret.
        intros H. inversion H. subst. exact Hfill.
      * rewrite (bind_raise _ _ _ _ _ (lift_run (Raise e) w2)). discriminate.
    + rewrite (bind_raise _ _ _ _ _ Hmerge). discriminate.
  - rewrite (bind_raise _ _ _ _ _ Hrun). discriminate.
Qed.

Lemma filled_functional E mapping : forall s s1 s2,
  filled E mapping s s1 -> filled E mapping s s2 -> s1 = s2.
Proof.
  induction mapping as [|[k v] mapping IH]; intros s s1 s2 H1 H2;
    inversion H1; inversion H2; subst; [reflexivity|].
  match goal with
  | Ha : replaced _ _ s ?a, Hb : replaced _ _ s ?b |- _ =>
      pose proof (replaced_functional _ _ _ _ Ha _ Hb); subst
  end.
  eapply IH; eassumption.
Qed.

(** C5 (amended). When the run offers a document for download, it is
    the document [fill_docx] returns for the uploaded template and the
    final mapping.  It has the lists of paragraphs, tables and sections of
    the template and as many paragraphs.  A paragraph that is neither a
    body paragraph nor a table cell paragraph keeps its runs.  A paragraph
    that is one is left as a single run without formatting, and its text
    is the text of the template after [repl] has run on it once for each
    time the paragraph is listed, so twice for a cell merged over two
    columns.  One run of [repl] goes through the items of the mapping in
    order and replaces, for each key, every occurrence of the token of
    the key in the text as it stands by then, so that a token a value has
    brought in is replaced as well; the text is stored with every
    carriage return turned into a line feed. *)
Theorem download_is_filled_template
        (E : Env) (net : network) (m : mode) (template : document)
        (pdf_texts : list pystr) (final : dict) (out : document) (w : world) :
  app E net m (Some template) pdf_texts true = Some (Ok (final, out), w) ->
  fill_docx E template final = Ok out /\
  paragraphs out = paragraphs template /\
  tables out = tables template /\
  sections out = sections template /\
  length (store out) = length (store template) /\
  (forall p,
      para_text out p
      = Nat.iter (count_occ Nat.eq_dec (filled_paragraphs template) p)
          (written E final) (para_text template p) /\
      (~ In p (filled_paragraphs template) ->
       nth p (store out) [] = nth p (store template) []) /\
      (In p (filled_paragraphs template) -> p < length (store template) ->
       nth p (store out) [] = plain (para_text out p))) /\
  (forall txt txt',
      filled E final txt txt' <-> txt' = repl_text E final txt) /\
  (forall txt, written E final txt = stored_text (repl_text E final txt)).
Proof.
  unfold app. destruct pdf_texts as [|t ts]; [discriminate|].
  intros H. injection H as H. apply run_extraction_ok in H.
  split; [exact H|].
  destruct (fill_docx_ok _ _ _ _ H) as (_ & Hp & Ht & Hs).
  split; [exact Hp|]. split; [exact Ht|]. split; [exact Hs|].
  split; [apply (fill_docx_runs E template final out 0 H)|].
  split; [|split].
  - intros p. split; [now apply fill_docx_text|].
    apply (fill_docx_runs E template final out p H).
  - intros txt txt'. split.
    + intros Hf. eapply filled_functional; [exact Hf|apply repl_text_filled].
    + intros ->. apply repl_text_filled.
  - reflexivity.
Qed.

(** C8. [fill_docx] never modifies a header or a footer: a paragraph of a
    section header or footer (it is not a body or table cell paragraph)
    has the same runs and the same text in the output, so a token that
    occurs in it is still there, although [find_placeholders] reports its
    name. *)
Theorem fill_docx_keeps_headers
        (E : Env) (template : document) (mapping : dict) (out : document)
        (p : nat) :
  fill_docx E template mapping = Ok out ->
  In p (section_paragraphs template) ->
  ~ In p (filled_paragraphs template) ->
  sections out = sections template /\
  nth p (store out) [] = nth p (store template) [] /\
  para_text out p = para_text template p /\
  forall k,
    is_name k -> occurs (token k) (para_text template p) ->
    In k (find_placeholders template) /\
    occurs (token k) (para_text out p).
Proof.
  intros Hfill Hsec Hbody.
  assert (Hruns : nth p (store out) [] = nth p (store template) []).
  { now apply (fill_docx_runs E template mapping out p Hfill). }
  assert (Htext : para_text out p = para_text template p).
  { unfold para_text. now rewrite Hruns. }
  split; [apply (fill_docx_ok _ _ _ _ Hfill)|].
  split; [exact Hruns|]. split; [exact Htext|].
  intros k Hk Hocc. split; [|now rewrite Htext].
  apply find_placeholders_members. split; [assumption|].
  exists p. split; [|assumption].
  unfold scanned_paragraphs. rewrite !in_app_iff. auto.
Qed.

(** ** From the mode to the final mapping *)

Lemma setdefault_loop_high placeholders : forall mc mc',
  for_each placeholders
    (fun '(mapping, confidences) ph =>
       mapping' <- py_setdefault mapping ph VEmpty ;;
       confidences' <- py_setdefault confidences ph
                         (VFloat {| float_is_zero := true;
                                    float_text := lit "0.0" |}) ;;
       Ok (mapping', confidences'))
    mc = Ok mc' ->
  (forall ph d, fst mc = VDict d -> dict_get ph d <> None ->
                exists d', fst mc' = VDict d' /\ dict_get ph d' <> None) /\
  (forall ph, In ph placeholders ->
              exists d', fst mc' = VDict d' /\ dict_get ph d' <> None).
Proof.
  induction placeholders as [|ph0 rest IH]; intros [m c] mc'; cbn [for_each].
  - intros H. injection H as <-. split; [eauto|intros ph []].
  - destruct m as [| | | | | |d]; try discriminate.
    cbn [py_setdefault as_dict rbind].
    destruct c as [| | | | | |cd]; try discriminate.
    cbn [py_setdefault as_dict rbind]. intros Hrest.
    destruct (IH _ _ Hrest) as (Hkeep & Hall). cbn [fst] in *.
    split.
    + intros ph d0 Hd Hph. injection Hd as <-.
      apply (Hkeep ph _ eq_refl). now rewrite dict_setdefault_keeps.
    + intros ph [<-|Hin]; [|now apply Hall].
      apply (Hkeep ph0 _ eq_refl). apply dict_setdefault_present.
Qed.

Lemma k_field_values_evidence : k_evidence <> k_field_values.
Proof. discriminate. Qed.

Lemma audit_loop_entries placeholders : forall parsed parsed',
  for_each placeholders
    (fun parsed ph =>
       p1 <- setdefault_in parsed k_field_values ph VEmpty ;;
       setdefault_in p1 k_evidence ph VEmpty)
    parsed = Ok parsed' ->
  (forall ph, has_entry k_field_values parsed ph ->
              has_entry k_field_values parsed' ph) /\
  (forall ph, In ph placeholders -> has_entry k_field_values parsed' ph).
Proof.
  induction placeholders as [|ph0 rest IH]; intros parsed parsed'; cbn [for_each].
  - intros H. injection H as <-. split; [auto|intros ph []].
  - destruct (setdefault_in parsed k_field_values ph0 VEmpty) as [p1|] eqn:H1;
      [|discriminate].
    cbn [rbind].
    destruct (setdefault_in p1 k_evidence ph0 VEmpty) as [p2|] eqn:H2;
      [|discriminate].
    cbn [rbind]. intros Hrest.
    destruct (IH _ _ Hrest) as (Hkeep & Hall).
    destruct (setdefault_in_spec _ _ _ _ _ H1) as (Hnew1 & Hkeep1 & _).
    destruct (setdefault_in_spec _ _ _ _ _ H2) as (_ & _ & Hother2).
    assert (Hstep : forall ph, has_entry k_field_values p1 ph ->
                               has_entry k_field_values p2 ph).
    { intros ph Hp. apply Hother2; [apply not_eq_sym, k_field_values_evidence|].
      assumption. }
    split.
    + intros ph Hp. apply Hkeep, Hstep, Hkeep1, Hp.
    + intros ph [<-|Hin]; [|now apply Hall].
      apply Hkeep, Hstep, Hnew1.
Qed.

(** Whatever the mode, the mapping it hands to the merge block is a
    dictionary with an entry for every placeholder. *)
Lemma run_mode_entries E net m placeholders text w mapping w' :
  run_mode E net m placeholders text w = (Ok mapping, w') ->
  forall ph, In ph placeholders ->
    exists d, mapping = VDict d /\ dict_get ph d <> None.
Proof.
  destruct m.
  - unfold run_mode, llm_high_accuracy, bind, lift.
    destruct (call_openrouter E net PHighAccuracy placeholders text 1500 w)
      as [[out|e] w1]; [|discriminate].
    destruct (loads_block E out) as [parsed|e]; [|discriminate]. cbn [rbind].
    destruct (py_get_default parsed k_mapping (VDict [])) as [m0|e];
      [|discriminate]. cbn [rbind].
    destruct (py_get_default parsed k_confidences (VDict [])) as [c0|e];
      [|discriminate]. cbn [rbind].
    match goal with
    | |- context [for_each placeholders ?body (m0, c0)] =>
        destruct (for_each placeholders body (m0, c0)) as [mc|e] eqn:Hloop
    end; [|discriminate].
    cbn [rbind py_getitem dict_get]. unfold k_mapping at 1 2.
    rewrite pystr_eqb_refl. intros H. inversion H. subst.
    intros ph Hin.
    destruct (setdefault_loop_high _ _ _ Hloop) as (_ & Hall). now apply Hall.
  - intros H. now apply (run_mode_strict E net _ _ _ _ _ H).
  - unfold run_mode, llm_field_audit, bind, lift.
    destruct (call_openrouter E net PFieldAudit placeholders text 1500 w)
      as [[out|e] w1]; [|discriminate].
    destruct (loads_block E out) as [parsed|e]; [|discriminate]. cbn [rbind].
    match goal with
    | |- context [for_each placeholders ?body parsed] =>
        destruct (for_each placeholders body parsed) as [parsed'|e] eqn:Hloop
    end; [|discriminate].
    intros H. inversion H as [[Hget Hw]]. intros ph Hin.
    destruct (audit_loop_entries _ _ _ Hloop) as (_ & Hall).
    destruct (Hall ph Hin) as (d & inner & -> & Hm & Hph).
    cbn [py_getitem] in Hget. rewrite Hm in Hget. injection Hget as <-. eauto.
  - intros H ph Hin.
    destruct (run_mode_voting E net _ _ _ _ _ H) as (_ & d & -> & _ & Hall).
    destruct (Hall ph Hin) as (s & Hs). exists d. split; [reflexivity|congruence].
Qed.

(** A run that completes has mapped every placeholder of the template to
    some value. *)
Lemma run_extraction_entries E net m template text w final out w' :
  run_extraction E net m template text w = (Ok (final, out), w') ->
  forall ph, In ph (find_placeholders template) -> dict_get ph final <> None.
Proof.
  unfold run_extraction.
  set (placeholders := find_placeholders template).
  set (fallback := fallback_structured E text placeholders).
  destruct (run_mode E net m placeholders text w) as [[mapping|e] w1] eqn:Hrun.
  2:{ rewrite (bind_raise _ _ _ _ _ Hrun). discriminate. }
  rewrite (bind_ok _ _ _ _ _ Hrun).
  destruct (merge_block E net placeholders fallback text mapping w1)
    as [[final'|e] w2] eqn:Hmerge.
  2:{ rewrite (bind_raise _ _ _ _ _ Hmerge). discriminate. }
  rewrite (bind_ok _ _ _ _ _ Hmerge).
  destruct (fill_docx E template final') as [out'|e] eqn:Hdocx.
  2:{ rewrite (bind_raise _ _ _ _ _ (lift_run (Raise e) w2)). discriminate. }
  rewrite (bind_ok _ _ _ _ _ (lift_run (Ok out') w2)). unfold ret.
  intros H ph Hin. inversion H. subst.
  destruct (run_mode_entries E net _ _ _ _ _ _ Hrun ph Hin) as (d & -> & Hph).
  destruct (fill_blanks_dict placeholders fallback d)
    as (d1 & Hfill & Hkeep & Hset & _).
  destruct (merge_block_total E net _ _ text _ _ w1 Hfill)
    as (final0 & w0 & Hm & Hkeys & _).
  rewrite Hmerge in Hm. inversion Hm. subst.
  apply (dict_get_some_of_keys d1 final0 ph Hkeys).
  destruct (truthy_opt (dict_get ph d)) eqn:Ht.
  - now rewrite Hkeep.
  - rewrite Hset by assumption. discriminate.
Qed.

(** ** Concrete runs of the script *)

(** C1, as stated, fails: the model answers [{}], the fallback finds
    nothing and the request of the inference pass fails; the run
    completes and the placeholder [CLAIM_NUMBER] is mapped to the empty
    string. *)
Lemma placeholder_left_empty :
  find_placeholders doc_claim = [lit "CLAIM_NUMBER"] /\
  fst (run_extraction env0 net_empty_then_failed high_accuracy doc_claim
         text_no_data world0)
  = Ok ([(lit "CLAIM_NUMBER", VEmpty)],
        {| store := [plain (lit "Claim: ")]; paragraphs := [0]; tables := [];
           sections := [] |}).
Proof. split; vm_compute; reflexivity. Qed.


(** C4, as stated, fails: the inference pass is answered with
    [{"A": "x", "C": "y", "B": "z"}]; [A] is assigned, [mapping["C"]]
    raises [KeyError], the exception is ignored, and the mapping has
    changed. *)
Lemma failed_pass_changes_mapping :
  fst (no_missing_body env0 net_unknown_key [lit "A"; lit "B"] text_no_data
         [(lit "A", VEmpty); (lit "B", VEmpty)] world0)
  = ([(lit "A", VStr (lit "x")); (lit "B", VEmpty)], Raise KeyError) /\
  fst (no_missing_pass env0 net_unknown_key [lit "A"; lit "B"] text_no_data
         [(lit "A", VEmpty); (lit "B", VEmpty)] world0)
  = Ok [(lit "A", VStr (lit "x")); (lit "B", VEmpty)].
Proof. split; vm_compute; reflexivity. Qed.

(** C6, as stated, fails: the number [12345] the model gives for [ZIP]
    reaches the final mapping as a number, from the extraction reply
    [{"mapping": {"ZIP": 12345}}] and from the reply [{"ZIP": 12345}] of
    the inference pass alike. *)
Lemma final_mapping_holds_a_number :
  fst (run_extraction env0 net_mapping_zip high_accuracy doc_zip text_no_data
         world0)
  = Ok ([(lit "ZIP", VInt 12345)],
        {| store := [plain (lit "ZIP: 12345")]; paragraphs := [0]; tables := [];
           sections := [] |}) /\
  fst (run_extraction env0 net_empty_then_zip high_accuracy doc_zip
         text_no_data world0)
  = Ok ([(lit "ZIP", VInt 12345)],
        {| store := [plain (lit "ZIP: 12345")]; paragraphs := [0]; tables := [];
           sections := [] |}).
Proof. split; vm_compute; reflexivity. Qed.

(** C5, as stated, fails.  The model gives [A] the value [[B]], which
    is the token of the next key, and [C] a value that holds the token of
    [C]; the body paragraph [[A]] of the template ends as [z], not as
    [[B]], and the merged cell, which python-docx lists twice, ends as
    [Cell xx[C]], not as [Cell x[C]]. *)
Lemma token_in_value_is_replaced_again :
  option_map fst
    (app env0 net_nested high_accuracy (Some doc_nested) [text_no_data] true)
  = Some (Ok (mapping_nested, doc_nested_filled)) /\
  para_text doc_nested_filled 0 = lit "z" /\
  claimed_text env0 mapping_nested (para_text doc_nested 0) = lit "[B]" /\
  para_text doc_nested_filled 1 = lit "Cell xx[C]" /\
  claimed_text env0 mapping_nested (para_text doc_nested 1) = lit "Cell x[C]".
Proof. repeat split; vm_compute; reflexivity. Qed.

(** A run of the whole script: the template has a body paragraph of two
    runs, a merged table cell and a header; the download is the filled
    template, the body paragraph is left as one run and the paragraph of
    the merged cell was passed to [repl] twice. *)
Lemma download_is_filled_template_witness :
  fill_docx env0 doc_header mapping_name_ref = Ok doc_header_filled /\
  para_text doc_header_filled 3
  = Nat.iter 2 (written env0 mapping_name_ref) (lit "Cell [NAME]") /\
  nth 0 (store doc_header_filled) [] = plain (lit "Insured: Ada").
Proof.
  assert (H : app env0 net_name_ref high_accuracy (Some doc_header)
                [text_no_data] true
              = Some (Ok (mapping_name_ref, doc_header_filled),
                      snd (run_extraction env0 net_name_ref high_accuracy
                             doc_header (combine_texts [text_no_data]) world0)))
    by (vm_compute; reflexivity).
  destruct (download_is_filled_template _ _ _ _ _ _ _ _ H)
    as (Hfill & _ & _ & _ & _ & Htext & _).
  split; [exact Hfill|].
  destruct (Htext 3) as (H3 & _). split; [exact H3|].
  destruct (Htext 0) as (_ & _ & H0).
  apply H0; [simpl; auto|simpl; lia].
Defined.

(** The header of [doc_header] keeps its formatted run and its tokens,
    and [REF], which occurs in the header only, is reported all the
    same. *)
Lemma fill_docx_keeps_headers_witness :
  para_text doc_header_filled 1 = lit "Page header [NAME] [REF]" /\
  In (lit "REF") (find_placeholders doc_header).
Proof.
  assert (H0 : fill_docx env0 doc_header mapping_name_ref
               = Ok doc_header_filled) by (vm_compute; reflexivity).
  assert (H1 : In 1 (section_paragraphs doc_header)) by (simpl; auto).
  assert (H2 : ~ In 1 (filled_paragraphs doc_header)).
  { simpl. intros [H|[H|[H|[]]]]; discriminate. }
  destruct (fill_docx_keeps_headers env0 doc_header mapping_name_ref
              doc_header_filled 1 H0 H1 H2)
    as (_ & _ & Htext & Hk).
  split; [exact Htext|].
  apply (Hk (lit "REF")).
  - split; [discriminate|reflexivity].
  - exists (lit "Page header [NAME] "), []. reflexivity.
Defined.

(** A merge in which the model gives strings: the inference pass is
    answered with [{"ZIP": "12345"}]. *)
Lemma merge_block_strings_witness :
  exists final w',
    merge_block env0 net_zip_str [lit "ZIP"]
      (fallback_structured env0 text_no_data [lit "ZIP"]) text_no_data
      (VDict [(lit "ZIP", VEmpty)]) world0 = (Ok final, w') /\
    all_strings final.
Proof.
  apply merge_block_strings.
  - repeat constructor.
  - intros out items Hnet Hloads. cbv [net_zip_str] in Hnet.
    injection Hnet as <-. vm_compute in Hloads. injection Hloads as <-.
    repeat constructor.
Defined.

(** Further runs. *)

Example extract_block_nested :
  extract_first_json_block (lit "abc {x{y}z} }{") = lit "{x{y}z}".
Proof. reflexivity. Qed.

Example extract_block_unbalanced :
  extract_first_json_block (lit "abc {x{y}z") = [].
Proof. reflexivity. Qed.

Example findall_example :
  findall (lit "x[A][A_1]y[[b]] [] [a b] [c") = [lit "A"; lit "A_1"; lit "b"].
Proof. reflexivity. Qed.

Example find_placeholders_example :
  find_placeholders doc_header = [lit "NAME"; lit "REF"].
Proof. vm_compute. reflexivity. Qed.

Example replace_example :
  py_replace (lit "[A]") (lit "v") (lit "x[A][A]y[[A]]") = lit "xvvy[v]".
Proof. reflexivity. Qed.

Example winner_first_of_ties :
  winner [lit "a"; lit "b"; lit "b"; lit "a"; lit "c"] = lit "a".
Proof. vm_compute. reflexivity. Qed.

Example merged_cell_filled :
  fill_docx env0 doc_header mapping_name_ref = Ok doc_header_filled /\
  para_text doc_header_filled 3 = lit "Cell Ada".
Proof. split; vm_compute; reflexivity. Qed.

(** A pass that meets an unknown key, from the template on: [B] stays
    empty and [A] holds the value assigned before the exception. *)
Example run_with_unknown_key :
  fst (run_extraction env0 net_unknown_key high_accuracy doc_ab text_no_data
         world0)
  = Ok ([(lit "A", VStr (lit "x")); (lit "B", VEmpty)],
        {| store := [plain (lit "x and ")]; paragraphs := [0]; tables := [];
           sections := [] |}).
Proof. vm_compute. reflexivity. Qed.

(** A value that holds a control character: the setter of [p.text]
    raises and no document is made. *)
Example control_character_raises :
  fill_docx env0 doc_claim mapping_control = Raise ValueError.
Proof. vm_compute. reflexivity. Qed.

(** * Further properties of the script *)

(** ** [extract_first_json_block] on a reply *)

Lemma find_char_app c pre s :
  ~ In c pre -> find_char c (pre ++ c :: s) = Some (length pre).
Proof.
  induction pre as [|x pre IH]; simpl; intros H.
  - now rewrite Ascii.eqb_refl.
  - destruct (Ascii.eqb x c) eqn:Hx.
    + apply Ascii.eqb_eq in Hx. tauto.
    + rewrite IH; tauto.
Qed.

Lemma balanced_block_cons blk :
  balanced_block blk -> exists b, blk = lbrace :: b.
Proof.
  intros (Hhd & _). destruct blk as [|c b]; [discriminate|].
  injection Hhd as ->. eauto.
Qed.

(** Of two balanced blocks that start the same text, neither is a proper
    prefix of the other. *)
Lemma balanced_block_not_shorter blk blk' post post' :
  blk ++ post = blk' ++ post' ->
  balanced_block blk -> balanced_block blk' ->
  ~ length blk' < length blk.
Proof.
  intros He (_ & _ & _ & Hopen) Hb' Hlt.
  destruct (balanced_block_cons _ Hb') as (b' & Hb'c).
  destruct Hb' as (_ & _ & Hd' & _).
  assert (Hpre : firstn (length blk') blk = blk').
  { apply (f_equal (firstn (length blk'))) in He.
    rewrite firstn_app_le in He by lia.
    rewrite firstn_app, firstn_all, Nat.sub_diag in He. simpl in He.
    now rewrite app_nil_r in He. }
  specialize (Hopen (length blk')). rewrite Hpre in Hopen.
  assert (0 < length blk') by (rewrite Hb'c; simpl; lia).
  lia.
Qed.

Lemma balanced_block_unique blk blk' post post' :
  blk ++ post = blk' ++ post' ->
  balanced_block blk -> balanced_block blk' -> blk = blk'.
Proof.
  intros He Hb Hb'.
  pose proof (balanced_block_not_shorter _ _ _ _ He Hb Hb') as H1.
  symmetry in He.
  pose proof (balanced_block_not_shorter _ _ _ _ He Hb' Hb) as H2.
  symmetry in He.
  assert (Hl : length blk = length blk') by lia.
  apply (app_eq_same_length _ _ _ _ Hl He).
Qed.

Lemma extract_of_wrapped pre blk post :
  ~ In lbrace pre -> balanced_block blk ->
  extract_first_json_block (pre ++ blk ++ post) = blk.
Proof.
  intros Hpre Hb. destruct (balanced_block_cons _ Hb) as (b & Hbc).
  unfold extract_first_json_block.
  assert (Hf : find_char lbrace (pre ++ blk ++ post) = Some (length pre)).
  { rewrite Hbc. simpl. now apply find_char_app. }
  rewrite Hf, skipn_app, skipn_all, Nat.sub_diag. simpl skipn.
  pose proof (scan_braces_spec pre (blk ++ post) []) as H.
  simpl in H. rewrite Nat.add_0_r in H.
  destruct H as [(blk' & post' & He & Hb' & Hout)|[Hopen _]].
  - rewrite Hbc. reflexivity.
  - intros n Hn. lia.
  - rewrite app_nil_l. rewrite Hout. symmetry.
    eapply balanced_block_unique; eassumption.
  - exfalso. destruct Hb as (_ & _ & Hd & _).
    specialize (Hopen (length blk)).
    rewrite firstn_app, firstn_all, Nat.sub_diag in Hopen. simpl in Hopen.
    rewrite app_nil_r, Hd in Hopen.
    assert (0 < length blk <= length (blk ++ post)).
    { rewrite length_app, Hbc. simpl. lia. }
    lia.
Qed.

Lemma extract_result_shape text :
  extract_first_json_block text = [] \/
  balanced_block (extract_first_json_block text).
Proof.
  unfold extract_first_json_block.
  destruct (find_char lbrace text) as [start|] eqn:Hf; [|now left].
  destruct (find_char_some _ _ _ Hf) as (pre & suf & -> & Hpre & Hlen).
  subst start. rewrite skipn_app, skipn_all, Nat.sub_diag. simpl skipn.
  pose proof (scan_braces_spec pre (lbrace :: suf) [] eq_refl) as H.
  simpl in H. rewrite Nat.add_0_r in H.
  destruct H as [(blk & post & Hb & Hbal & Hout)|[Hopen Hout]].
  - intros n Hn. lia.
  - right. simpl. now rewrite Hout.
  - left. exact Hout.
Qed.

(** X1. Prose around the JSON object of a reply is dropped: when the text
    before the first opening brace is followed by a block that closes at
    the brace balancing its first one, [extract_first_json_block] returns
    exactly that block, whatever follows it. *)
Theorem extract_drops_surrounding_text (pre blk post : pystr) :
  ~ In lbrace pre -> balanced_block blk ->
  extract_first_json_block (pre ++ blk ++ post) = blk.
Proof. apply extract_of_wrapped. Qed.

(** X2. [extract_first_json_block] is idempotent: a block it returns is
    returned unchanged when it is given back. *)
Theorem extract_first_json_block_idempotent (text : pystr) :
  extract_first_json_block (extract_first_json_block text)
  = extract_first_json_block text.
Proof.
  destruct (extract_result_shape text) as [H|H].
  - rewrite H. reflexivity.
  - pose proof (extract_of_wrapped [] _ [] (fun x => x) H) as He.
    simpl in He. now rewrite app_nil_r in He.
Qed.

Lemma extract_drops_surrounding_text_witness :
  extract_first_json_block (lit "Sure: {x{y}z} done}") = lit "{x{y}z}".
Proof.
  assert (Hpre : ~ In lbrace (lit "Sure: ")).
  { simpl. intuition discriminate. }
  assert (Hb : balanced_block (lit "{x{y}z}")).
  { repeat split; try reflexivity.
    intros n Hn. simpl in Hn.
    do 7 (destruct n as [|n]; [simpl; lia|]). lia. }
  exact (extract_drops_surrounding_text (lit "Sure: ") (lit "{x{y}z}")
           (lit " done}") Hpre Hb).
Defined.

(** ** Paragraphs without tokens, blank PDFs, order of the placeholders *)

Lemma repl_text_no_token E mapping : forall txt,
  (forall k v, In (k, v) mapping -> ~ occurs (token k) txt) ->
  repl_text E mapping txt = txt.
Proof.
  unfold repl_text. induction mapping as [|[k v] mapping IH]; intros txt H;
    simpl; [reflexivity|].
  assert (Hc : contains (token k) txt = false).
  { destruct (contains (token k) txt) eqn:Hc; [|reflexivity].
    apply contains_spec in Hc. exfalso. apply (H k v); [now left|assumption]. }
  unfold repl_item at 2. cbn [fst snd]. rewrite Hc.
  apply IH. intros k' v' Hin. apply (H k' v'). now right.
Qed.

Lemma iter_fixed {A} (f : A -> A) x n : f x = x -> Nat.iter n f x = x.
Proof. intros H. induction n as [|n IH]; simpl; congruence. Qed.

(** X3. A paragraph in which the token of no key of the mapping occurs
    has the same text after [fill_docx], however often it is listed.  The
    text is one [p.text] can give, that is without a carriage return. *)
Theorem fill_docx_keeps_plain_paragraphs
        (E : Env) (template : document) (mapping : dict) (out : document)
        (p : nat) :
  fill_docx E template mapping = Ok out ->
  (forall k v, In (k, v) mapping ->
               ~ occurs (token k) (para_text template p)) ->
  stored_text (para_text template p) = para_text template p ->
  para_text out p = para_text template p.
Proof.
  intros Hfill H Hstored. rewrite (fill_docx_text _ _ _ _ p Hfill).
  apply iter_fixed. unfold written.
  now rewrite repl_text_no_token.
Qed.

Lemma fill_docx_keeps_plain_paragraphs_witness :
  exists out,
    fill_docx env0 doc_plain mapping_amount = Ok out /\
    para_text out 0 = lit "No tokens here".
Proof.
  destruct (fill_docx env0 doc_plain mapping_amount) as [out|e] eqn:Hfill;
    [|vm_compute in Hfill; discriminate].
  exists out. split; [reflexivity|].
  apply (fill_docx_keeps_plain_paragraphs env0 doc_plain mapping_amount out 0
           Hfill).
  - intros k v [H|[]]. injection H as <- <-.
    intros Hocc. apply contains_spec in Hocc. vm_compute in Hocc. discriminate.
  - reflexivity.
Defined.

Lemma join_nil_inv sep parts :
  join sep parts = [] -> Forall (fun p => p = []) parts.
Proof.
  induction parts as [|p rest IH]; intros H; [constructor|].
  destruct rest as [|p' rest'].
  - simpl in H. subst. repeat constructor.
  - cbn [join] in H. apply app_eq_nil in H as [-> H].
    apply app_eq_nil in H as [_ H]. constructor; auto.
Qed.

Lemma join_occurs sep parts p : In p parts -> occurs p (join sep parts).
Proof.
  induction parts as [|x rest IH]; intros Hin; [destruct Hin|].
  destruct rest as [|y rest'].
  - destruct Hin as [->|[]]. exists [], []. cbn [join app].
    now rewrite app_nil_r.
  - change (join sep (x :: y :: rest'))
      with (x ++ sep ++ join sep (y :: rest')).
    destruct Hin as [->|Hin].
    + exists [], (sep ++ join sep (y :: rest')). reflexivity.
    + destruct (IH Hin) as (pre & post & He). rewrite He.
      exists (x ++ sep ++ pre), post. now rewrite <- !app_assoc.
Qed.

Lemma combine_texts_nil_iff pdf_texts :
  combine_texts pdf_texts = [] <-> Forall blank pdf_texts.
Proof.
  unfold combine_texts, blank. split.
  - intros H. apply join_nil_inv in H. rewrite Forall_forall in *.
    intros t Hin. destruct (strip t) as [|c s] eqn:Hs; [reflexivity|].
    assert (Ht : t = []).
    { apply H. apply filter_In. split; [assumption|]. now rewrite Hs. }
    subst t. discriminate.
  - intros H.
    assert (Hf : filter (fun txt => match strip txt with
                                    | [] => false
                                    | _ :: _ => true
                                    end) pdf_texts = []).
    { induction H as [|t ts Ht Hts IH]; simpl; [reflexivity|].
      now rewrite Ht. }
    now rewrite Hf.
Qed.

(** X4. The combined text holds every text that is not blank, in the
    order of the uploads and with an empty line between two of them, and
    nothing of a blank text; so it is empty exactly when every uploaded
    PDF gave a blank text. *)
Theorem combine_texts_keeps_non_blank_texts (pdf_texts : list pystr) :
  (combine_texts pdf_texts = [] <-> Forall blank pdf_texts) /\
  (forall txt, In txt pdf_texts -> ~ blank txt ->
               occurs txt (combine_texts pdf_texts)) /\
  (forall l1 txt l2, pdf_texts = l1 ++ txt :: l2 -> blank txt ->
                     combine_texts pdf_texts = combine_texts (l1 ++ l2)) /\
  (forall txt rest, pdf_texts = txt :: rest -> ~ blank txt ->
     combine_texts pdf_texts
     = match combine_texts rest with
       | [] => txt
       | (_ :: _) as more => txt ++ [line_feed; line_feed] ++ more
       end).
Proof.
  split; [apply combine_texts_nil_iff|]. split; [|split].
  - intros txt Hin Hnb. unfold combine_texts. apply join_occurs.
    apply filter_In. split; [assumption|].
    unfold blank in Hnb. destruct (strip txt); [congruence|reflexivity].
  - intros l1 txt l2 -> Hb. unfold combine_texts, blank in *.
    rewrite !filter_app. cbn [filter]. now rewrite Hb.
  - intros txt rest -> Hnb.
    unfold combine_texts, blank in *. cbn [filter].
    destruct (strip txt); [congruence|].
    destruct (filter _ rest) as [|y more] eqn:Hf; [reflexivity|].
    match goal with
    | |- join ?sep (?a :: y :: more) = _ =>
        change (join sep (a :: y :: more))
          with (a ++ sep ++ join sep (y :: more))
    end.
    destruct (join _ (y :: more)) as [|c j] eqn:Hj.
    + exfalso. apply join_nil_inv in Hj.
      assert (Hy : In y (filter (fun txt0 => match strip txt0 with
                                             | [] => false
                                             | _ :: _ => true
                                             end) rest))
        by (rewrite Hf; now left).
      apply filter_In in Hy as [_ Hs]. inversion Hj as [|? ? Hy0 _]; subst.
      discriminate.
    + reflexivity.
Qed.

Lemma sorted_nodup_unique (l1 l2 : list pystr) :
  StronglySorted pystr_le l1 -> StronglySorted pystr_le l2 ->
  NoDup l1 -> NoDup l2 ->
  (forall k, In k l1 <-> In k l2) -> l1 = l2.
Proof.
  revert l2. induction l1 as [|x l1 IH]; intros l2 Hs1 Hs2 Hn1 Hn2 Hiff.
  - destruct l2 as [|y l2]; [reflexivity|].
    exfalso. apply (proj2 (Hiff y)). now left.
  - destruct l2 as [|y l2].
    { exfalso. apply (proj1 (Hiff x)). now left. }
    inversion Hs1 as [|? ? Hs1' Hall1]; subst.
    inversion Hs2 as [|? ? Hs2' Hall2]; subst.
    inversion Hn1 as [|? ? Hx Hn1']; subst.
    inversion Hn2 as [|? ? Hy Hn2']; subst.
    rewrite Forall_forall in Hall1, Hall2.
    assert (Hxy : x = y).
    { assert (Hle1 : pystr_le x y).
      { destruct (proj2 (Hiff y) (or_introl eq_refl)) as [->|Hin];
          [apply pystr_leb_refl|now apply Hall1]. }
      assert (Hle2 : pystr_le y x).
      { destruct (proj1 (Hiff x) (or_introl eq_refl)) as [->|Hin];
          [apply pystr_leb_refl|now apply Hall2]. }
      now apply pystr_leb_antisym. }
    subst y. f_equal. apply IH; try assumption.
    intros k. split; intros Hin.
    + destruct (proj1 (Hiff k) (or_intror Hin)) as [->|H]; [tauto|assumption].
    + destruct (proj2 (Hiff k) (or_intror Hin)) as [->|H]; [tauto|assumption].
Qed.

Lemma find_placeholders_sorted_nodup doc :
  StronglySorted pystr_le (find_placeholders doc) /\
  NoDup (find_placeholders doc).
Proof.
  rewrite find_placeholders_unfold. split.
  - apply sorted_strongly.
  - apply sorted_nodup, scan_nodup. constructor.
Qed.

(** X5. The list of placeholders depends only on which names occur in
    the scanned paragraphs, not on where or how often they occur: two
    documents in which the same names occur between brackets have the
    same list. *)
Theorem find_placeholders_canonical (doc1 doc2 : document) :
  (forall k, is_name k ->
     ((exists p, In p (scanned_paragraphs doc1) /\
                 occurs (token k) (para_text doc1 p)) <->
      (exists p, In p (scanned_paragraphs doc2) /\
                 occurs (token k) (para_text doc2 p)))) ->
  find_placeholders doc1 = find_placeholders doc2.
Proof.
  intros H.
  destruct (find_placeholders_sorted_nodup doc1) as [Hs1 Hn1].
  destruct (find_placeholders_sorted_nodup doc2) as [Hs2 Hn2].
  apply sorted_nodup_unique; try assumption.
  intros k. rewrite !find_placeholders_members.
  split; intros [Hk Hp]; (split; [assumption|]); now apply (H k Hk).
Qed.

Lemma find_placeholders_canonical_witness :
  find_placeholders doc_ab = find_placeholders doc_ba.
Proof.
  apply find_placeholders_canonical. intros k Hk.
  assert (H1 : forall doc,
    (exists p, In p (scanned_paragraphs doc) /\
               occurs (token k) (para_text doc p)) <->
    In k (find_placeholders doc)).
  { intros doc. rewrite find_placeholders_members. tauto. }
  rewrite !H1.
  change (In k [lit "A"; lit "B"] <-> In k [lit "A"; lit "B"]). tauto.
Defined.

(** ** The API key *)

(** X6. Without an API key (unset or empty) the three modes that go
    through [call_openrouter] raise [RuntimeError] before anything is
    sent, and the inference pass, which ignores the exception, sends
    nothing and leaves the mapping as it is. *)
Theorem missing_key_sends_nothing
        (E : Env) (net : network) (m : mode) (placeholders : list pystr)
        (text : pystr) (still_empty : list pystr) (mapping : dict) (w : world) :
  key_set E = false ->
  (m <> multi_llm_voting ->
   run_mode E net m placeholders text w = (Raise RuntimeError, w)) /\
  no_missing_pass E net still_empty text mapping w = (Ok mapping, w).
Proof.
  intros Hkey. split.
  - intros Hm.
    destruct m; try congruence;
      unfold run_mode, llm_high_accuracy, llm_strict_validation,
        llm_field_audit, bind, call_openrouter; now rewrite Hkey.
  - unfold no_missing_pass, no_missing_body, call_openrouter.
    now rewrite Hkey.
Qed.

Lemma missing_key_sends_nothing_witness :
  run_mode env_no_key net_ax high_accuracy [lit "A"] text_no_data world0
  = (Raise RuntimeError, world0) /\
  no_missing_pass env_no_key net_ax [lit "A"] text_no_data
    [(lit "A", VEmpty)] world0 = (Ok [(lit "A", VEmpty)], world0).
Proof.
  destruct (missing_key_sends_nothing env_no_key net_ax high_accuracy
              [lit "A"] text_no_data [lit "A"] [(lit "A", VEmpty)] world0
              eq_refl) as [H1 H2].
  split; [apply H1; discriminate|exact H2].
Defined.

Lemma voting_rounds_events E net placeholders text temps c w :
  exists more,
    events (snd (voting_rounds E net temps placeholders text c w))
    = events w ++ more.
Proof.
  destruct (voting_rounds_spec E net placeholders text temps c w)
    as (n & _ & [He _] & _).
  eexists. exact He.
Qed.

(** X7. The voting mode does not look at the API key: in every
    environment, set key or not, its run starts by sending the request of
    the first round, at temperature 0.0. *)
Theorem voting_sends_without_key_check
        (E : Env) (net : network) (placeholders : list pystr) (text : pystr)
        (w : world) :
  exists more,
    events (snd (run_mode E net multi_llm_voting placeholders text w))
    = events w
      ++ EvRequest (voting_request placeholders text T00)
      :: EvReply (net (issued w)) :: more.
Proof.
  rewrite run_mode_voting_world. cbn [voting_rounds].
  set (c0 := dict_comprehension (fun _ => @nil pystr) placeholders).
  pose proof (post_sends net (voting_request placeholders text T00) w)
    as [He _].
  destruct (post net (voting_request placeholders text T00) w)
    as [[out|e] w1] eqn:Hp; cbn [snd exchanges] in He.
  - rewrite (bind_ok _ _ _ _ _ Hp).
    assert (Hrest : forall c,
      exists more,
        events (snd (voting_rounds E net [T02; T06] placeholders text c w1))
        = events w ++ EvRequest (voting_request placeholders text T00)
                   :: EvReply (net (issued w)) :: more).
    { intros c.
      destruct (voting_rounds_events E net placeholders text [T02; T06] c w1)
        as (more & Hm).
      exists more. rewrite Hm, He, <- app_assoc. reflexivity. }
    destruct (loads_block E out) as [parsed|e]; [|apply Hrest].
    destruct (collect_round placeholders parsed c0) as [c1|e].
    + rewrite (bind_ok _ _ _ _ _ (lift_run (Ok c1) w1)). apply Hrest.
    + rewrite (bind_raise _ _ _ _ _ (lift_run (Raise e) w1)).
      exists []. exact He.
  - rewrite (bind_raise _ _ _ _ _ Hp). exists []. exact He.
Qed.

(** ** The update loop of the inference pass *)

Lemma nm_update_outside items : forall mapping k,
  ~ In k (dict_keys items) ->
  dict_get k (fst (nm_update items mapping)) = dict_get k mapping.
Proof.
  intros mapping k Hk.
  destruct (nm_update_spec items mapping) as (_ & _ & Hnew).
  destruct (Hnew k) as [H|(_ & v & Hin & _)]; [exact H|].
  exfalso. apply Hk. unfold dict_keys. apply in_map_iff. now exists (k, v).
Qed.

Lemma existsb_key_get (d : dict) k :
  existsb (pystr_eqb k) (dict_keys d) = true <-> dict_get k d <> None.
Proof.
  rewrite dict_get_keys, existsb_exists. split.
  - intros (x & Hin & Hx). apply pystr_eqb_eq in Hx. now subst.
  - intros Hin. exists k. split; [assumption|apply pystr_eqb_refl].
Qed.

Lemma known_keys_same_keys items (m1 m2 : dict) :
  dict_keys m1 = dict_keys m2 -> known_keys items m1 = known_keys items m2.
Proof. unfold known_keys. now intros ->. Qed.

Lemma known_keys_cons k0 v0 items (mapping : dict) :
  known_keys ((k0, v0) :: items) mapping
  = existsb (pystr_eqb k0) (dict_keys mapping) && known_keys items mapping.
Proof. reflexivity. Qed.

(** X8. The update loop of the inference pass runs to its end exactly
    when every key of the model's object is a key of the mapping;
    otherwise it is left by [KeyError] at the first unknown key. *)
Theorem nm_update_outcome (items mapping : dict) :
  snd (nm_update items mapping)
  = if known_keys items mapping then Ok tt else Raise KeyError.
Proof.
  revert mapping. induction items as [|[k0 v0] items IH]; intros mapping.
  - reflexivity.
  - cbn [nm_update]. rewrite known_keys_cons.
    destruct (dict_get k0 mapping) as [cur|] eqn:Hcur.
    + assert (He : existsb (pystr_eqb k0) (dict_keys mapping) = true).
      { apply existsb_key_get. congruence. }
      rewrite He. cbn [andb].
      rewrite IH.
      rewrite (known_keys_same_keys items _ mapping); [reflexivity|].
      destruct (is_empty_str cur); [|reflexivity].
      apply dict_keys_set_present. congruence.
    + assert (He : existsb (pystr_eqb k0) (dict_keys mapping) = false).
      { destruct (existsb (pystr_eqb k0) (dict_keys mapping)) eqn:He;
          [|reflexivity].
        apply existsb_key_get in He. congruence. }
      rewrite He. reflexivity.
Qed.

Lemma nm_update_fills items : forall mapping,
  NoDup (dict_keys items) -> known_keys items mapping = true ->
  forall k v, In (k, v) items -> dict_get k mapping = Some VEmpty ->
              dict_get k (fst (nm_update items mapping)) = Some v.
Proof.
  induction items as [|[k0 v0] items IH]; intros mapping Hnd Hknown k v Hin Hk;
    [contradiction|].
  cbn [dict_keys map fst] in Hnd. inversion Hnd as [|? ? Hk0 Hnd']; subst.
  rewrite known_keys_cons in Hknown.
  apply andb_prop in Hknown as [Hk0m Hknown].
  cbn [nm_update].
  destruct (dict_get k0 mapping) as [cur|] eqn:Hcur.
  2:{ apply (existsb_key_get mapping k0) in Hk0m. congruence. }
  destruct Hin as [Heq|Hin].
  - injection Heq as -> ->. rewrite Hk in Hcur. injection Hcur as <-.
    cbn [is_empty_str VEmpty]. rewrite nm_update_outside by assumption.
    apply dict_get_set_same.
  - assert (Hne : k <> k0).
    { intros ->. apply Hk0. unfold dict_keys. apply in_map_iff.
      now exists (k0, v). }
    apply IH; try assumption.
    + erewrite known_keys_same_keys; [exact Hknown|].
      destruct (is_empty_str cur); [|reflexivity].
      apply dict_keys_set_present. congruence.
    + destruct (is_empty_str cur); [|assumption].
      now rewrite dict_get_set_other.
Qed.

(** X9. When the reply of the inference pass is an object all of whose
    keys the mapping has, the pass assigns every entry that was the empty
    string and that the object names the value the object gives it. *)
Theorem pass_fills_named_entries
        (E : Env) (net : network) (still_empty : list pystr) (text : pystr)
        (mapping : dict) (w : world) (out : pystr) (items : dict) :
  key_set E = true ->
  net (issued w) = Content out ->
  loads_block E out = Ok (VDict items) ->
  NoDup (dict_keys items) ->
  known_keys items mapping = true ->
  exists final w',
    no_missing_pass E net still_empty text mapping w = (Ok final, w') /\
    forall k v, In (k, v) items -> dict_get k mapping = Some VEmpty ->
                dict_get k final = Some v.
Proof.
  intros Hkey Hnet Hloads Hnd Hknown.
  rewrite no_missing_pass_body. eexists _, _. split; [reflexivity|].
  unfold no_missing_body, call_openrouter, post.
  rewrite Hkey, Hnet, Hloads. cbn [py_items as_dict fst].
  now apply nm_update_fills.
Qed.

Lemma pass_fills_named_entries_witness :
  exists final w',
    no_missing_pass env0 net_axbz [lit "A"; lit "B"] text_no_data
      [(lit "A", VEmpty); (lit "B", VEmpty)] world0 = (Ok final, w') /\
    forall k v, In (k, v) [(lit "A", VStr (lit "x")); (lit "B", VStr (lit "z"))] ->
                dict_get k [(lit "A", VEmpty); (lit "B", VEmpty)] = Some VEmpty ->
                dict_get k final = Some v.
Proof.
  apply (pass_fills_named_entries env0 net_axbz [lit "A"; lit "B"] text_no_data
           [(lit "A", VEmpty); (lit "B", VEmpty)] world0 reply_axbz
           [(lit "A", VStr (lit "x")); (lit "B", VStr (lit "z"))]).
  - reflexivity.
  - reflexivity.
  - vm_compute. reflexivity.
  - repeat constructor; simpl; intuition discriminate.
  - vm_compute. reflexivity.
Defined.

(** ** The fallback *)

Lemma dict_comprehension_get {V} (f : pystr -> V) ks k :
  dict_get k (dict_comprehension f ks)
  = if pystr_in_dec k ks then Some (f k) else None.
Proof.
  unfold dict_comprehension.
  assert (H : forall d,
    dict_get k (fold_left (fun d k => dict_set k (f k) d) ks d)
    = if pystr_in_dec k ks then Some (f k) else dict_get k d).
  { induction ks as [|k0 ks IH]; intros d; simpl.
    - now destruct (pystr_in_dec k []).
    - rewrite IH.
      destruct (pystr_in_dec k ks) as [Hin|Hin];
        destruct (pystr_in_dec k (k0 :: ks)) as [Hin'|Hin'];
        try reflexivity; try (exfalso; simpl in *; tauto).
      + destruct Hin' as [->|Hin']; [apply dict_get_set_same|tauto].
      + apply dict_get_set_other. simpl in Hin'. intros ->. tauto. }
  rewrite H. now destruct (pystr_in_dec k ks).
Qed.

Lemma fallback_inv_set placeholders d0 d k s :
  In k regex_keys -> fallback_inv placeholders d0 d ->
  fallback_inv placeholders d0 (dict_set k (VStr s) d).
Proof.
  intros Hk (Hs & Hkeys & Hget & Hpres). repeat split.
  - now apply all_strings_set.
  - intros k' Hin. apply dict_keys_set_in in Hin as [->|Hin]; auto.
  - intros k' Hk'. rewrite dict_get_set_other; [now apply Hget|].
    intros ->. tauto.
  - intros k' Hk'. destruct (list_eq_dec ascii_dec k' k) as [->|Hne].
    + rewrite dict_get_set_same. discriminate.
    + rewrite dict_get_set_other by assumption. now apply Hpres.
Qed.

Ltac regex_key := unfold regex_keys; simpl; tauto.

(** The dictionary before the test on [DATE_RECEIVED]. *)
Lemma fallback_regex_part E pdf_text placeholders :
  exists data,
    fallback_inv placeholders (dict_comprehension (fun _ => VEmpty) placeholders)
      data /\
    fallback_structured E pdf_text placeholders
    = match dict_get k_date_received data with
      | Some _ => dict_set k_date_received (VStr (today E)) data
      | None => data
      end.
Proof.
  unfold fallback_structured, set_if.
  set (d0 := dict_comprehension (fun _ => VEmpty) placeholders).
  assert (H0 : fallback_inv placeholders d0 d0).
  { repeat split; auto.
    - apply all_strings_comprehension.
    - intros k Hin. left. apply dict_get_keys in Hin. unfold d0 in Hin.
      rewrite dict_comprehension_get in Hin.
      now destruct (pystr_in_dec k placeholders). }
  destruct (search_insured E pdf_text);
  destruct (search_address E pdf_text) as [[[[g1 g2] g3] g4]|];
  destruct (search_date E pdf_text);
  destruct (search_mortgagee E pdf_text);
  (eexists; split; [|reflexivity]);
  repeat (apply fallback_inv_set; [regex_key|]); exact H0.
Qed.

Lemma date_received_not_regex : ~ In k_date_received regex_keys.
Proof. unfold regex_keys. simpl. intuition discriminate. Qed.

(** X10. What [fallback_structured] returns: every value is a string;
    every placeholder has an entry, and a key that is no placeholder is
    one of the seven keys fed by a regex match; a placeholder that is
    none of those seven and not [DATE_RECEIVED] is mapped to the empty
    string, whatever the text; [DATE_RECEIVED] is mapped to today's date
    when it is a placeholder and is absent otherwise. *)
Theorem fallback_structured_entries
        (E : Env) (pdf_text : pystr) (placeholders : list pystr) :
  let fb := fallback_structured E pdf_text placeholders in
  all_strings fb /\
  (forall ph, In ph placeholders -> dict_get ph fb <> None) /\
  (forall k, In k (dict_keys fb) -> In k placeholders \/ In k regex_keys) /\
  (forall ph, In ph placeholders -> ~ In ph regex_keys ->
              ph <> k_date_received -> dict_get ph fb = Some VEmpty) /\
  dict_get k_date_received fb
  = if pystr_in_dec k_date_received placeholders
    then Some (VStr (today E)) else None.
Proof.
  cbn zeta.
  destruct (fallback_regex_part E pdf_text placeholders)
    as (data & (Hs & Hkeys & Hget & Hpres) & ->).
  set (d0 := dict_comprehension (fun _ => VEmpty) placeholders) in *.
  assert (Hd0 : forall k, dict_get k d0
                          = if pystr_in_dec k placeholders
                            then Some VEmpty else None).
  { intros k. apply dict_comprehension_get. }
  assert (Hdate : dict_get k_date_received data
                  = if pystr_in_dec k_date_received placeholders
                    then Some VEmpty else None).
  { rewrite Hget by apply date_received_not_regex. apply Hd0. }
  rewrite Hdate.
  destruct (pystr_in_dec k_date_received placeholders) as [Hin|Hin].
  - split; [now apply all_strings_set|]. split; [|split; [|split]].
    + intros ph Hph. destruct (list_eq_dec ascii_dec ph k_date_received)
        as [->|Hne].
      * rewrite dict_get_set_same. discriminate.
      * rewrite dict_get_set_other by assumption. apply Hpres.
        rewrite Hd0. now destruct (pystr_in_dec ph placeholders).
    + intros k Hk. apply dict_keys_set_in in Hk as [->|Hk]; auto.
    + intros ph Hph Hr Hne. rewrite dict_get_set_other by assumption.
      rewrite Hget, Hd0 by assumption.
      now destruct (pystr_in_dec ph placeholders).
    + apply dict_get_set_same.
  - split; [assumption|]. split; [|split; [|split]].
    + intros ph Hph. apply Hpres. rewrite Hd0.
      now destruct (pystr_in_dec ph placeholders).
    + assumption.
    + intros ph Hph Hr Hne. rewrite Hget, Hd0 by assumption.
      now destruct (pystr_in_dec ph placeholders).
    + exact Hdate.
Qed.

(** ** The merge block, further *)

Lemma fill_blanks_keys placeholders fallback (d d1 : dict) :
  fill_blanks placeholders fallback (VDict d) = Ok (VDict d1) ->
  forall k, In k (dict_keys d1) <-> In k (dict_keys d) \/ In k placeholders.
Proof.
  intros Hrun k.
  destruct (fill_blanks_dict placeholders fallback d)
    as (d1' & Hrun' & Hkeep & Hfill & Hframe).
  rewrite Hrun in Hrun'. injection Hrun' as <-.
  rewrite <- !dict_get_keys.
  destruct (pystr_in_dec k placeholders) as [Hin|Hin].
  - split; [auto|]. intros _.
    destruct (truthy_opt (dict_get k d)) eqn:Ht.
    + rewrite Hkeep by assumption. intros Hn. rewrite Hn in Ht. discriminate.
    + rewrite Hfill by assumption. discriminate.
  - rewrite Hframe by assumption. tauto.
Qed.

(** X11. The keys of the final mapping are the keys of the LLM mapping
    and the placeholders, no more and no less: a key the model added on
    its own is kept, and the inference pass adds none. *)
Theorem final_mapping_keys
        (E : Env) (net : network) (placeholders : list pystr)
        (fallback : dict) (text : pystr) (llm : dict) (w : world) :
  exists final w',
    merge_block E net placeholders fallback text (VDict llm) w
    = (Ok final, w') /\
    forall k, In k (dict_keys final) <->
              In k (dict_keys llm) \/ In k placeholders.
Proof.
  destruct (fill_blanks_dict placeholders fallback llm) as (d1 & Hrun & _).
  destruct (merge_block_total E net _ _ text _ _ w Hrun)
    as (final & w' & Hm & Hkeys & _).
  exists final, w'. split; [exact Hm|].
  intros k. rewrite Hkeys. now apply (fill_blanks_keys _ _ _ _ Hrun).
Qed.

Lemma still_empty_nil (d : dict) :
  still_empty_of d = [] <->
  existsb (fun kv => is_empty_str (snd kv)) d = false.
Proof.
  unfold still_empty_of. induction d as [|[k v] d IH]; simpl; [tauto|].
  destruct (is_empty_str v); simpl; [split; discriminate|exact IH].
Qed.

(** X12. The merge block sends the request of the inference pass exactly
    when the API key is set and, after the blanks were filled from the
    fallback, some entry of the mapping is still the empty string; in
    every other case it sends nothing. *)
Theorem inference_request_sent_iff
        (E : Env) (net : network) (placeholders : list pystr)
        (fallback : dict) (text : pystr) (llm : dict) (w : world) :
  exists merged,
    fill_blanks placeholders fallback (VDict llm) = Ok (VDict merged) /\
    issued (snd (merge_block E net placeholders fallback text (VDict llm) w))
    = issued w
      + (if key_set E && existsb (fun kv => is_empty_str (snd kv)) merged
         then 1 else 0).
Proof.
  destruct (fill_blanks_dict placeholders fallback llm) as (d1 & Hrun & _).
  exists d1. split; [exact Hrun|].
  rewrite (merge_block_dict E net _ _ text _ _ w Hrun).
  destruct (still_empty_of d1) as [|k0 ks] eqn:Hs.
  - apply still_empty_nil in Hs. rewrite Hs, andb_false_r. cbn [snd]. lia.
  - assert (He : existsb (fun kv => is_empty_str (snd kv)) d1 = true).
    { destruct (existsb (fun kv => is_empty_str (snd kv)) d1) eqn:He;
        [reflexivity|].
      apply still_empty_nil in He. congruence. }
    rewrite He, andb_true_r, no_missing_pass_body. cbn [snd].
    rewrite no_missing_body_world. unfold call_openrouter.
    destruct (key_set E).
    + unfold post. destruct (net (issued w)); cbn [snd issued]; lia.
    + cbn [raise snd]. lia.
Qed.

(** X13. When [DATE_RECEIVED] is a placeholder for which the model gave
    no truthy value, the final mapping holds today's date for it (the
    date is not empty, so the inference pass leaves it). *)
Theorem date_received_defaults_to_today
        (E : Env) (net : network) (placeholders : list pystr) (text : pystr)
        (llm : dict) (w : world) :
  In k_date_received placeholders ->
  truthy_opt (dict_get k_date_received llm) = false ->
  today E <> [] ->
  exists final w',
    merge_block E net placeholders
      (fallback_structured E text placeholders) text (VDict llm) w
    = (Ok final, w') /\
    dict_get k_date_received final = Some (VStr (today E)).
Proof.
  intros Hin Hllm Htoday.
  set (fb := fallback_structured E text placeholders).
  assert (Hfb : dict_get k_date_received fb = Some (VStr (today E))).
  { destruct (fallback_regex_part E text placeholders)
      as (data & (_ & _ & Hget & _) & Heq).
    unfold fb. rewrite Heq.
    rewrite Hget by apply date_received_not_regex.
    rewrite dict_comprehension_get.
    destruct (pystr_in_dec k_date_received placeholders); [|contradiction].
    apply dict_get_set_same. }
  destruct (fill_blanks_dict placeholders fb llm) as (d1 & Hrun & _ & Hfill & _).
  destruct (merge_block_total E net _ _ text _ _ w Hrun)
    as (final & w' & Hm & _ & Hstay).
  exists final, w'. split; [exact Hm|].
  apply Hstay.
  - rewrite (Hfill _ Hin Hllm). unfold dict_get_default. now rewrite Hfb.
  - unfold VEmpty. intros H. injection H as H. contradiction.
Qed.

Lemma date_received_defaults_to_today_witness :
  exists final w',
    merge_block env0 net_empty_then_failed [k_date_received]
      (fallback_structured env0 text_no_data [k_date_received]) text_no_data
      (VDict [(k_date_received, VEmpty)]) world0
    = (Ok final, w') /\
    dict_get k_date_received final = Some (VStr (lit "11/04/2026")).
Proof.
  apply (date_received_defaults_to_today env0 net_empty_then_failed
           [k_date_received] text_no_data [(k_date_received, VEmpty)] world0).
  - now left.
  - reflexivity.
  - discriminate.
Defined.

(** ** High accuracy and strict validation *)

Lemma with_defaults_get placeholders : forall (m : dict) k,
  dict_get k (with_defaults placeholders m)
  = match dict_get k m with
    | Some v => Some v
    | None => if pystr_in_dec k placeholders then Some VEmpty else None
    end.
Proof.
  unfold with_defaults.
  induction placeholders as [|ph rest IH]; intros m k; simpl.
  - now destruct (dict_get k m).
  - rewrite IH. destruct (list_eq_dec ascii_dec k ph) as [->|Hne].
    + destruct (dict_get ph m) as [v|] eqn:Hm.
      * rewrite dict_setdefault_keeps by congruence. now rewrite Hm.
      * unfold dict_setdefault. rewrite Hm, dict_get_set_same.
        destruct (pystr_in_dec ph (ph :: rest)) as [_|Hn]; [reflexivity|].
        exfalso. apply Hn. now left.
    + rewrite dict_setdefault_other by assumption.
      destruct (dict_get k m); [reflexivity|].
      destruct (pystr_in_dec k rest) as [Hin|Hin];
        destruct (pystr_in_dec k (ph :: rest)) as [Hin'|Hin'];
        try reflexivity; exfalso; simpl in *; intuition congruence.
Qed.

(** The loop of [llm_high_accuracy] on the mapping. *)
Lemma high_loop_mapping placeholders : forall mv cv mc',
  for_each placeholders
    (fun '(mapping, confidences) ph =>
       mapping' <- py_setdefault mapping ph VEmpty ;;
       confidences' <- py_setdefault confidences ph
                         (VFloat {| float_is_zero := true;
                                    float_text := lit "0.0" |}) ;;
       Ok (mapping', confidences'))
    (mv, cv) = Ok mc' ->
  (placeholders = [] /\ fst mc' = mv) \/
  (exists m0, mv = VDict m0 /\ fst mc' = VDict (with_defaults placeholders m0)).
Proof.
  induction placeholders as [|ph rest IH]; intros mv cv mc'; cbn [for_each].
  - intros H. injection H as <-. now left.
  - destruct mv as [| | | | | |m]; try discriminate.
    cbn [py_setdefault as_dict rbind].
    destruct cv as [| | | | | |c]; try discriminate.
    cbn [py_setdefault as_dict rbind]. intros Hrest. right.
    exists m. split; [reflexivity|].
    destruct (IH _ _ _ Hrest) as [[-> Hf]|(m1 & Hm1 & Hf)].
    + exact Hf.
    + injection Hm1 as <-. exact Hf.
Qed.

Lemma setdefault_in_mapping d ph parsed' :
  setdefault_in (VDict d) k_mapping ph VEmpty = Ok parsed' ->
  exists d1 m0,
    parsed' = VDict d1 /\
    dict_get_default k_mapping (VDict []) d = VDict m0 /\
    dict_get k_mapping d1 = Some (VDict (dict_setdefault ph VEmpty m0)).
Proof.
  unfold setdefault_in. cbn [as_dict rbind].
  set (d1 := dict_setdefault k_mapping (VDict []) d).
  assert (Hsame : dict_get_default k_mapping (VDict []) d1
                  = dict_get_default k_mapping (VDict []) d).
  { unfold d1, dict_get_default, dict_setdefault.
    destruct (dict_get k_mapping d) eqn:Hd; [now rewrite Hd|].
    now rewrite dict_get_set_same. }
  rewrite Hsame.
  destruct (dict_get_default k_mapping (VDict []) d) as [| | | | | |m0];
    try discriminate.
  cbn [as_dict rbind]. intros H. injection H as <-.
  eexists _, m0. split; [reflexivity|]. split; [reflexivity|].
  apply dict_get_set_same.
Qed.

Lemma setdefault_in_other parsed outer ph dflt parsed' k :
  setdefault_in parsed outer ph dflt = Ok parsed' -> k <> outer ->
  exists d d', parsed = VDict d /\ parsed' = VDict d' /\
               dict_get k d' = dict_get k d.
Proof.
  unfold setdefault_in. destruct parsed as [| | | | | |d]; try discriminate.
  cbn [as_dict rbind].
  destruct (dict_get_default outer (VDict [])
              (dict_setdefault outer (VDict []) d)) as [| | | | | |m];
    try discriminate.
  cbn [as_dict rbind]. intros H Hne. injection H as <-.
  eexists _, _. split; [reflexivity|]. split; [reflexivity|].
  rewrite dict_get_set_other by assumption.
  now apply dict_setdefault_other.
Qed.

(** The loop of [llm_strict_validation] on the object under
    ["mapping"]. *)
Lemma strict_loop_mapping placeholders : forall d m parsed',
  dict_get_default k_mapping (VDict []) d = VDict m ->
  for_each placeholders
    (fun parsed ph =>
       p1 <- setdefault_in parsed k_mapping ph VEmpty ;;
       p2 <- setdefault_in p1 k_status ph (VStr (lit "MISSING")) ;;
       setdefault_in p2 k_reasons ph VEmpty)
    (VDict d) = Ok parsed' ->
  exists d', parsed' = VDict d' /\
             dict_get_default k_mapping (VDict []) d'
             = VDict (with_defaults placeholders m).
Proof.
  induction placeholders as [|ph rest IH]; intros d m parsed' Hm;
    cbn [for_each].
  - intros H. injection H as <-. eauto.
  - destruct (setdefault_in (VDict d) k_mapping ph VEmpty) as [p1|] eqn:H1;
      [|discriminate].
    cbn [rbind].
    destruct (setdefault_in p1 k_status ph (VStr (lit "MISSING"))) as [p2|] eqn:H2;
      [|discriminate].
    cbn [rbind].
    destruct (setdefault_in p2 k_reasons ph VEmpty) as [p3|] eqn:H3;
      [|discriminate].
    cbn [rbind]. intros Hrest.
    destruct (setdefault_in_mapping _ _ _ H1) as (d1 & m0 & -> & Hm0 & Hg1).
    rewrite Hm in Hm0. injection Hm0 as <-.
    destruct (setdefault_in_other _ _ _ _ _ k_mapping H2
                (not_eq_sym k_mapping_status))
      as (d1' & d2 & Hd1 & -> & Hg2).
    injection Hd1 as <-.
    destruct (setdefault_in_other _ _ _ _ _ k_mapping H3
                (not_eq_sym k_mapping_reasons))
      as (d2' & d3 & Hd2 & -> & Hg3).
    injection Hd2 as <-.
    apply (IH d3 (dict_setdefault ph VEmpty m)); [|exact Hrest].
    unfold dict_get_default. now rewrite Hg3, Hg2, Hg1.
Qed.

Lemma call_openrouter_reply E net kind fields text max_tokens w out w1 :
  call_openrouter E net kind fields text max_tokens w = (Ok out, w1) ->
  net (issued w) = Content out.
Proof.
  unfold call_openrouter. destruct (key_set E); [|discriminate].
  apply post_ok.
Qed.

(** What [run_mode] returns for the high-accuracy mode, from the reply. *)
Lemma run_mode_high_result E net placeholders text w mapping w' :
  run_mode E net high_accuracy placeholders text w = (Ok mapping, w') ->
  exists out d,
    net (issued w) = Content out /\
    loads_block E out = Ok (VDict d) /\
    ((placeholders = [] /\
      mapping = dict_get_default k_mapping (VDict []) d) \/
     (exists m0, dict_get_default k_mapping (VDict []) d = VDict m0 /\
                 mapping = VDict (with_defaults placeholders m0))).
Proof.
  unfold run_mode, llm_high_accuracy, bind, lift.
  destruct (call_openrouter E net PHighAccuracy placeholders text 1500 w)
    as [[out|e] w1] eqn:Hc; [|discriminate].
  apply call_openrouter_reply in Hc.
  destruct (loads_block E out) as [parsed|e] eqn:Hl; [|discriminate].
  cbn [rbind].
  destruct parsed as [| | | | | |d]; try discriminate.
  cbn [py_get_default as_dict rbind].
  match goal with
  | |- context [for_each placeholders ?body ?init] =>
      destruct (for_each placeholders body init) as [mc|e] eqn:Hloop
  end; [|discriminate].
  cbn [rbind py_getitem dict_get]. unfold k_mapping at 1 2.
  rewrite pystr_eqb_refl. intros H. inversion H. subst.
  exists out, d. split; [assumption|]. split; [exact Hl|].
  destruct (high_loop_mapping _ _ _ _ Hloop) as [[-> Hf]|(m0 & Hm0 & Hf)].
  - left. auto.
  - right. exists m0. auto.
Qed.

Lemma run_mode_strict_result E net placeholders text w mapping w' :
  run_mode E net strict_validation placeholders text w = (Ok mapping, w') ->
  exists out d,
    net (issued w) = Content out /\
    loads_block E out = Ok (VDict d) /\
    ((placeholders = [] /\ dict_get k_mapping d = Some mapping) \/
     (exists m0, dict_get_default k_mapping (VDict []) d = VDict m0 /\
                 mapping = VDict (with_defaults placeholders m0))).
Proof.
  unfold run_mode, llm_strict_validation, bind, lift.
  destruct (call_openrouter E net PStrictValidation placeholders text 1500 w)
    as [[out|e] w1] eqn:Hc; [|discriminate].
  apply call_openrouter_reply in Hc.
  destruct (loads_block E out) as [parsed|e] eqn:Hl; [|discriminate].
  cbn [rbind].
  match goal with
  | |- context [for_each placeholders ?body parsed] =>
      destruct (for_each placeholders body parsed) as [parsed'|e] eqn:Hloop
  end; [|discriminate].
  intros H. inversion H as [[Hget Hw]]. clear H.
  destruct placeholders as [|ph rest].
  - cbn [for_each] in Hloop. injection Hloop as <-.
    destruct parsed as [| | | | | |d]; try discriminate.
    exists out, d. split; [assumption|]. split; [exact Hl|]. left.
    split; [reflexivity|]. cbn [py_getitem] in Hget.
    destruct (dict_get k_mapping d); [|discriminate]. congruence.
  - destruct parsed as [| | | | | |d]; try discriminate.
    exists out, d. split; [assumption|]. split; [exact Hl|]. right.
    assert (Hdict : exists m0, dict_get_default k_mapping (VDict []) d = VDict m0).
    { cbn [for_each] in Hloop.
      destruct (setdefault_in (VDict d) k_mapping ph VEmpty) as [p1|] eqn:H1;
        [|discriminate].
      destruct (setdefault_in_mapping _ _ _ H1) as (d1 & m0 & _ & Hm0 & _).
      eauto. }
    destruct Hdict as (m0 & Hm0). exists m0. split; [assumption|].
    destruct (strict_loop_mapping _ _ _ _ Hm0 Hloop) as (d' & -> & Hd').
    cbn [py_getitem] in Hget. unfold dict_get_default in Hd'.
    destruct (dict_get k_mapping d') as [x|] eqn:Hx; [|discriminate].
    congruence.
Qed.

(** X14. The high-accuracy mode and the strict-validation mode read the
    reply in the same way: when both return on the same placeholders,
    text and reply, they return the same mapping. *)
Theorem high_accuracy_agrees_with_strict
        (E : Env) (net : network) (placeholders : list pystr) (text : pystr)
        (w : world) (mh ms : pyval) (wh ws : world) :
  run_mode E net high_accuracy placeholders text w = (Ok mh, wh) ->
  run_mode E net strict_validation placeholders text w = (Ok ms, ws) ->
  mh = ms.
Proof.
  intros Hh Hs.
  destruct (run_mode_high_result _ _ _ _ _ _ _ Hh)
    as (out & d & Hnet & Hl & Hcase).
  destruct (run_mode_strict_result _ _ _ _ _ _ _ Hs)
    as (out' & d' & Hnet' & Hl' & Hcase').
  rewrite Hnet in Hnet'. injection Hnet' as <-.
  rewrite Hl in Hl'. injection Hl' as <-.
  destruct Hcase as [[Hnil ->]|(m0 & Hm0 & ->)];
    destruct Hcase' as [[Hnil' Hget]|(m0' & Hm0' & ->)].
  - unfold dict_get_default. now rewrite Hget.
  - subst. rewrite Hm0'. reflexivity.
  - subst. unfold dict_get_default in Hm0. rewrite Hget in Hm0.
    now subst.
  - congruence.
Qed.

Lemma high_accuracy_agrees_with_strict_witness :
  fst (run_mode env0 net_mapping_zip high_accuracy [lit "ZIP"; lit "CITY"]
         text_no_data world0)
  = fst (run_mode env0 net_mapping_zip strict_validation
           [lit "ZIP"; lit "CITY"] text_no_data world0).
Proof.
  destruct (run_mode env0 net_mapping_zip high_accuracy [lit "ZIP"; lit "CITY"]
              text_no_data world0) as [[mh|e] wh] eqn:Hh;
    [|vm_compute in Hh; discriminate].
  destruct (run_mode env0 net_mapping_zip strict_validation
              [lit "ZIP"; lit "CITY"] text_no_data world0) as [[ms|e] ws] eqn:Hs;
    [|vm_compute in Hs; discriminate].
  cbn [fst]. f_equal.
  exact (high_accuracy_agrees_with_strict _ _ _ _ _ _ _ _ _ Hh Hs).
Defined.

(** X15. In the mapping the high-accuracy mode returns for a non-empty
    list of placeholders, every entry of the object the model gave under
    ["mapping"] is kept as it is, placeholder or not, and a placeholder
    the model left out is mapped to the empty string. *)
Theorem high_accuracy_keeps_model_values
        (E : Env) (net : network) (placeholders : list pystr) (text : pystr)
        (w : world) (mapping : pyval) (w' : world) :
  run_mode E net high_accuracy placeholders text w = (Ok mapping, w') ->
  placeholders <> [] ->
  exists out d m0 m,
    net (issued w) = Content out /\
    loads_block E out = Ok (VDict d) /\
    dict_get_default k_mapping (VDict []) d = VDict m0 /\
    mapping = VDict m /\
    forall k,
      dict_get k m
      = match dict_get k m0 with
        | Some v => Some v
        | None => if pystr_in_dec k placeholders then Some VEmpty else None
        end.
Proof.
  intros Hrun Hne.
  destruct (run_mode_high_result _ _ _ _ _ _ _ Hrun)
    as (out & d & Hnet & Hl & [[Hnil _]|(m0 & Hm0 & ->)]); [contradiction|].
  exists out, d, m0, (with_defaults placeholders m0).
  repeat split; try assumption. intros k. apply with_defaults_get.
Qed.

Lemma high_accuracy_keeps_model_values_witness :
  exists m,
    fst (run_mode env0 net_mapping_zip high_accuracy [lit "ZIP"; lit "CITY"]
           text_no_data world0) = Ok (VDict m) /\
    dict_get (lit "ZIP") m = Some (VInt 12345) /\
    dict_get (lit "CITY") m = Some VEmpty.
Proof.
  destruct (run_mode env0 net_mapping_zip high_accuracy [lit "ZIP"; lit "CITY"]
              text_no_data world0) as [[mapping|e] w'] eqn:Hrun;
    [|vm_compute in Hrun; discriminate].
  destruct (high_accuracy_keeps_model_values _ _ _ _ _ _ _ Hrun
              ltac:(discriminate))
    as (out & d & m0 & m & Hnet & Hl & Hm0 & -> & Hget).
  exists m. split; [reflexivity|].
  cbv [net_mapping_zip] in Hnet. injection Hnet as <-.
  vm_compute in Hl. injection Hl as <-.
  vm_compute in Hm0. injection Hm0 as <-.
  split; rewrite Hget; reflexivity.
Defined.

(** ** The vote *)

Section DictOrder.
Context {V : Type}.
Implicit Types (d : list (pystr * V)) (k : pystr) (v : V).

Lemma dict_keys_set_absent k v d :
  dict_get k d = None -> dict_keys (dict_set k v d) = dict_keys d ++ [k].
Proof.
  induction d as [|[k' v'] d IH]; simpl; [reflexivity|].
  case_key k' k; [discriminate|].
  intros H. simpl. now rewrite IH.
Qed.

Lemma dict_set_nodup k v d :
  NoDup (dict_keys d) -> NoDup (dict_keys (dict_set k v d)).
Proof.
  intros Hnd. destruct (dict_get k d) eqn:Hk.
  - rewrite dict_keys_set_present; [assumption|congruence].
  - rewrite dict_keys_set_absent by assumption.
    apply NoDup_app; [assumption|repeat constructor; simpl; tauto|].
    intros x Hx [<-|[]]. apply dict_get_keys in Hx. congruence.
Qed.

Lemma dict_in_get k v d :
  NoDup (dict_keys d) -> In (k, v) d -> dict_get k d = Some v.
Proof.
  induction d as [|[k' v'] d IH]; simpl; [tauto|].
  intros Hnd Hin. inversion Hnd as [|? ? Hk' Hnd']; subst.
  case_key k' k.
  - destruct Hin as [Heq|Hin]; [congruence|].
    exfalso. apply Hk'. subst k'. unfold dict_keys.
    apply in_map_iff. now exists (k, v).
  - destruct Hin as [Heq|Hin]; [congruence|]. now apply IH.
Qed.

End DictOrder.

Lemma counter_add_get s0 s (cnt : list (pystr * nat)) :
  dict_get_default s 0 (counter_add s0 cnt)
  = if pystr_eq_dec s0 s then S (dict_get_default s 0 cnt)
    else dict_get_default s 0 cnt.
Proof.
  unfold counter_add, dict_get_default at 1.
  destruct (pystr_eq_dec s0 s) as [->|Hne].
  - now rewrite dict_get_set_same.
  - rewrite dict_get_set_other by congruence. reflexivity.
Qed.

Lemma counter_fold_get vals : forall cnt s,
  dict_get_default s 0 (fold_left (fun cnt s => counter_add s cnt) vals cnt)
  = occurrences vals s + dict_get_default s 0 cnt.
Proof.
  unfold occurrences.
  induction vals as [|x vals IH]; intros cnt s; cbn [fold_left count_occ].
  - reflexivity.
  - rewrite IH, counter_add_get.
    destruct (pystr_eq_dec x s); lia.
Qed.

Lemma counter_fold_nodup vals : forall cnt,
  NoDup (dict_keys cnt) ->
  NoDup (dict_keys (fold_left (fun cnt s => counter_add s cnt) vals cnt)).
Proof.
  induction vals as [|x vals IH]; intros cnt H; simpl; [assumption|].
  apply IH. now apply dict_set_nodup.
Qed.

Lemma counter_fold_positive vals : forall cnt,
  Forall (fun sn => 0 < snd sn) cnt ->
  Forall (fun sn => 0 < snd sn)
         (fold_left (fun cnt s => counter_add s cnt) vals cnt).
Proof.
  induction vals as [|x vals IH]; intros cnt H; simpl; [assumption|].
  apply IH. unfold counter_add.
  apply (dict_set_values (fun n => 0 < n)); [lia|assumption].
Qed.

(** [Counter(vals)] holds each value of [vals] once, with the number of
    its occurrences. *)
Lemma counter_spec vals s n :
  In (s, n) (counter vals) <-> n = occurrences vals s /\ 0 < n.
Proof.
  unfold counter.
  pose proof (counter_fold_get vals [] s) as Hget.
  pose proof (counter_fold_nodup vals [] (NoDup_nil _)) as Hnd.
  pose proof (counter_fold_positive vals [] (Forall_nil _)) as Hpos.
  set (c := fold_left (fun cnt s => counter_add s cnt) vals []) in *.
  cbn [dict_get_default dict_get] in Hget. rewrite Nat.add_0_r in Hget.
  split.
  - intros Hin. rewrite Forall_forall in Hpos.
    pose proof (Hpos _ Hin) as Hn. cbn [snd] in Hn.
    apply (dict_in_get _ _ _ Hnd) in Hin.
    unfold dict_get_default in Hget. rewrite Hin in Hget. auto.
  - intros [-> Hn]. unfold dict_get_default in Hget.
    destruct (dict_get s c) as [n'|] eqn:Hs; [|lia].
    subst n'. now apply dict_get_in.
Qed.

Lemma max_count_spec items : forall best,
  let r := max_count best items in
  In r (best :: items) /\ forall x, In x (best :: items) -> snd x <= snd r.
Proof.
  induction items as [|y items IH]; intros best; cbn zeta; cbn [max_count].
  - split; [now left|]. intros x [<-|[]]. lia.
  - destruct (IH (if snd best <? snd y then y else best)) as [Hin Hmax].
    split.
    + destruct Hin as [Hr|Hr]; [|now right; right].
      rewrite <- Hr. destruct (snd best <? snd y); simpl; auto.
    + intros x Hx.
      assert (Hb : snd best <= snd (if snd best <? snd y then y else best) /\
                   snd y <= snd (if snd best <? snd y then y else best)).
      { destruct (snd best <? snd y) eqn:Hlt;
          [apply Nat.ltb_lt in Hlt|apply Nat.ltb_ge in Hlt]; lia. }
      pose proof (Hmax _ (or_introl eq_refl)) as Hc.
      destruct Hx as [<-|[<-|Hx]]; [lia|lia|].
      apply Hmax. now right.
Qed.

Lemma occurrences_in vals s : 0 < occurrences vals s <-> In s vals.
Proof. unfold occurrences. symmetry. apply count_occ_In. Qed.

Lemma winner_most_frequent (vals : list pystr) :
  vals <> [] ->
  In (winner vals) vals /\
  forall s, occurrences vals s <= occurrences vals (winner vals).
Proof.
  intros Hne. unfold winner. destruct vals as [|v0 vs]; [congruence|].
  set (vals := v0 :: vs) in *. unfold most_common1.
  destruct (counter vals) as [|x rest] eqn:Hc.
  { exfalso. assert (Hin : In (v0, occurrences vals v0) (counter vals)).
    { apply counter_spec. split; [reflexivity|].
      apply occurrences_in. now left. }
    rewrite Hc in Hin. contradiction. }
  destruct (max_count_spec rest x) as [Hin Hmax].
  set (r := max_count x rest) in *. rewrite <- Hc in Hin, Hmax.
  destruct r as [s0 n0]. cbn [fst snd] in *.
  apply counter_spec in Hin as [-> Hn0].
  split; [now apply occurrences_in|].
  intros s. destruct (Nat.eq_dec (occurrences vals s) 0) as [->|Hs]; [lia|].
  assert (Hsin : In (s, occurrences vals s) (counter vals)).
  { apply counter_spec. split; [reflexivity|lia]. }
  apply (Hmax _ Hsin).
Qed.


(** X16. The value the voting mode returns for a placeholder with at
    least one candidate is one of the candidates, and no candidate occurs
    more often among them. *)
Theorem winner_is_most_frequent (vals : list pystr) :
  vals <> [] ->
  In (winner vals) vals /\
  forall s, occurrences vals s <= occurrences vals (winner vals).
Proof. apply winner_most_frequent. Qed.

Lemma winner_is_most_frequent_witness :
  In (winner [lit "b"; lit "a"; lit "b"]) [lit "b"; lit "a"; lit "b"] /\
  occurrences [lit "b"; lit "a"; lit "b"] (lit "a")
  <= occurrences [lit "b"; lit "a"; lit "b"] (winner [lit "b"; lit "a"; lit "b"]).
Proof.
  destruct (winner_is_most_frequent [lit "b"; lit "a"; lit "b"]
              ltac:(discriminate)) as [Hin Hmax].
  split; [exact Hin|exact (Hmax (lit "a"))].
Defined.

(** Ties of the vote. *)

Lemma max_count_first items : forall best,
  let r := max_count best items in
  exists pre post,
    best :: items = pre ++ r :: post /\
    (forall x, In x pre -> snd x < snd r) /\
    (forall x, In x post -> snd x <= snd r).
Proof.
  induction items as [|y items IH]; intros best; cbn zeta; cbn [max_count].
  - exists [], []. split; [reflexivity|]. split; intros x [].
  - destruct (IH (if snd best <? snd y then y else best))
      as (pre & post & He & Hpre & Hpost).
    remember (max_count (if snd best <? snd y then y else best) items) as r
      eqn:Hr0.
    clear Hr0 IH.
    destruct (snd best <? snd y) eqn:Hlt;
      [apply Nat.ltb_lt in Hlt|apply Nat.ltb_ge in Hlt].
    + exists (best :: pre), post. split; [simpl; now rewrite He|].
      split; [|assumption].
      assert (Hy : snd y <= snd r).
      { destruct pre as [|p pre'].
        - injection He as -> _. lia.
        - injection He as <- _. specialize (Hpre _ (or_introl eq_refl)). lia. }
      intros x [<-|Hx]; [lia|now apply Hpre].
    + destruct pre as [|p pre'].
      * injection He as Hr Hitems. exists [], (y :: post).
        split; [simpl; now rewrite <- Hr, Hitems|].
        split; [intros x []|].
        intros x [<-|Hx]; [rewrite <- Hr; lia|now apply Hpost].
      * injection He as <- Hitems. exists (best :: y :: pre'), post.
        split; [simpl; now rewrite Hitems|].
        split; [|assumption].
        pose proof (Hpre _ (or_introl eq_refl)) as Hb.
        intros x [<-|[<-|Hx]]; [assumption|lia|].
        apply Hpre. now right.
Qed.

Lemma dict_set_split {V} k (v : V) a n : forall l1 l2,
  ~ In a (dict_keys l1) ->
  exists l1' n' l2',
    dict_set k v (l1 ++ (a, n) :: l2) = l1' ++ (a, n') :: l2' /\
    dict_keys l1' = dict_keys l1.
Proof.
  induction l1 as [|[k1 v1] l1 IH]; intros l2 Ha.
  - simpl. case_key a k.
    + exists [], v, l2. auto.
    + exists [], n, (dict_set k v l2). auto.
  - simpl in Ha. simpl. case_key k1 k.
    + exists ((k1, v) :: l1), n, l2. auto.
    + destruct (IH l2) as (l1' & n' & l2' & He & Hkeys); [tauto|].
      exists ((k1, v1) :: l1'), n', l2'. rewrite He. simpl. now rewrite Hkeys.
Qed.

Lemma counter_fold_split vals a : forall l1 n l2,
  ~ In a (dict_keys l1) ->
  exists l1' n' l2',
    fold_left (fun cnt s => counter_add s cnt) vals (l1 ++ (a, n) :: l2)
    = l1' ++ (a, n') :: l2' /\
    dict_keys l1' = dict_keys l1.
Proof.
  induction vals as [|x vals IH]; intros l1 n l2 Ha; cbn [fold_left].
  - exists l1, n, l2. auto.
  - unfold counter_add at 2.
    destruct (dict_set_split x
                (S (dict_get_default x 0 (l1 ++ (a, n) :: l2))) a n l1 l2 Ha)
      as (l1' & n' & l2' & -> & Hk).
    destruct (IH l1' n' l2') as (l1'' & n'' & l2'' & He & Hk');
      [now rewrite Hk|].
    exists l1'', n'', l2''. split; [exact He|congruence].
Qed.

Lemma counter_keys vals s : In s (dict_keys (counter vals)) <-> In s vals.
Proof.
  split.
  - intros Hin. apply in_map_iff in Hin as ([s' n] & Hs & Hin).
    simpl in Hs. subst s'. apply occurrences_in.
    apply counter_spec in Hin as [-> Hn]. exact Hn.
  - intros Hin. apply occurrences_in in Hin. apply in_map_iff.
    exists (s, occurrences vals s). split; [reflexivity|].
    apply counter_spec. auto.
Qed.

(** The counter lists a value after all values seen before its first
    occurrence. *)
Lemma counter_order pre a post :
  ~ In a pre ->
  exists cpre n cpost,
    counter (pre ++ a :: post) = cpre ++ (a, n) :: cpost /\
    forall s, In s pre -> In s (dict_keys cpre).
Proof.
  intros Ha. unfold counter. rewrite fold_left_app. cbn [fold_left].
  fold (counter pre). set (c1 := counter pre).
  assert (Hc1 : dict_get a c1 = None).
  { destruct (dict_get a c1) eqn:H; [|reflexivity].
    exfalso. apply Ha. apply counter_keys. apply dict_get_keys.
    fold c1. congruence. }
  assert (Hadd : counter_add a c1 = c1 ++ [(a, 1)]).
  { unfold counter_add, dict_get_default. rewrite Hc1.
    clear -Hc1. induction c1 as [|[k v] c IH]; simpl in *; [reflexivity|].
    case_key k a; [discriminate|]. now rewrite IH. }
  rewrite Hadd.
  destruct (counter_fold_split post a c1 1 []) as (l1' & n' & l2' & He & Hk).
  { intros Hin. apply dict_get_keys in Hin. congruence. }
  exists l1', n', l2'. split; [exact He|].
  intros s Hs. rewrite Hk. now apply counter_keys.
Qed.

Lemma in_split_first (s : pystr) vals :
  In s vals -> exists pre post, vals = pre ++ s :: post /\ ~ In s pre.
Proof.
  induction vals as [|x vals IH]; [contradiction|].
  intros Hin. destruct (pystr_eq_dec x s) as [->|Hne].
  - exists [], vals. auto.
  - destruct Hin as [Heq|Hin]; [congruence|].
    destruct (IH Hin) as (pre & post & -> & Hn).
    exists (x :: pre), post. split; [reflexivity|].
    intros [Heq|H]; [congruence|tauto].
Qed.

Lemma nodup_keys_split_unique {V} (k : pystr) (v v' : V) : forall p1 q1 p2 q2,
  NoDup (dict_keys (p1 ++ (k, v) :: q1)) ->
  p1 ++ (k, v) :: q1 = p2 ++ (k, v') :: q2 -> p1 = p2.
Proof.
  induction p1 as [|[k1 v1] p1 IH]; intros q1 p2 q2 Hnd He.
  - destruct p2 as [|[k2 v2] p2]; [reflexivity|].
    simpl in He. injection He as <- <- Hq.
    exfalso. simpl in Hnd. inversion Hnd as [|? ? Hk _]; subst.
    apply Hk. unfold dict_keys. rewrite map_app. apply in_or_app. right.
    now left.
  - destruct p2 as [|[k2 v2] p2].
    + simpl in He. injection He as -> -> Hq.
      exfalso. simpl in Hnd. inversion Hnd as [|? ? Hk _]; subst.
      apply Hk. unfold dict_keys. rewrite map_app. apply in_or_app. right.
      now left.
    + simpl in He. injection He as <- <- He. f_equal.
      simpl in Hnd. inversion Hnd; subst. eapply IH; eassumption.
Qed.

(** X17. Ties of the vote go to the candidate seen first: every candidate
    that occurs before the first occurrence of the returned value occurs
    strictly less often than it. *)
Theorem winner_breaks_ties_by_first_seen (vals : list pystr) :
  vals <> [] ->
  exists pre post,
    vals = pre ++ winner vals :: post /\
    ~ In (winner vals) pre /\
    forall s, In s pre -> occurrences vals s < occurrences vals (winner vals).
Proof.
  intros Hne.
  destruct (winner_most_frequent vals Hne) as [Hin _].
  destruct (in_split_first _ _ Hin) as (pre & post & Hsplit & Hfirst).
  exists pre, post. split; [exact Hsplit|]. split; [exact Hfirst|].
  intros s Hs.
  assert (Hnd : NoDup (dict_keys (counter vals))).
  { apply counter_fold_nodup. constructor. }
  destruct (counter_order pre (winner vals) post Hfirst)
    as (cpre & n & cpost & Hc & Hbefore).
  rewrite <- Hsplit in Hc.
  assert (Hw : exists x rest, counter vals = x :: rest /\
                              winner vals = fst (max_count x rest)).
  { unfold winner, most_common1. destruct vals as [|v0 vs]; [congruence|].
    destruct (counter (v0 :: vs)) as [|x rest] eqn:Hcv.
    - destruct cpre; discriminate.
    - eauto. }
  destruct Hw as (x & rest & Hcx & Hwx).
  destruct (max_count_first rest x) as (mpre & mpost & Hm & Hlt & _).
  set (r := max_count x rest) in *. rewrite <- Hcx in Hm.
  destruct r as [s0 n0] eqn:Hr. cbn [fst snd] in *. subst s0.
  assert (Hpre : cpre = mpre).
  { rewrite Hc in Hnd. eapply nodup_keys_split_unique; [exact Hnd|].
    rewrite <- Hc. exact Hm. }
  assert (Hn0 : n0 = occurrences vals (winner vals)).
  { assert (Hin0 : In (winner vals, n0) (counter vals)).
    { rewrite Hm. apply in_or_app. right. now left. }
    now apply counter_spec in Hin0 as [-> _]. }
  specialize (Hbefore s Hs). rewrite Hpre in Hbefore.
  unfold dict_keys in Hbefore. apply in_map_iff in Hbefore
    as ([s' n'] & Hs' & Hin'). simpl in Hs'. subst s'.
  pose proof (Hlt _ Hin') as Hless. cbn [snd] in Hless.
  assert (Hn' : n' = occurrences vals s).
  { assert (Hin0 : In (s, n') (counter vals)).
    { rewrite Hm. apply in_or_app. now left. }
    now apply counter_spec in Hin0 as [-> _]. }
  lia.
Qed.

Lemma winner_breaks_ties_by_first_seen_witness :
  exists pre post,
    [lit "a"; lit "b"; lit "b"; lit "a"; lit "c"]
    = pre ++ winner [lit "a"; lit "b"; lit "b"; lit "a"; lit "c"] :: post /\
    ~ In (winner [lit "a"; lit "b"; lit "b"; lit "a"; lit "c"]) pre /\
    forall s, In s pre ->
      occurrences [lit "a"; lit "b"; lit "b"; lit "a"; lit "c"] s
      < occurrences [lit "a"; lit "b"; lit "b"; lit "a"; lit "c"]
          (winner [lit "a"; lit "b"; lit "b"; lit "a"; lit "c"]).
Proof.
  exact (winner_breaks_ties_by_first_seen
           [lit "a"; lit "b"; lit "b"; lit "a"; lit "c"] ltac:(discriminate)).
Defined.

(** ** Replies the voting mode cannot use *)

Lemma collect_round_raises d ph v : forall placeholders (c : candidates_t),
  (forall p, In p placeholders -> dict_get p c <> None) ->
  In ph placeholders ->
  dict_get ph d = Some v -> truthy v = true -> is_str v = false ->
  collect_round placeholders (VDict d) c = Raise AttributeError.
Proof.
  unfold collect_round.
  induction placeholders as [|p0 rest IH]; intros c Hc Hin Hd Ht Hs;
    [contradiction|].
  cbn [for_each py_get as_dict rbind].
  destruct (truthy_opt (dict_get p0 d)) eqn:Ht0.
  - destruct (dict_get p0 d) as [v0|] eqn:Hv0; [|discriminate].
    cbn [py_getitem]. rewrite Hv0. cbn [rbind].
    destruct v0 as [| | | |s0| |]; try reflexivity.
    cbn [py_strip rbind]. unfold cand_append.
    destruct (dict_get p0 c) as [vals|] eqn:Hp0.
    2:{ exfalso. apply (Hc p0); [now left|assumption]. }
    cbn [rbind]. apply IH; try assumption.
    + intros p Hp. apply dict_get_keys.
      rewrite dict_keys_set_present by congruence.
      apply dict_get_keys. apply Hc. now right.
    + destruct Hin as [->|Hin]; [|assumption].
      rewrite Hd in Hv0. injection Hv0 as ->. discriminate.
  - cbn [rbind]. apply IH; try assumption.
    + intros p Hp. apply Hc. now right.
    + destruct Hin as [->|Hin]; [|assumption].
      rewrite Hd in Ht0. simpl in Ht0. congruence.
Qed.

(** X18. The voting mode is left by [AttributeError] when the first reply
    is an object that gives a placeholder a truthy value that is not a
    string (a number, [true], a list, an object): the value has no
    [strip]; the two other rounds are not started. *)
Theorem voting_raises_on_non_string
        (E : Env) (net : network) (placeholders : list pystr) (text : pystr)
        (w : world) (out : pystr) (d : dict) (ph : pystr) (v : pyval) :
  net (issued w) = Content out ->
  loads_block E out = Ok (VDict d) ->
  In ph placeholders ->
  dict_get ph d = Some v -> truthy v = true -> is_str v = false ->
  exists w',
    run_mode E net multi_llm_voting placeholders text w
    = (Raise AttributeError, w') /\
    issued w' = S (issued w).
Proof.
  intros Hnet Hl Hin Hd Ht Hs.
  unfold run_mode, llm_voting, llm_voting_rounds.
  change (voting_temps 3) with [T00; T02; T06].
  set (c0 := dict_comprehension (fun _ => @nil pystr) placeholders).
  assert (Hround : collect_round placeholders (VDict d) c0
                   = Raise AttributeError).
  { apply (collect_round_raises d ph v); try assumption.
    intros p Hp. unfold c0. rewrite dict_comprehension_get.
    now destruct (pystr_in_dec p placeholders). }
  set (w1 := snd (post net (voting_request placeholders text T00) w)).
  assert (Hp : post net (voting_request placeholders text T00) w = (Ok out, w1)).
  { unfold w1, post. now rewrite Hnet. }
  assert (Hv : voting_rounds E net [T00; T02; T06] placeholders text c0 w
               = (Raise AttributeError, w1)).
  { cbn [voting_rounds]. rewrite (bind_ok _ _ _ _ _ Hp), Hl.
    apply bind_raise. now rewrite Hround. }
  exists w1. split.
  - apply bind_raise. now apply bind_raise.
  - unfold w1, post. now destruct (net (issued w)).
Qed.

Lemma voting_raises_on_non_string_witness :
  exists w',
    run_mode env0 net_a7 multi_llm_voting [lit "A"] text_no_data world0
    = (Raise AttributeError, w') /\
    issued w' = 1.
Proof.
  apply (voting_raises_on_non_string env0 net_a7 [lit "A"] text_no_data world0
           reply_a7 [(lit "A", VInt 7)] (lit "A") (VInt 7)).
  - reflexivity.
  - vm_compute. reflexivity.
  - now left.
  - reflexivity.
  - reflexivity.
  - reflexivity.
Defined.

Lemma voting_rounds_all_skipped E net placeholders text temps : forall c w,
  (forall i, i < length temps ->
     exists out, net (issued w + i) = Content out /\
                 loads_block E out = Raise JSONDecodeError) ->
  exists w',
    voting_rounds E net temps placeholders text c w = (Ok c, w') /\
    issued w' = issued w + length temps.
Proof.
  induction temps as [|t rest IH]; intros c w H.
  - exists w. split; [reflexivity|]. simpl. lia.
  - destruct (H 0) as (out & Hnet & Hl); [simpl; lia|].
    rewrite Nat.add_0_r in Hnet.
    set (w1 := snd (post net (voting_request placeholders text t) w)).
    assert (Hp : post net (voting_request placeholders text t) w = (Ok out, w1)).
    { unfold w1, post. now rewrite Hnet. }
    assert (Hi : issued w1 = S (issued w)).
    { unfold w1, post. now destruct (net (issued w)). }
    destruct (IH c w1) as (w' & Hrun & Hiss).
    { intros i Hi'. destruct (H (S i)) as (o & Hn & Ho); [simpl; lia|].
      exists o. split; [|assumption]. rewrite <- Hn. f_equal. lia. }
    exists w'. split.
    + cbn [voting_rounds]. now rewrite (bind_ok _ _ _ _ _ Hp), Hl.
    + rewrite Hiss, Hi. simpl. lia.
Qed.

Lemma final_map_value (c : candidates_t) ph :
  dict_get ph (final_map_of c)
  = option_map (fun vals => VStr (winner vals)) (dict_get ph c).
Proof.
  unfold final_map_of. induction c as [|[k vals] c IH]; simpl; [reflexivity|].
  now case_key k ph.
Qed.

(** X19. When none of the three replies parses as JSON, the voting mode
    raises nothing: it sends its three requests and returns a mapping in
    which every placeholder has the empty string. *)
Theorem voting_without_usable_reply
        (E : Env) (net : network) (placeholders : list pystr) (text : pystr)
        (w : world) :
  (forall i, i < 3 ->
     exists out, net (issued w + i) = Content out /\
                 loads_block E out = Raise JSONDecodeError) ->
  exists d w',
    run_mode E net multi_llm_voting placeholders text w = (Ok (VDict d), w') /\
    issued w' = issued w + 3 /\
    forall ph, In ph placeholders -> dict_get ph d = Some VEmpty.
Proof.
  intros H.
  unfold run_mode, llm_voting, llm_voting_rounds.
  change (voting_temps 3) with [T00; T02; T06].
  set (c0 := dict_comprehension (fun _ => @nil pystr) placeholders).
  destruct (voting_rounds_all_skipped E net placeholders text [T00; T02; T06]
              c0 w H) as (w' & Hrun & Hiss).
  exists (final_map_of c0), w'. split; [|split; [exact Hiss|]].
  - rewrite (bind_ok _ _ _ _ _ (bind_ok _ _ _ _ _ Hrun)).
    unfold ret, lift. cbn [py_getitem dict_get]. unfold k_mapping at 1 2.
    now rewrite pystr_eqb_refl.
  - intros ph Hin. rewrite final_map_value. unfold c0.
    rewrite dict_comprehension_get.
    now destruct (pystr_in_dec ph placeholders).
Qed.

Lemma voting_without_usable_reply_witness :
  exists d w',
    run_mode env0 net_prose multi_llm_voting [lit "A"; lit "B"] text_no_data
      world0 = (Ok (VDict d), w') /\
    issued w' = 3 /\
    forall ph, In ph [lit "A"; lit "B"] -> dict_get ph d = Some VEmpty.
Proof.
  apply (voting_without_usable_reply env0 net_prose [lit "A"; lit "B"]
           text_no_data world0).
  intros i Hi. exists (lit "I cannot help."). split; reflexivity.
Defined.

(** ** A run that completes *)

(** X20. When a run completes, whatever the mode, its final mapping has
    an entry for every placeholder detected in the template, and the
    document it offers is the template filled with that mapping. *)
Theorem completed_run_maps_every_placeholder
        (E : Env) (net : network) (m : mode) (template : document)
        (text : pystr) (w : world) (final : dict) (out : document)
        (w' : world) :
  run_extraction E net m template text w = (Ok (final, out), w') ->
  fill_docx E template final = Ok out /\
  forall ph, In ph (find_placeholders template) ->
             exists v, dict_get ph final = Some v.
Proof.
  intros H. split; [now apply run_extraction_ok in H|].
  intros ph Hin.
  pose proof (run_extraction_entries _ _ _ _ _ _ _ _ _ H ph Hin) as Hne.
  destruct (dict_get ph final) as [v|]; [eauto|congruence].
Qed.

Lemma completed_run_maps_every_placeholder_witness :
  fill_docx env0 doc_header mapping_name_ref = Ok doc_header_filled /\
  exists v, dict_get (lit "REF") mapping_name_ref = Some v.
Proof.
  assert (H : run_extraction env0 net_name_ref high_accuracy doc_header
                text_no_data world0
              = (Ok (mapping_name_ref, doc_header_filled),
                 snd (run_extraction env0 net_name_ref high_accuracy doc_header
                        text_no_data world0))).
  { vm_compute. reflexivity. }
  destruct (completed_run_maps_every_placeholder _ _ _ _ _ _ _ _ _ H)
    as [Hfill Hall].
  split; [exact Hfill|].
  apply (Hall (lit "REF")). vm_compute. auto.
Defined.

(** ** Stripped values *)

Lemma lstrip_split s :
  exists sp, s = sp ++ lstrip s /\ forallb is_space sp = true.
Proof.
  induction s as [|c s IH]; simpl.
  - exists []. auto.
  - destruct (is_space c) eqn:Hc.
    + destruct IH as (sp & Hs & Hsp). exists (c :: sp). simpl.
      rewrite Hc, <- Hs. auto.
    + exists []. auto.
Qed.

Lemma lstrip_head s c r : lstrip s = c :: r -> is_space c = false.
Proof.
  induction s as [|x s IH]; simpl; [discriminate|].
  destruct (is_space x) eqn:Hx; [assumption|].
  intros H. injection H as <- _. assumption.
Qed.

Lemma lstrip_fixed s :
  match s with [] => True | c :: _ => is_space c = false end -> lstrip s = s.
Proof. destruct s as [|c s]; simpl; [reflexivity|]. now intros ->. Qed.

Lemma lstrip_idempotent s : lstrip (lstrip s) = lstrip s.
Proof.
  apply lstrip_fixed. destruct (lstrip s) as [|c r] eqn:H; [exact I|].
  eapply lstrip_head. eassumption.
Qed.

Lemma strip_idempotent s : strip (strip s) = strip s.
Proof.
  unfold strip, rstrip.
  set (u := lstrip s). set (v := lstrip (rev u)).
  assert (Hv : lstrip v = v) by apply lstrip_idempotent.
  assert (Hrv : lstrip (rev v) = rev v).
  { apply lstrip_fixed. destruct (rev v) as [|c r] eqn:Hr; [exact I|].
    destruct (lstrip_split (rev u)) as (sp & Hsplit & _). fold v in Hsplit.
    apply (f_equal (@rev ascii)) in Hsplit.
    rewrite rev_involutive, rev_app_distr, Hr in Hsplit. simpl in Hsplit.
    unfold u in Hsplit. eapply lstrip_head. exact Hsplit. }
  now rewrite Hrv, rev_involutive, Hv.
Qed.

Lemma all_stripped_append ph s (c c' : candidates_t) :
  all_stripped c -> strip s = s -> cand_append ph s c = Ok c' ->
  all_stripped c'.
Proof.
  unfold cand_append, all_stripped. intros Hc Hs.
  destruct (dict_get ph c) as [vals|] eqn:Hph; [|discriminate].
  intros H. injection H as <-.
  apply (dict_set_values (Forall (fun s => strip s = s))); [|assumption].
  apply Forall_app. split; [|now repeat constructor].
  apply dict_get_in in Hph. rewrite Forall_forall in Hc.
  exact (Hc _ Hph).
Qed.

Lemma collect_round_stripped placeholders parsed : forall c c',
  all_stripped c -> collect_round placeholders parsed c = Ok c' ->
  all_stripped c'.
Proof.
  unfold collect_round.
  induction placeholders as [|ph rest IH]; intros c c' Hc; cbn [for_each].
  - intros H. now injection H as <-.
  - destruct (py_get parsed ph) as [got|]; [|discriminate]. cbn [rbind].
    destruct (truthy_opt got).
    + destruct (py_getitem parsed ph) as [v|]; [|discriminate]. cbn [rbind].
      destruct v as [| | | |s0| |]; try discriminate. cbn [py_strip rbind].
      destruct (cand_append ph (strip s0) c) as [c1|] eqn:Ha; [|discriminate].
      cbn [rbind]. apply IH.
      eapply all_stripped_append; [exact Hc|apply strip_idempotent|exact Ha].
    + cbn [rbind]. now apply IH.
Qed.

Lemma voting_rounds_stripped E net placeholders text temps : forall c w c' w',
  all_stripped c ->
  voting_rounds E net temps placeholders text c w = (Ok c', w') ->
  all_stripped c'.
Proof.
  induction temps as [|t rest IH]; intros c w c' w' Hc; cbn [voting_rounds].
  - intros H. inversion H. now subst.
  - destruct (post net (voting_request placeholders text t) w)
      as [[out|e] w1] eqn:Hp.
    2:{ rewrite (bind_raise _ _ _ _ _ Hp). discriminate. }
    rewrite (bind_ok _ _ _ _ _ Hp).
    destruct (loads_block E out) as [parsed|e]; [|now apply IH].
    destruct (collect_round placeholders parsed c) as [c1|e] eqn:Hr.
    + rewrite (bind_ok _ _ _ _ _ (lift_run (Ok c1) w1)).
      apply IH. eapply collect_round_stripped; eassumption.
    + rewrite (bind_raise _ _ _ _ _ (lift_run (Raise e) w1)). discriminate.
Qed.

Lemma all_stripped_comprehension ks :
  all_stripped (dict_comprehension (fun _ => @nil pystr) ks).
Proof.
  unfold dict_comprehension, all_stripped.
  assert (H : forall d : candidates_t,
            Forall (fun kv => Forall (fun s => strip s = s) (snd kv)) d ->
            Forall (fun kv => Forall (fun s => strip s = s) (snd kv))
                   (fold_left (fun d k => dict_set k [] d) ks d)).
  { induction ks as [|k ks IH]; intros d Hd; simpl; [assumption|].
    apply IH.
    apply (dict_set_values (Forall (fun s => strip s = s)));
      [constructor|assumption]. }
  apply H. constructor.
Qed.

(** X21. Every value of the mapping the voting mode returns is a
    stripped string: it has no white space at its start or at its end. *)
Theorem voting_values_are_stripped
        (E : Env) (net : network) (placeholders : list pystr) (text : pystr)
        (w : world) (mapping : pyval) (w' : world) :
  run_mode E net multi_llm_voting placeholders text w = (Ok mapping, w') ->
  exists d,
    mapping = VDict d /\
    forall k v, dict_get k d = Some v ->
                exists s, v = VStr s /\ strip s = s.
Proof.
  unfold run_mode, llm_voting, llm_voting_rounds.
  change (voting_temps 3) with [T00; T02; T06].
  set (c0 := dict_comprehension (fun _ => @nil pystr) placeholders).
  destruct (voting_rounds E net [T00; T02; T06] placeholders text c0 w)
    as [[c|e] w1] eqn:Hrun.
  2:{ rewrite (bind_raise _ _ _ _ _ (bind_raise _ _ _ _ _ Hrun)).
      discriminate. }
  rewrite (bind_ok _ _ _ _ _ (bind_ok _ _ _ _ _ Hrun)).
  unfold ret, lift. cbn [py_getitem dict_get]. unfold k_mapping at 1 2.
  rewrite pystr_eqb_refl. intros H. inversion H. subst.
  exists (final_map_of c). split; [reflexivity|].
  intros k v Hk. rewrite final_map_value in Hk.
  destruct (dict_get k c) as [vals|] eqn:Hc; [|discriminate].
  injection Hk as <-. exists (winner vals). split; [reflexivity|].
  assert (Hs : all_stripped c).
  { eapply voting_rounds_stripped; [|exact Hrun].
    apply all_stripped_comprehension. }
  apply dict_get_in in Hc. unfold all_stripped in Hs.
  rewrite Forall_forall in Hs. specialize (Hs _ Hc). cbn [snd] in Hs.
  destruct vals as [|v0 vs]; [reflexivity|].
  rewrite Forall_forall in Hs. apply Hs.
  apply winner_most_frequent. discriminate.
Qed.

Lemma voting_values_are_stripped_witness :
  exists d,
    fst (run_mode env0 net_ax multi_llm_voting [lit "A"] text_no_data world0)
    = Ok (VDict d) /\
    forall k v, dict_get k d = Some v -> exists s, v = VStr s /\ strip s = s.
Proof.
  destruct (run_mode env0 net_ax multi_llm_voting [lit "A"] text_no_data world0)
    as [[mapping|e] w'] eqn:Hrun; [|vm_compute in Hrun; discriminate].
  destruct (voting_values_are_stripped _ _ _ _ _ _ _ Hrun) as (d & -> & Hd).
  exists d. split; [reflexivity|exact Hd].
Defined.

(** ** The structure of the filled document *)


Lemma stored_text_idempotent txt : stored_text (stored_text txt) = stored_text txt.
Proof.
  unfold stored_text. rewrite map_map. apply map_ext. intros c.
  unfold stored_char. destruct (Ascii.eqb c carriage_return) eqn:Hc;
    [reflexivity|now rewrite Hc].
Qed.







(** X22. What [fill_docx] keeps of the template and what it does not.
    The output has as many paragraphs.  Every body paragraph and every
    table cell paragraph is left as a single run without formatting that
    holds its text, whatever runs, links and pictures it had and whether
    or not a token occurred in it; every other paragraph keeps its runs.
    With an empty mapping the text of every paragraph is the one of the
    template, up to carriage returns stored as line feeds. *)
Theorem fill_docx_keeps_structure
        (E : Env) (template : document) (mapping : dict) (out : document) :
  fill_docx E template mapping = Ok out ->
  length (store out) = length (store template) /\
  (forall p, In p (filled_paragraphs template) ->
             p < length (store template) ->
             nth p (store out) [] = plain (para_text out p)) /\
  (forall p, ~ In p (filled_paragraphs template) ->
             nth p (store out) [] = nth p (store template) []) /\
  (mapping = [] ->
   forall p, para_text out p
             = if in_dec Nat.eq_dec p (filled_paragraphs template)
               then stored_text (para_text template p)
               else para_text template p).
Proof.
  intros Hfill.
  split; [apply (fill_docx_runs E template mapping out 0 Hfill)|].
  split; [intros p; apply (fill_docx_runs E template mapping out p Hfill)|].
  split; [intros p; apply (fill_docx_runs E template mapping out p Hfill)|].
  intros -> p. rewrite (fill_docx_text _ _ _ _ p Hfill).
  destruct (in_dec Nat.eq_dec p (filled_paragraphs template)) as [Hin|Hout].
  - apply (count_occ_In Nat.eq_dec) in Hin.
    destruct (count_occ Nat.eq_dec (filled_paragraphs template) p) as [|n];
      [lia|].
    clear Hin. induction n as [|n IH]; [reflexivity|].
    change (Nat.iter (S (S n)) (written E []) (para_text template p))
      with (written E [] (Nat.iter (S n) (written E []) (para_text template p))).
    rewrite IH. unfold written. cbn [repl_text fold_left].
    apply stored_text_idempotent.
  - now rewrite (proj1 (count_occ_not_In Nat.eq_dec _ _) Hout).
Qed.

Lemma fill_docx_keeps_structure_witness :
  nth 0 (store doc_header_filled) [] = plain (lit "Insured: Ada") /\
  nth 1 (store doc_header_filled) [] = nth 1 (store doc_header) [].
Proof.
  assert (H : fill_docx env0 doc_header mapping_name_ref = Ok doc_header_filled)
    by (vm_compute; reflexivity).
  destruct (fill_docx_keeps_structure env0 doc_header mapping_name_ref
              doc_header_filled H) as (_ & Hin & Hout & _).
  split.
  - apply (Hin 0); [simpl; auto|simpl; lia].
  - apply (Hout 1). simpl. intros [Hc|[Hc|[Hc|[]]]]; discriminate.
Defined.


(** ** Reading a reply *)

(** X23. A reply in which prose surrounds the JSON object is read as the
    object alone: [json.loads] is given the balanced block, and the
    result is the one the block gives on its own. *)
Theorem loads_block_ignores_surrounding_text
        (E : Env) (pre blk post : pystr) :
  ~ In lbrace pre -> balanced_block blk ->
  loads_block E (pre ++ blk ++ post) = loads_block E blk.
Proof.
  intros Hpre Hb. unfold loads_block.
  rewrite (extract_of_wrapped pre blk post Hpre Hb).
  pose proof (extract_of_wrapped [] blk [] (fun x => x) Hb) as He.
  simpl in He. rewrite app_nil_r in He. rewrite He.
  destruct blk; [destruct Hb as [H _]; discriminate|reflexivity].
Qed.

Lemma loads_block_ignores_surrounding_text_witness :
  loads_block env0 (lit "Here: " ++ reply_ax ++ lit " Done.")
  = loads_block env0 reply_ax.
Proof.
  apply loads_block_ignores_surrounding_text.
  - simpl. intuition discriminate.
  - repeat split; try reflexivity.
    intros n Hn. change (0 < n <= 9) in Hn.
    do 10 (destruct n as [|n]; [first [lia|reflexivity]|]). lia.
Defined.

(** ** A template without placeholders *)

(** X24. When no placeholder was detected and the reply is an object
    without the key ["mapping"], the strict-validation branch is left by
    [KeyError] (nothing was added to the object, and the script indexes
    it), while the high-accuracy branch returns the empty mapping. *)
Theorem no_placeholders_and_no_mapping_key
        (E : Env) (net : network) (text : pystr) (w : world)
        (out : pystr) (d : dict) :
  key_set E = true ->
  net (issued w) = Content out ->
  loads_block E out = Ok (VDict d) ->
  dict_get k_mapping d = None ->
  fst (run_mode E net strict_validation [] text w) = Raise KeyError /\
  fst (run_mode E net high_accuracy [] text w) = Ok (VDict []).
Proof.
  intros Hkey Hnet Hl Hd.
  unfold run_mode, llm_strict_validation, llm_high_accuracy, bind, lift,
    call_openrouter, post.
  rewrite Hkey, Hnet, Hl. cbn [rbind for_each py_getitem fst].
  rewrite Hd. split; [reflexivity|].
  cbn [py_get_default as_dict rbind]. unfold dict_get_default. rewrite Hd.
  reflexivity.
Qed.

Lemma no_placeholders_and_no_mapping_key_witness :
  fst (run_mode env0 net_ax strict_validation [] text_no_data world0)
  = Raise KeyError /\
  fst (run_mode env0 net_ax high_accuracy [] text_no_data world0)
  = Ok (VDict []).
Proof.
  apply (no_placeholders_and_no_mapping_key env0 net_ax text_no_data world0
           reply_ax [(lit "A", VStr (lit "x"))]).
  - reflexivity.
  - reflexivity.
  - vm_compute. reflexivity.
  - reflexivity.
Defined.

(** ** What the voting mode and the strict validation return *)






